(** * nodeplayer: the Player orchestrator ([src/player.js])

    A shallow embedding of the [Player] class: hook dispatch, the
    initialisation pipeline, the playback state machine, the song
    preparation pipeline and the search / playlist aggregator.

    JavaScript values keep the distinctions the code relies on: [null]
    versus [undefined], truthiness, IEEE-754 numbers.  Methods are
    computations in a state-and-exception monad over the player object, the
    heap of song objects that the queue and [nowPlaying] share, the pending
    timers and a trace of the calls that leave the player (hook functions,
    completion callbacks, methods of songs and backends).

    Outside the model: the logger (only the property reads of its arguments
    are kept) and hook functions that call back into the player (a hook
    function works on the plugins' own state).  Objects that the player
    reads through a prototype chain (plugins, hooks bundles) are given by
    what a property read returns. *)

From Stdlib Require Import ZArith Lia.
From Stdlib Require Import Floats.SpecFloat.
From stdpp Require Import base option list gmap strings.

Open Scope string_scope.
Open Scope nat_scope.
Open Scope list_scope.

(** ** JavaScript values *)

(** Numbers are IEEE-754 binary64 values, in the specification form of the
    standard library. *)
Abbreviation number := spec_float.

Inductive Val :=
| VUndefined
| VNull
| VBool (b : bool)
| VNum (x : number)
| VStr (s : string)
| VSong (l : nat)                   (* a Song object of the heap *)
| VResult (songId : string)         (* a song object of a search result *)
| VObj (id : nat)                   (* any other object or function *)
| VError (msg : string)             (* new Error(msg) *)
| VErrorOf (msg : string) (cause : Val)   (* new Error(msg + cause) *)
| VTypeError (msg : string).

(** [ToBoolean]. *)
Definition truthy (v : Val) : bool :=
  match v with
  | VUndefined | VNull => false
  | VBool b => b
  | VNum (S754_zero _) | VNum S754_nan => false
  | VNum _ => true
  | VStr s => negb (String.eqb s "")
  | _ => true
  end.

Definition num_zero : number := S754_zero false.
Definition num_one : number := S754_finite false 4503599627370496 (-52).

Definition is_nan (x : number) : bool :=
  match x with S754_nan => true | _ => false end.

(** [a + b] and [a - b] on numbers: binary64, round to nearest, ties to
    even. *)
Definition num_add (a b : number) : number := SFadd 53 1024 a b.
Definition num_sub (a b : number) : number := SFsub 53 1024 a b.

(** The number nearest to the integer [z]. *)
Definition num_of_Z (z : Z) : number := binary_normalize 53 1024 z 0 false.

(** [a || b] on numbers. *)
Definition num_or (a b : number) : number := if truthy (VNum a) then a else b.

(** [Math.max(a, b)] and [Math.min(a, b)] on numbers: NaN if either argument
    is NaN, and [+0] is larger than [-0]. *)
Definition Math_max (a b : number) : number :=
  match a, b with
  | S754_nan, _ | _, S754_nan => S754_nan
  | S754_zero sa, S754_zero sb => S754_zero (sa && sb)
  | _, _ => if SFltb a b then b else a
  end.

Definition Math_min (a b : number) : number :=
  match a, b with
  | S754_nan, _ | _, S754_nan => S754_nan
  | S754_zero sa, S754_zero sb => S754_zero (sa || sb)
  | _, _ => if SFltb b a then b else a
  end.

(** The outcome of a call: it returns a value or throws one. *)
Inductive Completion (A : Type) :=
| Normal (a : A)
| Throw (e : Val).
Arguments Normal {A} a.
Arguments Throw {A} e.

(** ** Songs, queue, callbacks *)

(** [song.playback]: times and positions are numbers (milliseconds). *)
Record Playback := mkPlayback { startTime : number; startPos : number }.

(** What a song's [prepare] reports to its handler: [(err, chunk, done)]. *)
Record PrepEvent := mkPrepEvent { pe_err : Val; pe_chunk : Val; pe_done : Val }.

(** Modelled from the spec: the Song class (./song is not part of the
    sources).  "identity uuid and songId; owning backend reference; playback
    record {startTime, startPos}; preparation status (isPrepared()); an
    optional cancelPrepare capability present only while a fetch is in
    flight".  [prepareTimeout] and [songData] are the properties player.js
    itself writes on the song.  [prepareSync] stands for the body of
    [song.prepare(handler)]: the reports it makes to the handler before it
    returns; later reports reach the handler through [deliver]. *)
Record Song := mkSong {
  uuid : string;
  songId : string;
  backendName : string;
  playback : Playback;
  isPrepared : bool;
  cancelPrepare : bool;
  prepareTimeout : option nat;
  songData : bool;
  prepareSync : list PrepEvent;
}.

Definition set_playback (pb : Playback) (sg : Song) : Song :=
  mkSong (uuid sg) (songId sg) (backendName sg) pb (isPrepared sg)
    (cancelPrepare sg) (prepareTimeout sg) (songData sg) (prepareSync sg).
Definition set_cancelPrepare (b : bool) (sg : Song) : Song :=
  mkSong (uuid sg) (songId sg) (backendName sg) (playback sg) (isPrepared sg)
    b (prepareTimeout sg) (songData sg) (prepareSync sg).
Definition set_prepareTimeout (t : option nat) (sg : Song) : Song :=
  mkSong (uuid sg) (songId sg) (backendName sg) (playback sg) (isPrepared sg)
    (cancelPrepare sg) t (songData sg) (prepareSync sg).
Definition set_songData (b : bool) (sg : Song) : Song :=
  mkSong (uuid sg) (songId sg) (backendName sg) (playback sg) (isPrepared sg)
    (cancelPrepare sg) (prepareTimeout sg) b (prepareSync sg).

(** A reference held in [nowPlaying]: [null], [undefined] or a song. *)
Inductive Ref :=
| RNull
| RUndefined
| RSong (l : nat).

Definition ref_truthy (r : Ref) : bool :=
  match r with RSong _ => true | _ => false end.

Definition ref_val (r : Ref) : Val :=
  match r with RNull => VNull | RUndefined => VUndefined | RSong l => VSong l end.

(** Completion callbacks handed to the player.  [CbUser] is a callback of
    the caller; the two others are the step callbacks that [async.series]
    passes inside [prepareSongs] (the first one remembers [currentSong]). *)
Inductive Callback :=
| CbUser (id : nat)
| CbSeries1 (currentSong : Ref)
| CbSeries2.

(** The closures handed to [song.prepare]. *)
Inductive Handler :=
| HStartPlayback (position : number)
| HPrepareSong (song : nat) (callback : Callback).

Inductive Method :=
| MStartPlayback
| MStopPlayback
| MChangeSong
| MPrepareSongs.

Inductive Stage :=
| BuiltinPlugins
| ExternalPlugins
| BuiltinBackends
| ExternalBackends.

(** What one backend contributes to [allResults]: the [results] of its
    [getPlaylists], or its search results with the songs that passed the
    [preAddSearchResult] hook, keyed by [songId]. *)
Inductive Contribution :=
| CPlaylists (results : Val)
| CSearch (songs : list (string * Val)).

(** The trace: calls that leave the player, and marks for method entries. *)
Inductive Event :=
| EvHook (plugin hook : string) (argv : list Val) (res : Completion Val)
| EvCallback (id : nat) (args : list Val)
| EvEnter (m : Method)
| EvSongPrepare (song : nat) (h : Handler)
| EvPlaybackStarted (song : nat) (pos : number)
| EvCancelPrepare (song : nat) (reason : string)
| EvLoad (st : Stage)
| EvMerged (st : Stage)
| EvLogReady
| EvSearch (backend : string) (query : Val)
| EvGetPlaylists (backend : string)
| EvJoinCallback (id : nat) (allResults : list (string * Contribution)).

(** A pending timer: what it runs, and the delay it was set with. *)
Inductive TimerAction :=
| TPrepareTimeout (song : nat) (delay : Z).

Record Queue := mkQueue { songs : list nat; playbackStart : bool }.

(** Modelled from the spec: what player.js reads of the configuration
    object (./config is not part of the sources), "preparation timeout
    duration, list of enabled plugin/backend names". *)
Record Config := mkConfig {
  songPrepareTimeout : Z;
  cfg_plugins : list string;
  cfg_backends : list string;
}.

(** Modelled from the spec: the backend descriptor (no backend is part of
    the sources), "search(query, onSuccess, onError), optional
    getPlaylists(cb)".  What [search] and [getPlaylists] do when called is
    part of the descriptor: they report before returning, or later (through
    [searchSuccess], [searchError], [playlistsReport]). *)
Record SearchResults := mkResults { r_songs : list (string * string) }.
(* [r_songs]: the entries of [results.songs], each with the [songId] of its
   song object *)

Inductive SearchBehaviour :=
| SearchSync (results : SearchResults)
| SearchSyncError (err : Val)
| SearchLater.

Inductive PlaylistsBehaviour :=
| PlaylistsSync (err results : Val)
| PlaylistsLater.

Record Backend := mkBackend {
  b_name : string;
  b_search : SearchBehaviour;
  b_getPlaylists : option PlaylistsBehaviour;
}.

(** The variables that the callbacks of one [getPlaylists] or
    [searchBackends] call close over. *)
Record Join := mkJoin {
  resultCnt : nat;
  allResults : list (string * Contribution);
  j_callback : nat;
}.

(** ** Objects used as maps

    An object is given by its own properties in enumeration order: the keys
    that are array indices first, in ascending order, then the other keys
    in the order in which they were created. *)

Definition digit (a : Ascii.ascii) : option N :=
  let n := Ascii.N_of_ascii a in
  if ((48 <=? n) && (n <=? 57))%N then Some (n - 48)%N else None.

Fixpoint digits (k : string) (acc : N) : option N :=
  match k with
  | EmptyString => Some acc
  | String a r =>
      match digit a with
      | Some d => digits r (10 * acc + d)%N
      | None => None
      end
  end.

(** The array index that the key [k] is: the decimal numeral, without
    leading zeros, of an integer below 2^32 - 1. *)
Definition array_index (k : string) : option N :=
  match k with
  | EmptyString => None
  | String a r =>
      if (Ascii.N_of_ascii a =? 48)%N && negb (String.eqb r "") then None
      else match digits k 0 with
           | Some n => if (n <? 4294967295)%N then Some n else None
           | None => None
           end
  end.

(** Whether a new key [k] comes before the existing key [k'] in the
    enumeration. *)
Definition enumerated_before (k k' : string) : bool :=
  match array_index k, array_index k' with
  | Some n, Some n' => (n <? n')%N
  | Some _, None => true
  | None, _ => false
  end.

Definition has_key {A} (k : string) (l : list (string * A)) : bool :=
  existsb (λ kv, String.eqb kv.1 k) l.

Fixpoint replace_key {A} (k : string) (v : A) (l : list (string * A)) : list (string * A) :=
  match l with
  | [] => []
  | (k', v') :: r =>
      if decide (k = k') then (k, v) :: r else (k', v') :: replace_key k v r
  end.

Fixpoint insert_key {A} (k : string) (v : A) (l : list (string * A)) : list (string * A) :=
  match l with
  | [] => [(k, v)]
  | (k', v') :: r =>
      if enumerated_before k k' then (k, v) :: (k', v') :: r
      else (k', v') :: insert_key k v r
  end.

(** [obj[k] = v]: an existing key keeps its place; a new one takes its place
    in the enumeration order. *)
Definition assign_key {A} (k : string) (v : A) (l : list (string * A)) : list (string * A) :=
  if has_key k l then replace_key k v l else insert_key k v l.

(** [_.extend(dst, src)] *)
Definition extend {A} (dst src : list (string * A)) : list (string * A) :=
  foldl (λ acc kv, assign_key kv.1 kv.2 acc) dst src.

(** Modelled from the spec: when a loader of modules passes its results to
    its callback, "each returns a mapping name→descriptor via cb": before
    it returns, or later. *)
Inductive Answer (A : Type) :=
| AtOnce (results : A)
| Later.
Arguments AtOnce {A} results.
Arguments Later {A}.

Section Player.

(** The state of the plugins' side of the world: hook functions read and
    write it, the player does not. *)
Context {W : Type}.

Definition HookFn := list Val → W → Completion Val * W.

(** What a property read on a hooks bundle gives: a function, or another
    value ([undefined] for a name the bundle does not have).  A value that
    is not a function has no [apply]. *)
Inductive HookVal :=
| HFun (fn : HookFn)
| HOther (v : Val).

Definition hookval_truthy (h : HookVal) : bool :=
  match h with HFun _ => true | HOther v => truthy v end.

(** The value as [plugin[key]] gives it, a function being an object. *)
Definition hookval_val (h : HookVal) : Val :=
  match h with HFun _ => VObj 0 | HOther v => v end.

(** A plugin descriptor, as the player reads it: [plugin.hooks], which is
    a bundle, given by what [bundle[key]] is for every key (inherited
    properties included), or is [undefined]; and [plugin[key]] for the
    other keys. *)
Record Plugin := mkPlugin {
  hooks : option (string → HookVal);
  props : string → Val;
}.

(** [plugin[key]] *)
Definition plugin_get (p : Plugin) (key : string) : Val :=
  if decide (key = "hooks")
  then match hooks p with Some _ => VObj 0 | None => VUndefined end
  else props p key.

(** ** Object literals

    An object literal inherits the properties of [Object.prototype].  The
    functions among them are given as they behave when called by
    [fun.apply(null, argv)], that is with [this] being [null]; the error
    messages are those of V8. *)

Definition is_object (v : Val) : bool :=
  match v with
  | VSong _ | VResult _ | VObj _ | VError _ | VErrorOf _ _ | VTypeError _ => true
  | _ => false
  end.

Definition builtin (f : list Val → Completion Val) : HookFn := λ argv w, (f argv, w).

Definition null_this : Completion Val :=
  Throw (VTypeError "Cannot convert undefined or null to object").

Definition Object_prototype (key : string) : HookVal :=
  if decide (key = "toString") then
    HFun (builtin (λ _, Normal (VStr "[object Null]")))
  else if decide (key = "constructor") then
    (* [Object(value)]: the object itself, or a new object *)
    HFun (builtin (λ argv,
      Normal (match head argv with
              | Some v => if is_object v then v else VObj 0
              | None => VObj 0
              end)))
  else if decide (key = "isPrototypeOf") then
    HFun (builtin (λ argv,
      match head argv with
      | Some v => if is_object v then null_this else Normal (VBool false)
      | None => Normal (VBool false)
      end))
  else if decide (key = "toLocaleString") then
    HFun (builtin (λ _,
      Throw (VTypeError "Object.prototype.toLocaleString called on null or undefined")))
  else if decide (key ∈ ["valueOf"; "hasOwnProperty"; "propertyIsEnumerable";
                         "__defineGetter__"; "__defineSetter__";
                         "__lookupGetter__"; "__lookupSetter__"]) then
    HFun (builtin (λ _, null_this))
  else if decide (key = "__proto__") then HOther (VObj 0)
  else HOther VUndefined.

(** [{...}[key]] for an object literal with the own properties [own]. *)
Definition plain_bundle (own : gmap string HookVal) : string → HookVal :=
  λ key, default (Object_prototype key) (own !! key).

Definition plain_props (own : gmap string Val) : string → Val :=
  λ key, default (hookval_val (Object_prototype key)) (own !! key).

(** ** The module loader

    Modelled from the spec: the module loader (./modules is not part of the
    sources), "each returns a mapping name→descriptor via cb"; "the call
    issues the request and returns immediately, resuming via a completion
    handler later".  A loader passes its result to its callback once:
    before it returns, or later (through [answer]); it may never do so. *)
Record Modules := mkModules {
  loadBuiltinPlugins : Answer (list (string * Plugin));
  loadPlugins : list string → bool → Answer (list (string * Plugin));
  loadBuiltinBackends : Answer (list (string * Backend));
  loadBackends : list string → bool → Answer (list (string * Backend));
}.

(** What a loader passes to its callback. *)
Inductive Loaded :=
| LPlugins (ps : list (string * Plugin))
| LBackends (bs : list (string * Backend)).

(** A callback of [init] that a loader holds: the stage it belongs to, and
    what it closes over — the loader module, the configuration read when
    [init] began, and the tasks of the series that come after it. *)
Record Pending := mkPending {
  p_mods : Modules;
  p_config : Config;
  p_stage : Stage;
  p_rest : list Stage;
}.

(** The player object, and next to it what its methods reach: the heap of
    song objects, the backends' [songsPreparing] registries (by backend name
    and songId; the entry tells whether [songData] is buffered), the pending
    timers, the closure variables of the aggregator calls, the callbacks
    that loaders hold, the clock, the plugins' world and the trace.
    [plugins] and [backends] are JS objects used as maps: the lists give
    their own properties in enumeration order.  [prepareTimeouts] and
    [pluginVars], which no method of the class reads or writes, are left
    out. *)
Record State := mkState {
  config : Config;
  queue : Queue;
  nowPlaying : Ref;
  play : bool;
  repeat : bool;
  plugins : list (string * Plugin);
  backends : list (string * Backend);
  volume : number;
  songEndTimeout : option nat;
  heap : gmap nat Song;
  songsPreparing : gmap (string * string) bool;
  timers : gmap nat TimerAction;
  nextTimer : nat;
  joins : list Join;
  loads : list (option Pending);
  clock : number;
  world : W;
  trace : list Event;
}.

Definition set_nowPlaying (r : Ref) (s : State) : State :=
  mkState (config s) (queue s) r (play s) (repeat s) (plugins s) (backends s)
    (volume s) (songEndTimeout s) (heap s) (songsPreparing s) (timers s)
    (nextTimer s) (joins s) (loads s) (clock s) (world s) (trace s).
Definition set_play (b : bool) (s : State) : State :=
  mkState (config s) (queue s) (nowPlaying s) b (repeat s) (plugins s)
    (backends s) (volume s) (songEndTimeout s) (heap s) (songsPreparing s)
    (timers s) (nextTimer s) (joins s) (loads s) (clock s) (world s) (trace s).
Definition set_plugins (ps : list (string * Plugin)) (s : State) : State :=
  mkState (config s) (queue s) (nowPlaying s) (play s) (repeat s) ps (backends
    s) (volume s) (songEndTimeout s) (heap s) (songsPreparing s) (timers s)
    (nextTimer s) (joins s) (loads s) (clock s) (world s) (trace s).
Definition set_backends (bs : list (string * Backend)) (s : State) : State :=
  mkState (config s) (queue s) (nowPlaying s) (play s) (repeat s) (plugins s)
    bs (volume s) (songEndTimeout s) (heap s) (songsPreparing s) (timers s)
    (nextTimer s) (joins s) (loads s) (clock s) (world s) (trace s).
Definition set_volume (v : number) (s : State) : State :=
  mkState (config s) (queue s) (nowPlaying s) (play s) (repeat s) (plugins s)
    (backends s) v (songEndTimeout s) (heap s) (songsPreparing s) (timers s)
    (nextTimer s) (joins s) (loads s) (clock s) (world s) (trace s).
Definition set_heap (h : gmap nat Song) (s : State) : State :=
  mkState (config s) (queue s) (nowPlaying s) (play s) (repeat s) (plugins s)
    (backends s) (volume s) (songEndTimeout s) h (songsPreparing s) (timers s)
    (nextTimer s) (joins s) (loads s) (clock s) (world s) (trace s).
Definition set_songsPreparing (r : gmap (string * string) bool) (s : State) : State :=
  mkState (config s) (queue s) (nowPlaying s) (play s) (repeat s) (plugins s)
    (backends s) (volume s) (songEndTimeout s) (heap s) r (timers s)
    (nextTimer s) (joins s) (loads s) (clock s) (world s) (trace s).
Definition set_timers (t : gmap nat TimerAction) (n : nat) (s : State) : State :=
  mkState (config s) (queue s) (nowPlaying s) (play s) (repeat s) (plugins s)
    (backends s) (volume s) (songEndTimeout s) (heap s) (songsPreparing s) t n
    (joins s) (loads s) (clock s) (world s) (trace s).
Definition set_joins (js : list Join) (s : State) : State :=
  mkState (config s) (queue s) (nowPlaying s) (play s) (repeat s) (plugins s)
    (backends s) (volume s) (songEndTimeout s) (heap s) (songsPreparing s)
    (timers s) (nextTimer s) js (loads s) (clock s) (world s) (trace s).
Definition set_loads (ls : list (option Pending)) (s : State) : State :=
  mkState (config s) (queue s) (nowPlaying s) (play s) (repeat s) (plugins s)
    (backends s) (volume s) (songEndTimeout s) (heap s) (songsPreparing s)
    (timers s) (nextTimer s) (joins s) ls (clock s) (world s) (trace s).
Definition set_world (w : W) (s : State) : State :=
  mkState (config s) (queue s) (nowPlaying s) (play s) (repeat s) (plugins s)
    (backends s) (volume s) (songEndTimeout s) (heap s) (songsPreparing s)
    (timers s) (nextTimer s) (joins s) (loads s) (clock s) w (trace s).
Definition set_trace (t : list Event) (s : State) : State :=
  mkState (config s) (queue s) (nowPlaying s) (play s) (repeat s) (plugins s)
    (backends s) (volume s) (songEndTimeout s) (heap s) (songsPreparing s)
    (timers s) (nextTimer s) (joins s) (loads s) (clock s) (world s) t.

(** ** The monad of player methods

    A method runs on the state and returns or throws; what it wrote before
    throwing stays written. *)

Definition M (A : Type) : Type := State → Completion A * State.

Definition ret {A} (a : A) : M A := λ s, (Normal a, s).
Definition throw {A} (e : Val) : M A := λ s, (Throw e, s).
Definition bind {A B} (m : M A) (k : A → M B) : M B :=
  λ s, match m s with
       | (Normal a, s') => k a s'
       | (Throw e, s') => (Throw e, s')
       end.

Declare Scope player_scope.
Notation "x ← y ; z" := (bind y (λ x, z))
  (at level 20, y at level 100, z at level 200, only parsing) : player_scope.
Notation "' x ← y ; z" := (bind y (λ x, z))
  (at level 20, x pattern, y at level 100, z at level 200, only parsing) : player_scope.
Notation "x ;; z" := (bind x (λ _, z))
  (at level 100, z at level 200, only parsing, right associativity) : player_scope.
Open Scope player_scope.

Definition gets {A} (f : State → A) : M A := λ s, (Normal (f s), s).
Definition modify (f : State → State) : M unit := λ s, (Normal tt, f s).
Definition emit (e : Event) : M unit := modify (λ s, set_trace (trace s ++ [e]) s).
Definition when (b : bool) (m : M unit) : M unit := if b then m else ret tt.

Fixpoint for_each {A} (l : list A) (f : A → M unit) : M unit :=
  match l with
  | [] => ret tt
  | x :: r => f x;; for_each r f
  end.

(** ** Hook dispatcher *)

(** [fun.apply(null, argv)]: the hook runs on the plugins' world; the call
    and its outcome are recorded. *)
Definition apply_hook (plugin hook : string) (fn : HookFn) (argv : list Val) : M Val :=
  λ s, let '(r, w) := fn argv (world s) in
       (r, set_trace (trace s ++ [EvHook plugin hook argv r]) (set_world w s)).

(** The [_.find] loop of [callHooks]: [err] is the variable of the enclosing
    function, assigned at every invocation; the loop ends at the first
    plugin whose callback returns a truthy value.  Reading
    [plugin.hooks[hook]] throws when the plugin has no [hooks], and
    [fun.apply] when the value is truthy without being a function. *)
Fixpoint callHooks_find (pls : list (string * Plugin)) (hook : string)
    (argv : list Val) (err : Val) : M Val :=
  match pls with
  | [] => ret err
  | (name, plugin) :: rest =>
      match hooks plugin with
      | None =>
          throw (VTypeError ("Cannot read properties of undefined (reading '"
                             +:+ hook +:+ "')"))
      | Some bundle =>
          if hookval_truthy (bundle hook) then
            match bundle hook with
            | HFun fn =>
                r ← apply_hook name hook fn argv;
                if truthy r then ret r else callHooks_find rest hook argv r
            | HOther _ => throw (VTypeError "fun.apply is not a function")
            end
          else callHooks_find rest hook argv err
      end
  end.

Definition callHooks (hook : string) (argv : list Val) : M Val :=
  pls ← gets plugins;
  callHooks_find pls hook argv VNull.

(** The [_.find] loop of [numHooks]: its callback returns nothing, so every
    plugin is visited. *)
Fixpoint numHooks_find (pls : list (string * Plugin)) (hook : string) (cnt : nat) : nat :=
  match pls with
  | [] => cnt
  | (_, plugin) :: rest =>
      numHooks_find rest hook (if truthy (plugin_get plugin hook) then S cnt else cnt)
  end.

Definition numHooks (hook : string) (s : State) : nat :=
  numHooks_find (plugins s) hook 0.

(** The function that [plugin.hooks[hook]] is, if it is one. *)
Definition hook_fn (p : Plugin) (hook : string) : option HookFn :=
  match hooks p with
  | Some bundle => match bundle hook with HFun fn => Some fn | HOther _ => None end
  | None => None
  end.

(** The plugins whose [hooks] bundle gives a function for [hook], as a
    property of its own or an inherited one. *)
Definition exposing (pls : list (string * Plugin)) (hook : string) : list (string * Plugin) :=
  filter (λ np, is_Some (hook_fn np.2 hook)) pls.

(** The trace of dispatching [hook] with [argv] to the plugins [pls], the
    i-th invocation having the outcome [outs !! i]. *)
Definition hook_events (hook : string) (argv : list Val)
    (pls : list (string * Plugin)) (outs : list (Completion Val)) : list Event :=
  zip_with (λ np out, EvHook np.1 hook argv out) pls outs.

(** ** Constructor and volume *)

(** The [options] object: an absent property is [None] ([false] for the two
    flags, which [|| false] leaves as they are). *)
Record Options := mkOptions {
  o_config : option Config;
  o_queue : option Queue;
  o_nowPlaying : Ref;
  o_play : bool;
  o_repeat : bool;
  o_plugins : option (list (string * Plugin));
  o_backends : option (list (string * Backend));
  o_volume : option number;
  o_songEndTimeout : option nat;
}.

(** [options.volume || 1] *)
Definition volume_or_default (v : option number) : number :=
  match v with
  | Some x => if truthy (VNum x) then x else num_one
  | None => num_one
  end.

(** [new Player(options)].  [defaultConfig] is what
    [require('./config').getConfig()] returns; the song heap, the clock and
    the plugins' world are those the player is created in. *)
Definition constructor (options : Options) (defaultConfig : Config)
    (h : gmap nat Song) (now : number) (w : W) : State :=
  {| config := default defaultConfig (o_config options);
     queue := default (mkQueue [] false) (o_queue options);
     nowPlaying := (if ref_truthy (o_nowPlaying options) then o_nowPlaying options else RNull);
     play := o_play options;
     repeat := o_repeat options;
     plugins := default [] (o_plugins options);
     backends := default [] (o_backends options);
     volume := volume_or_default (o_volume options);
     songEndTimeout := o_songEndTimeout options;
     heap := h;
     songsPreparing := ∅;
     timers := ∅;
     nextTimer := 0;
     joins := [];
     loads := [];
     clock := now;
     world := w;
     trace := [] |}.

(** [setVolume(newVol, userID)]; [newVol] is the argument as a number. *)
Definition setVolume (newVol : number) (userID : Val) : M unit :=
  let newVol := Math_min num_one (Math_max num_zero newVol) in
  modify (set_volume newVol);;
  _ ← callHooks "onVolumeChange" [VNum newVol; userID];
  ret tt.

(** [0 <= v <= 1] *)
Definition in_unit_interval (v : number) : bool :=
  SFleb num_zero v && SFleb v num_one.

(** ** Song objects and the queue *)

(** Reading a property of the object a reference points to; on [null] or
    [undefined] that is a TypeError. *)
Definition deref (r : Ref) (prop : string) : M (nat * Song) :=
  match r with
  | RSong l =>
      h ← gets heap;
      match h !! l with
      | Some sg => ret (l, sg)
      | None => throw (VTypeError ("Cannot read properties of undefined (reading '" +:+ prop +:+ "')"))
      end
  | RNull => throw (VTypeError ("Cannot read properties of null (reading '" +:+ prop +:+ "')"))
  | RUndefined => throw (VTypeError ("Cannot read properties of undefined (reading '" +:+ prop +:+ "')"))
  end.

Definition update_song (l : nat) (f : Song → Song) : M unit :=
  modify (λ s, set_heap (alter f l (heap s)) s).

(** [queue.songs[i]] for a numeric index [i]. *)
Definition songs_at (q : Queue) (i : Z) : Ref :=
  if (i <? 0)%Z then RUndefined
  else match songs q !! Z.to_nat i with
       | Some l => RSong l
       | None => RUndefined
       end.

Definition uuid_is (h : gmap nat Song) (at_ : Val) (l : nat) : bool :=
  match h !! l, at_ with
  | Some sg, VStr u => String.eqb (uuid sg) u
  | _, _ => false
  end.

Fixpoint find_index {A} (f : A → bool) (l : list A) (i : Z) : Z :=
  match l with
  | [] => -1
  | x :: r => if f x then i else find_index f r (i + 1)
  end.

(** Modelled from the spec: the Queue class (./queue is not part of the
    sources).  "an ordered sequence of Song, order = play order; supports
    lookup by uuid and by position; exposes uuidAtIndex".  A lookup compares
    [song.uuid === at]; [findSongIndex] gives -1, [findSong] and
    [uuidAtIndex] give [null] when there is no such song. *)
Definition findSongIndex (at_ : Val) : M Z :=
  q ← gets queue; h ← gets heap;
  ret (find_index (uuid_is h at_) (songs q) 0).

Definition findSong (at_ : Val) : M Ref :=
  q ← gets queue; h ← gets heap;
  ret (match List.find (uuid_is h at_) (songs q) with
       | Some l => RSong l
       | None => RNull
       end).

Definition uuidAtIndex (i : Z) : M Val :=
  q ← gets queue; h ← gets heap;
  ret (match songs_at q i with
       | RSong l => match h !! l with Some sg => VStr (uuid sg) | None => VNull end
       | _ => VNull
       end).

Definition getLength : M nat := q ← gets queue; ret (length (songs q)).

(** Modelled from the spec: [song.playbackStarted(position)] of the Song
    class, "recording wall-clock start and offset for resuming". *)
Definition playbackStarted (l : nat) (pos : number) : M unit :=
  emit (EvPlaybackStarted l pos);;
  now ← gets clock;
  update_song l (set_playback (mkPlayback now pos)).

(** ** Timers *)

Definition setTimeout (a : TimerAction) : M nat :=
  λ s, (Normal (nextTimer s), set_timers (<[nextTimer s := a]> (timers s)) (S (nextTimer s)) s).

(** [clearTimeout(handle)]; nothing happens for [null] or [undefined]. *)
Definition clear_timer (handle : option nat) (s : State) : State :=
  set_timers (match handle with
              | Some t => delete t (timers s)
              | None => timers s
              end) (nextTimer s) s.

Definition clearTimeout (handle : option nat) : M unit :=
  modify (clear_timer handle).

(** ** Playback state machine *)

Definition getNowPlaying : M Ref := gets nowPlaying.

Definition stopPlayback (pause : bool) : M unit :=
  emit (EvEnter MStopPlayback);;
  t ← gets songEndTimeout;
  clearTimeout t;;
  modify (set_play false);;
  np ← gets nowPlaying;
  '(l, sg) ← deref np "playback";
  now ← gets clock;
  let pos := num_add (startPos (playback sg)) (num_sub now (startTime (playback sg))) in
  (* [if (np)]: reached only with a song *)
  update_song l (set_playback (mkPlayback num_zero (if pause then pos else num_zero))).

(** The callback that [startPlayback(position)] hands to
    [nowPlaying.prepare]. *)
Definition startPlayback_handler (position : number) (ev : PrepEvent) : M unit :=
  if truthy (pe_err ev)
  then throw (VErrorOf "error while preparing now playing: " (pe_err ev))
  else
    np ← gets nowPlaying;
    '(l, sg) ← deref np "playbackStarted";
    playbackStarted l (num_or position (startPos (playback sg)));;
    modify (set_play true).

(** [song.prepare(handler)]: the call is recorded and the handler receives
    the reports the song makes before [prepare] returns. *)
Definition song_prepare (l : nat) (sg : Song) (h : Handler)
    (run : PrepEvent → M unit) : M unit :=
  emit (EvSongPrepare l h);;
  for_each (prepareSync sg) run.

(** The first part of [startPlayback]: without a now-playing song, the
    first queued song becomes the now-playing song, if there is one. *)
Definition adopt_first_song : M unit :=
  np ← gets nowPlaying;
  if ref_truthy np then ret tt
  else
    (* find first song in queue *)
    q ← gets queue;
    modify (set_nowPlaying (songs_at q 0));;
    if ref_truthy (songs_at q 0) then ret tt
    else throw (VError "queue is empty! not starting playback.").

(** The second part: [this.nowPlaying.prepare(err => ...)]. *)
Definition prepare_nowPlaying (position : number) : M unit :=
  np ← gets nowPlaying;
  '(l, sg) ← deref np "prepare";
  song_prepare l sg (HStartPlayback position) (startPlayback_handler position).

(** [startPlayback(position)]; [position] is the argument as a number, 0
    when there is none. *)
Definition startPlayback (position : number) : M unit :=
  emit (EvEnter MStartPlayback);;
  (* [position = position || 0] *)
  let position := num_or position num_zero in
  adopt_first_song;;
  prepare_nowPlaying position.

Definition changeSong (uuid_ : Val) : M unit :=
  emit (EvEnter MChangeSong);;
  t ← gets songEndTimeout;
  clearTimeout t;;
  r ← findSong uuid_;
  modify (set_nowPlaying r);;
  (if ref_truthy r then ret tt else stopPlayback false);;
  startPlayback num_zero.

(** ** Song preparation pipeline *)

Definition setPrepareTimeout (l : nat) : M unit :=
  '(_, sg) ← deref (RSong l) "prepareTimeout";
  clearTimeout (prepareTimeout sg);;
  cfg ← gets config;
  t ← setTimeout (TPrepareTimeout l (songPrepareTimeout cfg));
  update_song l (set_prepareTimeout (Some t)).

Definition clearPrepareTimeout (l : nat) : M unit :=
  '(_, sg) ← deref (RSong l) "prepareTimeout";
  clearTimeout (prepareTimeout sg);;
  update_song l (set_prepareTimeout None).

(** The timer callback armed by [setPrepareTimeout], run when timer [t]
    expires: [song.cancelPrepare('prepare timeout')], a TypeError when the
    song has no such capability. *)
Definition prepareTimeout_fires (t : nat) : M unit :=
  ts ← gets timers;
  match ts !! t with
  | Some (TPrepareTimeout l _) =>
      modify (λ s, set_timers (delete t (timers s)) (nextTimer s) s);;
      '(_, sg) ← deref (RSong l) "songId";
      (if cancelPrepare sg then emit (EvCancelPrepare l "prepare timeout")
       else throw (VTypeError "song.cancelPrepare is not a function"));;
      update_song l (set_prepareTimeout None)
  | None => ret tt
  end.

Definition prepareError (l : nat) (err : Val) : M unit :=
  _ ← callHooks "onSongPrepareError" [VSong l; err];
  ret tt.

(** [this.play && this.getNowPlaying() &&
     this.getNowPlaying().uuid === song.uuid && !this.queue.playbackStart] *)
Definition playback_pending (sg : Song) (s : State) : bool :=
  play s
  && match nowPlaying s with
     | RSong n => match heap s !! n with
                  | Some np => String.eqb (uuid np) (uuid sg)
                  | None => false
                  end
     | _ => false
     end
  && negb (playbackStart (queue s)).

Definition prepareProgCallback (l : nat) (bytesWritten done : Val) : M unit :=
  '(_, sg) ← deref (RSong l) "uuid";
  pending ← gets (playback_pending sg);
  when (pending && truthy bytesWritten) (startPlayback num_zero);;
  _ ← callHooks "onPrepareProgress" [VSong l; bytesWritten; done];
  if truthy done then
    _ ← callHooks "onSongPrepared" [VSong l];
    update_song l (set_cancelPrepare false);;
    reg ← gets songsPreparing;
    match reg !! (backendName sg, songId sg) with
    | Some _ =>
        modify (λ s, set_songsPreparing (delete (backendName sg, songId sg) (songsPreparing s)) s)
    | None => throw (VTypeError "Cannot set properties of undefined (setting 'songData')")
    end;;
    clearPrepareTimeout l
  else
    setPrepareTimeout l.

Section WithInvoke.

(** How a completion callback is called. *)
Variable invoke : Callback → list Val → M unit.

(** [prepareErrCallback]: no call site in player.js.  Its last statement
    reads [this.songsPreparing[song.backend.name]], and the player has no
    [songsPreparing]. *)
Definition prepareErrCallback_with (l : nat) (err : Val) (callback : Callback) : M unit :=
  update_song l (set_cancelPrepare false);;
  clearPrepareTimeout l;;
  invoke callback [VBool true];;
  prepareError l err;;
  update_song l (set_songData false);;
  '(_, sg) ← deref (RSong l) "backend";
  throw (VTypeError ("Cannot read properties of undefined (reading '"
                     +:+ backendName sg +:+ "')")).

(** The handler that [prepareSong] hands to [song.prepare]. *)
Definition prepareSong_handler_with (l : nat) (callback : Callback) (ev : PrepEvent) : M unit :=
  if truthy (pe_err ev) then invoke callback [pe_err ev]
  else
    when (truthy (pe_chunk ev)) (prepareProgCallback l (pe_chunk ev) (pe_done ev));;
    when (truthy (pe_done ev)) (clearPrepareTimeout l;; invoke callback []).

Definition prepareSong_with (song : Ref) (callback : Callback) : M unit :=
  if ref_truthy song then
    '(l, sg) ← deref song "isPrepared";
    if isPrepared sg then
      (* start playback if it hasn't been started yet *)
      pending ← gets (playback_pending sg);
      when pending (startPlayback num_zero);;
      invoke callback []
    else
      song_prepare l sg (HPrepareSong l callback) (prepareSong_handler_with l callback);;
      setPrepareTimeout l
  else throw (VError "prepareSong() without song").

End WithInvoke.

(** A callback of the caller is recorded; the last step callback of
    [async.series] ends the series, which has no final callback. *)
Definition invoke_last (callback : Callback) (args : list Val) : M unit :=
  match callback with
  | CbUser id => emit (EvCallback id args)
  | _ => ret tt
  end.

(** Second task of the series in [prepareSongs]; [currentSong] is the Song
    object that the first task selected. *)
Definition prepareSongs_next (currentSong : Ref) : M unit :=
  i ← findSongIndex (ref_val currentSong);
  q ← gets queue;
  if ref_truthy (songs_at q (i + 1))
  then prepareSong_with invoke_last (songs_at q (i + 1)) CbSeries2
  else ret tt.

(** The first step callback of the series starts the second task unless it
    is given an error. *)
Definition invoke (callback : Callback) (args : list Val) : M unit :=
  match callback with
  | CbSeries1 currentSong =>
      if truthy (default VUndefined (head args)) then ret tt
      else prepareSongs_next currentSong
  | _ => invoke_last callback args
  end.

Definition prepareErrCallback := prepareErrCallback_with invoke.
Definition prepareSong_handler := prepareSong_handler_with invoke.
Definition prepareSong := prepareSong_with invoke.

(** First task of the series in [prepareSongs]. *)
Definition prepareSongs_first : M unit :=
  currentSong ← getNowPlaying;
  if ref_truthy currentSong then prepareSong currentSong (CbSeries1 currentSong)
  else
    n ← getLength;
    if decide (n = 0) then ret tt
    else
      q ← gets queue;
      prepareSong (songs_at q 0) (CbSeries1 (songs_at q 0)).

Definition prepareSongs : M unit :=
  emit (EvEnter MPrepareSongs);;
  prepareSongs_first.

(** A later report of a song's [prepare] to the handler it was given. *)
Definition deliver (h : Handler) (ev : PrepEvent) : M unit :=
  match h with
  | HStartPlayback position => startPlayback_handler position ev
  | HPrepareSong l callback => prepareSong_handler l callback ev
  end.

Definition songEnd : M unit :=
  np ← getNowPlaying;
  npIndex ← (if ref_truthy np
             then '(_, sg) ← deref np "uuid"; findSongIndex (VStr (uuid sg))
             else ret (-1)%Z);
  _ ← deref np "uuid";
  _ ← callHooks "onSongEnd" [ref_val np];
  q ← gets queue;
  (if ref_truthy (songs_at q (npIndex + 1)) then
     '(_, nextSong) ← deref (songs_at q (npIndex + 1)) "uuid";
     changeSong (VStr (uuid nextSong))
   else
     rp ← gets repeat;
     if rp then u ← uuidAtIndex 0; changeSong u else ret tt);;
  prepareSongs.

(** ** Initialisation pipeline *)

Definition stage_hook (st : Stage) : string :=
  match st with
  | BuiltinPlugins => "onBuiltinPluginsInitialized"
  | ExternalPlugins => "onPluginsInitialized"
  | BuiltinBackends => "onBuiltinBackendsInitialized"
  | ExternalBackends => "onBackendsInitialized"
  end.

(** The call of the loader of stage [st]: what it passes to its callback
    before it returns, if it does. *)
Definition call_loader (mods : Modules) (cfg : Config) (st : Stage) : Answer Loaded :=
  match st with
  | BuiltinPlugins =>
      match loadBuiltinPlugins mods with
      | AtOnce ps => AtOnce (LPlugins ps) | Later => Later end
  | ExternalPlugins =>
      match loadPlugins mods (cfg_plugins cfg) false with
      | AtOnce ps => AtOnce (LPlugins ps) | Later => Later end
  | BuiltinBackends =>
      match loadBuiltinBackends mods with
      | AtOnce bs => AtOnce (LBackends bs) | Later => Later end
  | ExternalBackends =>
      match loadBackends mods (cfg_backends cfg) false with
      | AtOnce bs => AtOnce (LBackends bs) | Later => Later end
  end.

(** The assignment at the head of the callback of stage [st]; a plugin
    loader passes plugins, a backend loader backends. *)
Definition store (st : Stage) (results : Loaded) (s : State) : State :=
  match st, results with
  | BuiltinPlugins, LPlugins ps => set_plugins ps s
  | ExternalPlugins, LPlugins ps => set_plugins (extend (plugins s) ps) s
  | BuiltinBackends, LBackends bs => set_backends bs s
  | ExternalBackends, LBackends bs => set_backends (extend (backends s) bs) s
  | _, _ => s
  end.

Definition answers_stage (st : Stage) (results : Loaded) : bool :=
  match st, results with
  | (BuiltinPlugins | ExternalPlugins), LPlugins _ => true
  | (BuiltinBackends | ExternalBackends), LBackends _ => true
  | _, _ => false
  end.

(** The callback that a stage hands to its loader, up to its call of
    [callback()]. *)
Definition stage_loaded (st : Stage) (results : Loaded) : M unit :=
  modify (store st results);;
  emit (EvMerged st);;
  _ ← callHooks (stage_hook st) [];
  ret tt.

(** The loader keeps the callback, to answer later. *)
Definition await (p : Pending) : M unit :=
  modify (λ s, set_loads (loads s ++ [Some p]) s).

(** [async.series] from the tasks [sts] on: a task calls its loader; the
    [callback()] at the end of the loader's callback starts the next task,
    and after the last one the final callback. *)
Fixpoint series (mods : Modules) (cfg : Config) (sts : list Stage) : M unit :=
  match sts with
  | [] =>
      emit EvLogReady;;
      _ ← callHooks "onReady" [];
      ret tt
  | st :: rest =>
      emit (EvLoad st);;
      match call_loader mods cfg st with
      | AtOnce results => stage_loaded st results;; series mods cfg rest
      | Later => await (mkPending mods cfg st rest)
      end
  end.

Definition stages : list Stage :=
  [BuiltinPlugins; ExternalPlugins; BuiltinBackends; ExternalBackends].

(** [init()] *)
Definition init (mods : Modules) : M unit :=
  cfg ← gets config;
  series mods cfg stages.

(** A loader answers later: it calls the callback [id] that it holds, with
    its results.  Nothing happens when there is no such callback, or when
    it has been called. *)
Definition answer (id : nat) (results : Loaded) : M unit :=
  ls ← gets loads;
  match ls !! id with
  | Some (Some p) =>
      if answers_stage (p_stage p) results then
        modify (set_loads (<[id := None]> ls));;
        stage_loaded (p_stage p) results;;
        series (p_mods p) (p_config p) (p_rest p)
      else ret tt
  | _ => ret tt
  end.

(** ** Search / playlist aggregator *)

(** [if (resultCnt >= Object.keys(backends).length) callback(allResults)] *)
Definition join_check (j : nat) : M unit :=
  js ← gets joins;
  bs ← gets backends;
  match js !! j with
  | Some jn =>
      if decide (length bs ≤ resultCnt jn)
      then emit (EvJoinCallback (j_callback jn) (allResults jn))
      else ret tt
  | None => ret tt
  end.

Definition update_join (j : nat) (f : Join → Join) : M unit :=
  modify (λ s, set_joins (alter f j (joins s)) s).

Definition count_result (jn : Join) : Join :=
  mkJoin (S (resultCnt jn)) (allResults jn) (j_callback jn).

Definition set_result (name : string) (c : Contribution) (jn : Join) : Join :=
  mkJoin (resultCnt jn) (assign_key name c (allResults jn)) (j_callback jn).

Definition new_join (callback : nat) : M nat :=
  js ← gets joins;
  modify (set_joins (js ++ [mkJoin 0 [] callback]));;
  ret (length js).

(** The callback given to [backend.getPlaylists]. *)
Definition playlistsReport (j : nat) (b : Backend) (err results : Val) : M unit :=
  update_join j count_result;;
  update_join j (set_result (b_name b) (CPlaylists results));;
  join_check j.

Definition getPlaylists_backend (j : nat) (b : Backend) : M unit :=
  match b_getPlaylists b with
  | None =>
      update_join j count_result;;
      join_check j
  | Some behaviour =>
      emit (EvGetPlaylists (b_name b));;
      match behaviour with
      | PlaylistsSync err results => playlistsReport j b err results
      | PlaylistsLater => ret tt
      end
  end.

(** [getPlaylists(callback)]; the result names the closure variables of
    this call, for the reports that come later. *)
Definition getPlaylists (callback : nat) : M nat :=
  j ← new_join callback;
  bs ← gets backends;
  for_each bs (λ kb, getPlaylists_backend j kb.2);;
  ret j.

(** The entry of [allResults] for a backend, as a list of songs. *)
Definition result_songs (jn : Join) (name : string) : list (string * Val) :=
  match List.find (λ kc, String.eqb kc.1 name) (allResults jn) with
  | Some (_, CSearch sgs) => sgs
  | _ => []
  end.

(** The success callback given to [backend.search]. *)
Definition searchSuccess (j : nat) (b : Backend) (results : SearchResults) : M unit :=
  update_join j count_result;;
  update_join j (set_result (b_name b) (CSearch []));;
  for_each (r_songs results) (λ ks,
    err ← callHooks "preAddSearchResult" [VResult ks.2];
    if truthy err then ret tt
    else update_join j (λ jn,
           set_result (b_name b)
             (CSearch (assign_key ks.2 (VResult ks.2) (result_songs jn (b_name b)))) jn));;
  join_check j.

(** The error callback given to [backend.search]. *)
Definition searchError (j : nat) (b : Backend) (err : Val) : M unit :=
  update_join j count_result;;
  join_check j.

Definition searchBackends_backend (j : nat) (query : Val) (b : Backend) : M unit :=
  emit (EvSearch (b_name b) query);;
  match b_search b with
  | SearchSync results => searchSuccess j b results
  | SearchSyncError err => searchError j b err
  | SearchLater => ret tt
  end.

Definition searchBackends (query : Val) (callback : nat) : M nat :=
  j ← new_join callback;
  bs ← gets backends;
  for_each bs (λ kb, searchBackends_backend j query kb.2);;
  ret j.

(** A report of a backend that comes after the call has returned. *)
Inductive Report :=
| RepPlaylists (b : Backend) (err results : Val)
| RepSearchSuccess (b : Backend) (results : SearchResults)
| RepSearchError (b : Backend) (err : Val).

Definition report (j : nat) (r : Report) : M unit :=
  match r with
  | RepPlaylists b err results => playlistsReport j b err results
  | RepSearchSuccess b results => searchSuccess j b results
  | RepSearchError b err => searchError j b err
  end.

(** How often callback [id] was given the joined results. *)
Definition is_join_call (id : nat) (e : Event) : bool :=
  match e with
  | EvJoinCallback i _ => Nat.eqb i id
  | _ => false
  end.

Definition join_calls (id : nat) (t : list Event) : nat :=
  length (List.filter (is_join_call id) t).

(** Whether a backend reports before [search], or [getPlaylists] (when it
    has one), returns. *)
Definition searches_at_once (kb : string * Backend) : bool :=
  match b_search kb.2 with
  | SearchLater => false
  | _ => true
  end.

Definition lists_at_once (kb : string * Backend) : bool :=
  match b_getPlaylists kb.2 with
  | Some PlaylistsLater => false
  | _ => true
  end.

(** Every plugin has a [hooks] bundle, and what the bundle gives for [hook]
    is a function or is falsy: reading and calling [plugin.hooks[hook]]
    raises no TypeError. *)
Definition hooks_sound (pls : list (string * Plugin)) (hook : string) : Prop :=
  ∀ name p, (name, p) ∈ pls →
    ∃ bundle, hooks p = Some bundle
              ∧ ∀ v, bundle hook = HOther v → truthy v = false.

(** Moreover the hook functions of [hook] return, whatever they are
    given. *)
Definition hooks_return (pls : list (string * Plugin)) (hook : string) : Prop :=
  hooks_sound pls hook
  ∧ ∀ name p fn, (name, p) ∈ pls → hook_fn p hook = Some fn →
      ∀ argv w, ∃ v w', fn argv w = (Normal v, w').

(** ** Dispatch, by the words of the specification

    "iterates plugins in registration order; for each plugin exposing
    hookName, invokes the hook synchronously with args, and stops iterating
    at the first invocation whose return value is truthy ...; returns that
    value, or a null/empty signal if no hook fired or none returned
    truthy"; "a throwing hook ... propagates up".  [dispatch] gives the
    outcomes of the calls made to the hook functions [fns], and the world
    they leave. *)

Definition stops (r : Completion Val) : bool :=
  match r with Normal v => truthy v | Throw _ => true end.

Fixpoint dispatch (fns : list HookFn) (argv : list Val) (w : W)
    : list (Completion Val) * W :=
  match fns with
  | [] => ([], w)
  | fn :: rest =>
      let '(r, w1) := fn argv w in
      if stops r then ([r], w1)
      else let '(outs, w2) := dispatch rest argv w1 in (r :: outs, w2)
  end.

(** The hook functions of the plugins [pls] that expose [hook]. *)
Definition hook_fns (pls : list (string * Plugin)) (hook : string) : list HookFn :=
  omap (λ np, hook_fn np.2 hook) pls.

(** What the dispatch returns or throws: the outcome of the last call, and
    [null] without a call. *)
Definition hook_result (outs : list (Completion Val)) : Completion Val :=
  default (Normal VNull) (last outs).

(** The player after [hook] was dispatched with [argv]: the calls are in
    the trace, and the plugins' world is as the hook functions left it. *)
Definition fired (hook : string) (argv : list Val) (s : State) : Completion Val * State :=
  let d := dispatch (hook_fns (plugins s) hook) argv (world s) in
  (hook_result d.1,
   set_trace (trace s ++ hook_events hook argv (exposing (plugins s) hook) d.1)
     (set_world d.2 s)).

(** Of [k] reports counted one after the other, those at which the test
    [resultCnt >= n] holds. *)
Definition calls_due (n k : nat) : nat :=
  length (List.filter (Nat.leb n) (seq 1 k)).

(** The state of the call with closure variables [j] and callback [cb],
    started at trace [t0]: [k] reports counted, [c] calls of the
    callback. *)
Definition JoinState (bs : list (string * Backend)) (pls : list (string * Plugin))
    (t0 : list Event) (j cb k c : nat) (s : State) : Prop :=
  backends s = bs ∧ plugins s = pls
  ∧ (∃ jn, joins s !! j = Some jn ∧ resultCnt jn = k ∧ j_callback jn = cb)
  ∧ ∃ evs, trace s = t0 ++ evs ∧ join_calls cb evs = c.

(** [m] returns from every state in [P], in a state in [Q]. *)
Definition Returns {A} (P : State → Prop) (m : M A) (Q : State → Prop) : Prop :=
  ∀ s, P s → ∃ a s', m s = (Normal a, s') ∧ Q s'.

(** ** The operations of the player, and what reaches it later *)

Inductive Op :=
| OpInit (mods : Modules)
| OpCallHooks (hook : string) (argv : list Val)
| OpStopPlayback (pause : bool)
| OpStartPlayback (position : number)
| OpChangeSong (uuid_ : Val)
| OpSongEnd
| OpPrepareSong (song : Ref) (callback : Callback)
| OpPrepareSongs
| OpPrepareError (song : nat) (err : Val)
| OpPrepareErrCallback (song : nat) (err : Val) (callback : Callback)
| OpGetPlaylists (callback : nat)
| OpSearchBackends (query : Val) (callback : nat)
| OpSetVolume (newVol : number) (userID : Val)
| OpDeliver (h : Handler) (ev : PrepEvent)
| OpTimer (t : nat)
| OpReport (j : nat) (r : Report)
| OpAnswer (id : nat) (results : Loaded).

Definition run_op (o : Op) : M unit :=
  match o with
  | OpInit mods => init mods
  | OpCallHooks hook argv => _ ← callHooks hook argv; ret tt
  | OpStopPlayback pause => stopPlayback pause
  | OpStartPlayback position => startPlayback position
  | OpChangeSong u => changeSong u
  | OpSongEnd => songEnd
  | OpPrepareSong song callback => prepareSong song callback
  | OpPrepareSongs => prepareSongs
  | OpPrepareError l err => prepareError l err
  | OpPrepareErrCallback l err callback => prepareErrCallback l err callback
  | OpGetPlaylists callback => _ ← getPlaylists callback; ret tt
  | OpSearchBackends query callback => _ ← searchBackends query callback; ret tt
  | OpSetVolume v u => setVolume v u
  | OpDeliver h ev => deliver h ev
  | OpTimer t => prepareTimeout_fires t
  | OpReport j r => report j r
  | OpAnswer id results => answer id results
  end.

(** The state after a sequence of operations, whether they return or
    throw. *)
Definition run_ops (os : list Op) (s : State) : State :=
  foldl (λ st o, (run_op o st).2) s os.

(** ** The initialisation, stage by stage

    The loaders of [init] may answer at once or later.  What stage [st]
    gets is the result that its loader passes before it returns, or else
    that of its later answer [late st], when it comes. *)
Definition answer_of (mods : Modules) (cfg : Config) (late : Stage → option Loaded)
    (st : Stage) : option Loaded :=
  match call_loader mods cfg st with
  | AtOnce results => Some results
  | Later => late st
  end.

(** The later answers to an [init()] over the stages [sts]: every loader
    that did not answer at once calls, with [late st], the callback that
    it was handed; [id] numbers the next callback handed out.  After a
    loader that never answers nothing more is loaded. *)
Fixpoint late_answers (mods : Modules) (cfg : Config) (late : Stage → option Loaded)
    (sts : list Stage) (id : nat) : list Op :=
  match sts with
  | [] => []
  | st :: rest =>
      match call_loader mods cfg st with
      | AtOnce _ => late_answers mods cfg late rest id
      | Later =>
          match late st with
          | Some results => OpAnswer id results :: late_answers mods cfg late rest (S id)
          | None => []
          end
      end
  end.

(** A loader of plugins answers with plugins, one of backends with
    backends. *)
Definition well_kinded (late : Stage → option Loaded) : Prop :=
  ∀ st results, late st = Some results → answers_stage st results = true.

(** By the words of the specification, "the four initialization stages
    strictly in order", "each stage's hook fires after its merge and
    before the next stage starts", the ready hook "only after all four
    initialization stages have merged their results": the stages [sts] one
    after the other, stage [st] with the results [res st] — its loader is
    called, the results are merged, its hook is dispatched —, then the
    readiness.  It ends at a stage without results, and where a hook
    throws. *)
Fixpoint init_in_order (res : Stage → option Loaded) (sts : list Stage) : M unit :=
  match sts with
  | [] =>
      emit EvLogReady;;
      _ ← callHooks "onReady" [];
      ret tt
  | st :: rest =>
      emit (EvLoad st);;
      match res st with
      | Some results =>
          modify (store st results);;
          emit (EvMerged st);;
          _ ← callHooks (stage_hook st) [];
          init_in_order res rest
      | None => ret tt
      end
  end.

(** The trace of a stage that dispatches its hook to the plugins [pls],
    the calls having the outcomes [outs], and of the final callback of the
    series. *)
Definition stage_events (st : Stage) (pls : list (string * Plugin))
    (outs : list (Completion Val)) : list Event :=
  [EvLoad st; EvMerged st]
  ++ hook_events (stage_hook st) [] (exposing pls (stage_hook st)) outs.

Definition ready_events (pls : list (string * Plugin))
    (outs : list (Completion Val)) : list Event :=
  [EvLogReady] ++ hook_events "onReady" [] (exposing pls "onReady") outs.

(** ** Properties kept by a computation

    [Keeps I m]: when [I] holds before [m], it holds after, whether [m]
    returns or throws. *)

Definition Keeps {A} (I : State → Prop) (m : M A) : Prop :=
  ∀ s, I s → I (m s).2.

(** The trace of [s] is [t0] followed by events that satisfy [P]. *)
Definition Emits (P : Event → Prop) (t0 : list Event) (s : State) : Prop :=
  ∃ evs, trace s = t0 ++ evs ∧ Forall P evs.

(** [s1] has the queue, the songs, the [repeat] flag and the now-playing
    song of [s]. *)
Definition same_player (s s1 : State) : Prop :=
  queue s1 = queue s ∧ heap s1 = heap s ∧ repeat s1 = repeat s
  ∧ nowPlaying s1 = nowPlaying s.

End Player.

(** ** Further notions for the properties below *)

Section More.

Context {W : Type}.

(** The [options] object with [volume: x]. *)
Definition with_volume (x : number) (o : @Options W) : @Options W :=
  mkOptions (o_config o) (o_queue o) (o_nowPlaying o) (o_play o) (o_repeat o)
    (o_plugins o) (o_backends o) (Some x) (o_songEndTimeout o).

(** [song.playback] of the song at [l]. *)
Definition playback_of (s : @State W) (l : nat) : option Playback :=
  playback <$> heap s !! l.

(** The position that [stopPlayback(pause)] leaves in [song.playback]. *)
Definition stopped_position (pause : bool) (now : number) (pb : Playback) : number :=
  if pause then num_add (startPos pb) (num_sub now (startTime pb)) else num_zero.

(** [position || player.nowPlaying.playback.startPos], the position that
    the callback of [startPlayback(position)] records. *)
Definition start_position (position : number) (pb : Playback) : number :=
  num_or position (startPos pb).

(** The player when [new Date().getTime()] has become [now]. *)
Definition at_time (now : number) (s : @State W) : @State W :=
  mkState (config s) (queue s) (nowPlaying s) (play s) (repeat s) (plugins s)
    (backends s) (volume s) (songEndTimeout s) (heap s) (songsPreparing s)
    (timers s) (nextTimer s) (joins s) (loads s) now (world s) (trace s).

(** The reports of a song's [prepare] that carry no error. *)
Definition no_error (ev : PrepEvent) : Prop := truthy (pe_err ev) = false.

(** The [preAddSearchResult] hooks of the player reject the songs with
    [veto songId], and accept the others, in whatever state they are
    asked. *)
Definition hooks_veto (s : @State W) (veto : string → bool) : Prop :=
  ∀ id s1, plugins s1 = plugins s →
    ∃ v s2, callHooks "preAddSearchResult" [VResult id] s1 = (Normal v, s2)
            ∧ truthy v = veto id.

(** The songs of a search result that are not rejected, each filed under
    its [songId], on top of the entries [acc]. *)
Definition accepted_songs (veto : string → bool) (acc : list (string * Val))
    (sgs : list (string * string)) : list (string * Val) :=
  foldl (λ acc ks, if veto ks.2 then acc else assign_key ks.2 (VResult ks.2) acc)
    acc sgs.

(** Every pending prepare-timeout timer was handed out by [setTimeout] and
    is the one that its song records in [prepareTimeout]. *)
Definition watchdogs_recorded (s : @State W) : Prop :=
  ∀ t l d, timers s !! t = Some (TPrepareTimeout l d) →
    t < nextTimer s
    ∧ ∃ sg, heap s !! l = Some sg ∧ prepareTimeout sg = Some t.

End More.

(** * Concrete players *)

Module Examples.

(** A hook function that returns [v] and leaves the plugins' world (here
    without content) as it is. *)
Definition returning (v : Val) : @HookFn unit := λ _ w, (Normal v, w).

(** The plugin [{hooks: {[hook]: fn}}]. *)
Definition plugin_with (hook : string) (fn : @HookFn unit) : @Plugin unit :=
  mkPlugin (Some (plain_bundle {[ hook := HFun fn ]})) (plain_props (W:=unit) ∅).

Definition cfg : Config := mkConfig 10000 ["express"; "rest"] ["gmusic"].

Definition track (u : string) (prepared : bool) (sync : list PrepEvent) : Song :=
  mkSong u ("id-" +:+ u) "gmusic" (mkPlayback num_zero num_zero) prepared
    (negb prepared) None
    (negb prepared) sync.

Definition no_options : @Options unit :=
  mkOptions None None RNull false false None None None None.

(** A player as [new Player()] makes it. *)
Definition fresh : @State unit := constructor no_options cfg ∅ (num_of_Z 5000) tt.

Definition num_two : number := S754_finite false 4503599627370496 (-51).
Definition num_five : number := S754_finite false 5629499534213120 (-50).
Definition num_minus_one : number := S754_finite true 4503599627370496 (-52).
(* the binary64 number written 0.4 *)
Definition num_0_4 : number := S754_finite false 7205759403792794 (-54).

(** A player with one plugin that has an [onReady] hook in its [hooks]
    bundle. *)
Definition one_hook : @State unit :=
  set_plugins [("rest", plugin_with "onReady" (returning VUndefined))] fresh.

(** A player with the hook [hook] in plugin "rest", then in plugin "web". *)
Definition two_plugins (hook : string) (rest web : Val) : @State unit :=
  set_plugins [("rest", plugin_with hook (returning rest));
               ("web", plugin_with hook (returning web))] fresh.

(** A player whose queue holds the songs [sgs], at heap locations 0, 1,
    ..., with [np] as the now-playing song. *)
Definition with_songs (sgs : list Song) (np : Ref) (playing repeating : bool)
    : @State unit :=
  constructor
    (mkOptions None (Some (mkQueue (seq 0 (length sgs)) false)) np playing
       repeating (Some [("rest", plugin_with "onSongPrepareError" (returning VUndefined))])
       None None None)
    cfg (list_to_map (zip (seq 0 (length sgs)) sgs)) (num_of_Z 5000) tt.

(** One queued song that is not prepared and reports nothing before its
    [prepare] returns; a plugin has an [onSongPrepareError] hook. *)
Definition unprepared : @State unit :=
  with_songs [track "a" false []] RNull false false.

(** The report of a fetch error. *)
Definition fetch_error : PrepEvent := mkPrepEvent (VStr "boom") VUndefined VUndefined.

(** One queued song, prepared, now playing, with [play] set; its [prepare]
    reports completion before it returns. *)
Definition playing_prepared : @State unit :=
  with_songs [track "a" true [mkPrepEvent VNull VNull (VBool true)]] (RSong 0) true false.

(** Two queued songs, the second one now playing, with [repeat] as
    given. *)
Definition at_last_song (repeating : bool) : @State unit :=
  with_songs [track "a" true [mkPrepEvent VNull VNull (VBool true)];
              track "b" true [mkPrepEvent VNull VNull (VBool true)]]
    (RSong 1) true repeating.

(** Two backends: "gmusic" answers a search at once and has no
    [getPlaylists]; "files" answers later. *)
Definition two_backends : @State unit :=
  set_backends
    [("gmusic", mkBackend "gmusic" (SearchSync (mkResults [("s1", "s1")])) None);
     ("files", mkBackend "files" SearchLater (Some PlaylistsLater))]
    (two_plugins "preAddSearchResult" VUndefined (VStr "no")).

Definition files_found : Report :=
  RepSearchSuccess (mkBackend "files" SearchLater (Some PlaylistsLater))
    (mkResults [("s2", "s2")]).

Definition files_playlists : Report :=
  RepPlaylists (mkBackend "files" SearchLater (Some PlaylistsLater)) VNull (VObj 1).

(** A new player has no backends. *)
Definition no_backends : @State unit := fresh.

Definition track_a : Song := track "a" true [mkPrepEvent VNull VNull (VBool true)].
Definition track_b : Song := track "b" true [mkPrepEvent VNull VNull (VBool true)].

(** Options that ask for volume 5. *)
Definition loud_options : @Options unit :=
  mkOptions None None RNull false false None None (Some num_five) None.

(** Two queued songs, the first one now playing. *)
Definition at_first_song : @State unit :=
  with_songs [track_a; track_b] (RSong 0) true false.

(** One queued song, now playing, whose [prepare] reports a fetch error
    before it returns. *)
Definition failing : @State unit :=
  with_songs [track "a" false [fetch_error]] (RSong 0) false false.

(** The player [unprepared] with the song in the registry of its
    backend. *)
Definition preparing : @State unit :=
  set_songsPreparing {[ ("gmusic", "id-a") := true ]} unprepared.

(** The reports of a song's [prepare]: a chunk, the last chunk, and
    completion without a chunk. *)
Definition chunk : PrepEvent := mkPrepEvent VNull (VNum num_five) (VBool false).
Definition last_chunk : PrepEvent := mkPrepEvent VNull (VNum num_five) (VBool true).
Definition completion : PrepEvent := mkPrepEvent VNull VNull (VBool true).

(** One backend, without [getPlaylists]. *)
Definition only_gmusic : @State unit :=
  set_backends [("gmusic", mkBackend "gmusic" SearchLater None)] fresh.

(** A hook function that rejects the search result with songId [bad]. *)
Definition rejecting (bad : string) : @HookFn unit :=
  λ argv w,
    match argv with
    | [VResult id] =>
        if String.eqb id bad then (Normal (VStr "rejected"), w)
        else (Normal VUndefined, w)
    | _ => (Normal VUndefined, w)
    end.

(** A player with a [preAddSearchResult] hook that rejects the song "s2",
    in the middle of a search. *)
Definition choosy : @State unit :=
  set_joins [mkJoin 0 [] 7]
    (set_plugins [("filter", plugin_with "preAddSearchResult" (rejecting "s2"))]
       two_backends).

Definition three_found : SearchResults :=
  mkResults [("x", "s1"); ("y", "s2"); ("z", "s3")].

(** Two queued songs whose [prepare] reports later, the first one now
    playing. *)
Definition two_silent : @State unit :=
  with_songs [track "a" true []; track "b" true []] (RSong 0) true false.

(** A song that started at position 2^53 at time 0, now playing at time
    5001: the position 2^53 + 5001 is not a binary64 number. *)
Definition long_track : Song :=
  mkSong "a" "id-a" "gmusic" (mkPlayback num_zero (num_of_Z 9007199254740992)) true
    false None false [mkPrepEvent VNull VNull (VBool true)].

Definition long_playing : @State unit :=
  constructor
    (mkOptions None (Some (mkQueue [0] false)) (RSong 0) true false None None None None)
    cfg {[ 0 := long_track ]} (num_of_Z 5001) tt.

(** The player [unprepared] with a plugin "web" that has the hooks
    [onPrepareProgress] and [onSongPrepared]; [listening_registered] has the
    song in the registry of its backend as well. *)
Definition listener : @Plugin unit :=
  mkPlugin
    (Some (plain_bundle {[ "onPrepareProgress" := HFun (returning VUndefined);
                           "onSongPrepared" := HFun (returning VUndefined) ]}))
    (plain_props (W:=unit) ∅).

Definition listening : @State unit := set_plugins [("web", listener)] unprepared.

Definition listening_registered : @State unit :=
  set_songsPreparing {[ ("gmusic", "id-a") := true ]} listening.

(** A module loader whose builtin loaders answer at once, and whose
    loaders of the configured modules answer later, with [late_modules]. *)
Definition slow_mods : @Modules unit :=
  mkModules
    (AtOnce [("rest", plugin_with "onBuiltinPluginsInitialized" (returning (VStr "up")))])
    (λ _ _, Later)
    (AtOnce [("files", mkBackend "files" SearchLater (Some PlaylistsLater))])
    (λ _ _, Later).

Definition late_plugins : list (string * @Plugin unit) :=
  [("web", plugin_with "onReady" (returning VUndefined))].

Definition late_backends : list (string * Backend) :=
  [("gmusic", mkBackend "gmusic" (SearchSync (mkResults [("s1", "s1")])) None)].

Definition late_modules (st : Stage) : option (@Loaded unit) :=
  match st with
  | ExternalPlugins => Some (LPlugins late_plugins)
  | ExternalBackends => Some (LBackends late_backends)
  | _ => None
  end.

End Examples.

(** * Properties *)

(** ** Numbers *)

Lemma SFcompare_antisym a b : SFcompare b a = option_map CompOpp (SFcompare a b).
Proof.
  destruct a as [sa|sa| |sa ma ea], b as [sb|sb| |sb mb eb]; simpl;
    try destruct sa; try destruct sb; try reflexivity;
    rewrite (Z.compare_antisym ea eb); destruct (ea ?= eb)%Z; simpl;
    try reflexivity; repeat f_equal; symmetry;
    apply (Pos.compare_cont_antisym ma mb Eq).
Qed.

Lemma SFcompare_refl a : is_nan a = false → SFcompare a a = Some Eq.
Proof.
  destruct a as [sa|sa| |sa ma ea]; simpl; try destruct sa; try done;
    intros _; rewrite Z.compare_refl; repeat f_equal;
    try apply (Pos.compare_cont_refl ma Eq).
  change (CompOpp (Pos.compare_cont Eq ma ma) = CompOpp Eq). f_equal.
  apply (Pos.compare_cont_refl ma Eq).
Qed.

Lemma SFltb_leb a b : SFltb a b = true → SFleb a b = true.
Proof. unfold SFltb, SFleb. by destruct (SFcompare a b) as [[]|]. Qed.

Lemma SFltb_not_gt a b : SFltb a b = true → SFltb b a = false.
Proof.
  unfold SFltb. rewrite (SFcompare_antisym a b).
  by destruct (SFcompare a b) as [[]|].
Qed.

(** [Math.min(1, Math.max(0, v))] for a number [v] other than NaN lies in
    [0, 1]; it is 0 below 0, 1 above 1, and equal to [v] in between. *)
Lemma clamp_positive m e :
  Math_min num_one (Math_max num_zero (S754_finite false m e))
  = if SFltb (S754_finite false m e) num_one then S754_finite false m e else num_one.
Proof. reflexivity. Qed.

Lemma clamp_in_unit_interval v :
  is_nan v = false →
  in_unit_interval (Math_min num_one (Math_max num_zero v)) = true.
Proof.
  intros Hv. destruct v as [[]|[]| |[] m e]; try done.
  rewrite clamp_positive.
  destruct (SFltb (S754_finite false m e) num_one) eqn:Hlt; [|done].
  unfold in_unit_interval. by rewrite (SFltb_leb _ _ Hlt).
Qed.

Lemma clamp_below v :
  SFltb v num_zero = true → Math_min num_one (Math_max num_zero v) = num_zero.
Proof. by destruct v as [[]|[]| |[] m e]. Qed.

Lemma clamp_above v :
  SFltb num_one v = true → Math_min num_one (Math_max num_zero v) = num_one.
Proof.
  intros Hlt. pose proof (SFltb_not_gt _ _ Hlt) as Hgt.
  destruct v as [[]|[]| |[] m e]; try done.
  rewrite clamp_positive. by rewrite Hgt.
Qed.

Lemma clamp_inside v :
  in_unit_interval v = true →
  SFeqb (Math_min num_one (Math_max num_zero v)) v = true.
Proof.
  unfold in_unit_interval. intros [H0 H1]%andb_true_iff.
  destruct v as [[]|[]| |[] m e]; try done.
  rewrite clamp_positive.
  destruct (SFltb (S754_finite false m e) num_one) eqn:Hlt.
  - unfold SFeqb. by rewrite SFcompare_refl.
  - unfold SFeqb, SFleb, SFltb in *.
    rewrite (SFcompare_antisym (S754_finite false m e)).
    by destruct (SFcompare (S754_finite false m e) num_one) as [[]|].
Qed.

Section Proofs.

Context {W : Type}.
Implicit Types (s : @State W) (pls : list (string * @Plugin W)).
Implicit Types (hook : string) (argv : list Val) (I : @State W → Prop).

(** ** Running a computation *)

Lemma bind_ret {A B} (a : A) (k : A → M B) s : bind (ret a) k s = k a s.
Proof. reflexivity. Qed.

Lemma bind_throw {A B} e (k : A → M B) s : bind (throw e) k s = (Throw e, s).
Proof. reflexivity. Qed.

Lemma bind_gets {A B} (f : State → A) (k : A → M B) s : bind (gets f) k s = k (f s) s.
Proof. reflexivity. Qed.

Lemma bind_modify {B} f (k : unit → M B) s : bind (modify f) k s = k tt (f s).
Proof. reflexivity. Qed.

Lemma bind_emit {B} e (k : unit → M B) s :
  bind (emit e) k s = k tt (set_trace (trace s ++ [e]) s).
Proof. reflexivity. Qed.

Lemma bind_assoc {A B C} (m : M A) (k : A → M B) (k' : B → M C) s :
  bind (bind m k) k' s = bind m (λ a, bind (k a) k') s.
Proof. unfold bind. by destruct (m s) as [[a|e] s1]. Qed.

Lemma bind_normal {A B} (m : M A) (k : A → M B) s a s1 :
  m s = (Normal a, s1) → bind m k s = k a s1.
Proof. unfold bind. by intros ->. Qed.

Lemma bind_thrown {A B} (m : M A) (k : A → M B) s e s1 :
  m s = (Throw e, s1) → bind m k s = (Throw e, s1).
Proof. unfold bind. by intros ->. Qed.

Lemma bind_inv {A B} (m : M A) (k : A → M B) s r sf :
  bind m k s = (r, sf) →
  (∃ a s1, m s = (Normal a, s1) ∧ k a s1 = (r, sf))
  ∨ (∃ e, m s = (Throw e, sf) ∧ r = Throw e).
Proof.
  unfold bind. destruct (m s) as [[a|e] s1]; [by eauto|].
  intros [= <- <-]. eauto.
Qed.

Lemma bind_clearTimeout {B} handle (k : unit → M B) s :
  bind (clearTimeout handle) k s = k tt (clear_timer handle s).
Proof. reflexivity. Qed.

(** One step at the head of a computation applied to a state. *)
Ltac run_step :=
  first
    [ rewrite bind_ret | rewrite bind_throw | rewrite bind_gets
    | rewrite bind_emit | rewrite bind_clearTimeout | rewrite bind_modify
    | rewrite bind_assoc ].

Ltac run := repeat (run_step; cbv beta).

Lemma findSong_run u s :
  findSong u s
  = (Normal (match List.find (uuid_is (heap s) u) (songs (queue s)) with
             | Some l => RSong l
             | None => RNull
             end), s).
Proof. reflexivity. Qed.

(** ** Properties kept by a computation *)

Lemma keeps_ret {A} I (a : A) : Keeps I (ret a).
Proof. by intros s. Qed.

Lemma keeps_throw {A} I e : Keeps I (throw (A:=A) e).
Proof. by intros s. Qed.

Lemma keeps_gets {A} I (f : State → A) : Keeps I (gets f).
Proof. by intros s. Qed.

Lemma keeps_modify I f : (∀ s, I s → I (f s)) → Keeps I (modify f).
Proof. intros H s. apply H. Qed.

Lemma keeps_bind {A B} I (m : M A) (k : A → M B) :
  Keeps I m → (∀ a, Keeps I (k a)) → Keeps I (bind m k).
Proof.
  intros Hm Hk s Hs. unfold bind. specialize (Hm s Hs).
  destruct (m s) as [[a|e] s1]; simpl in *; [by apply Hk|done].
Qed.

Lemma keeps_when I b m : Keeps I m → Keeps I (when b m).
Proof. intros H. destruct b; [done|apply keeps_ret]. Qed.

Lemma keeps_for_each {A} I (l : list A) f :
  (∀ x, Keeps I (f x)) → Keeps I (for_each l f).
Proof.
  intros H. induction l as [|x l IH]; simpl; [apply keeps_ret|].
  apply keeps_bind; auto.
Qed.

(** Decomposes a goal [Keeps I m] along the structure of [m]; what remains
    are the state updates and the calls of other methods. *)
Ltac keeps_step :=
  lazymatch goal with
  | |- Keeps _ (ret _) => apply keeps_ret
  | |- Keeps _ (throw _) => apply keeps_throw
  | |- Keeps _ (gets _) => apply keeps_gets
  | |- Keeps _ (bind _ _) => apply keeps_bind; [|intros ?]
  | |- Keeps _ (when _ _) => apply keeps_when
  | |- Keeps _ (for_each _ _) => apply keeps_for_each; intros ?
  | |- Keeps _ (modify _) => apply keeps_modify; intros ? ?
  | |- Keeps _ (emit _) => apply keeps_modify; intros ? ?
  | |- Keeps _ (let '(_, _) := ?x in _) => destruct x
  | |- Keeps _ (match ?x with _ => _ end) => destruct x
  | |- Keeps _ (if ?x then _ else _) => destruct x
  end.

Ltac keeps := repeat keeps_step.

(** ** Hook dispatcher *)

Lemma exposing_cons_Some name (p : @Plugin W) pls hook fn :
  hook_fn p hook = Some fn →
  exposing ((name, p) :: pls) hook = (name, p) :: exposing pls hook.
Proof.
  intros Hl. unfold exposing. rewrite filter_cons_True; [done|]. simpl. by rewrite Hl.
Qed.

Lemma exposing_cons_None name (p : @Plugin W) pls hook :
  hook_fn p hook = None →
  exposing ((name, p) :: pls) hook = exposing pls hook.
Proof.
  intros Hl. unfold exposing. rewrite filter_cons_False; [done|].
  simpl. rewrite Hl. by intros [? ?].
Qed.

Lemma hook_fns_cons_Some name (p : @Plugin W) pls hook fn :
  hook_fn p hook = Some fn →
  hook_fns ((name, p) :: pls) hook = fn :: hook_fns pls hook.
Proof. intros Hl. unfold hook_fns. simpl. by rewrite Hl. Qed.

Lemma hook_fns_cons_None name (p : @Plugin W) pls hook :
  hook_fn p hook = None →
  hook_fns ((name, p) :: pls) hook = hook_fns pls hook.
Proof. intros Hl. unfold hook_fns. simpl. by rewrite Hl. Qed.

(** The hook functions are those of the exposing plugins, in their
    order. *)
Lemma hook_fns_exposing pls hook :
  Forall2 (λ np fn, hook_fn np.2 hook = Some fn) (exposing pls hook) (hook_fns pls hook).
Proof.
  induction pls as [|[name p] pls IH]; [constructor|].
  destruct (hook_fn p hook) as [fn|] eqn:Hfn.
  - rewrite (exposing_cons_Some _ _ _ _ _ Hfn), (hook_fns_cons_Some _ _ _ _ _ Hfn).
    by constructor.
  - by rewrite (exposing_cons_None _ _ _ _ Hfn), (hook_fns_cons_None _ _ _ _ Hfn).
Qed.

Lemma hooks_sound_cons name (p : @Plugin W) pls hook :
  hooks_sound ((name, p) :: pls) hook →
  (∃ bundle, hooks p = Some bundle ∧ ∀ v, bundle hook = HOther v → truthy v = false)
  ∧ hooks_sound pls hook.
Proof.
  intros H. split; [apply (H name), list_elem_of_here|].
  intros n q Hin. apply (H n). by right.
Qed.

Lemma hook_events_nil_r hook argv pls : hook_events hook argv pls [] = [].
Proof. unfold hook_events. by destruct pls. Qed.

Lemma hook_events_all_hook hook argv pls outs :
  Forall (λ e, ∃ p a r, e = EvHook p hook a r) (hook_events hook argv pls outs).
Proof.
  unfold hook_events. revert outs.
  induction pls as [|np pls IH]; intros [|out outs]; simpl; try by constructor.
  constructor; [by eauto|apply IH].
Qed.

(** Whatever the plugins are, the calls that [callHooks] records are calls
    of the hook functions of the first exposing plugins. *)
Lemma callHooks_find_spec pls hook argv err s r s' :
  callHooks_find pls hook argv err s = (r, s') →
  ∃ outs,
    trace s' = trace s ++ hook_events hook argv (exposing pls hook) outs
    ∧ length outs ≤ length (exposing pls hook).
Proof.
  revert err s r s'. induction pls as [|[name p] rest IH]; intros err s r s' Hrun.
  - inversion Hrun; subst. exists []. simpl. by rewrite app_nil_r.
  - simpl in Hrun. unfold hook_fn in *.
    destruct (hooks p) as [bundle|] eqn:Hb.
    2:{ inversion Hrun; subst. exists [].
        rewrite hook_events_nil_r, app_nil_r. split; [done|]. simpl. lia. }
    destruct (bundle hook) as [fn|v] eqn:Hfn; simpl in Hrun.
    + rewrite (exposing_cons_Some _ _ _ _ fn) by (unfold hook_fn; by rewrite Hb, Hfn).
      unfold bind, apply_hook in Hrun.
      destruct (fn argv (world s)) as [out w] eqn:Hout.
      destruct out as [v|e].
      * destruct (truthy v) eqn:Hv.
        -- inversion Hrun; subst. exists [Normal v]. simpl.
           rewrite hook_events_nil_r. split; [done|lia].
        -- apply IH in Hrun as (outs & Htr & Hlen).
           exists (Normal v :: outs). simpl in *.
           split; [|lia]. rewrite Htr. by rewrite <- app_assoc.
      * inversion Hrun; subst. exists [Throw e]. simpl.
        rewrite hook_events_nil_r. split; [done|lia].
    + rewrite exposing_cons_None by (unfold hook_fn; by rewrite Hb, Hfn).
      destruct (truthy v); [|by apply (IH _ _ _ _ Hrun)].
      inversion Hrun; subst. exists [].
      rewrite hook_events_nil_r, app_nil_r. split; [done|simpl; lia].
Qed.

(** *** The loop against the dispatch of the specification *)

Lemma default_last_cons {A} (d x : A) (l : list A) :
  default d (last (x :: l)) = default x (last l).
Proof. rewrite last_cons. by destruct (last l). Qed.

Lemma callHooks_find_fired pls hook argv err s :
  hooks_sound pls hook →
  callHooks_find pls hook argv err s
  = (default (Normal err) (last (dispatch (hook_fns pls hook) argv (world s)).1),
     set_trace
       (trace s ++ hook_events hook argv (exposing pls hook)
                     (dispatch (hook_fns pls hook) argv (world s)).1)
       (set_world (dispatch (hook_fns pls hook) argv (world s)).2 s)).
Proof.
  revert err s. induction pls as [|[name p] rest IH]; intros err s Hs.
  - simpl. rewrite app_nil_r. by destruct s.
  - apply hooks_sound_cons in Hs as [(bundle & Hb & Hother) Hrest].
    destruct (bundle hook) as [fn|v] eqn:Hfn.
    + assert (Hp : hook_fn p hook = Some fn) by (unfold hook_fn; by rewrite Hb, Hfn).
      rewrite (exposing_cons_Some _ _ _ _ _ Hp), (hook_fns_cons_Some _ _ _ _ _ Hp).
      cbn [callHooks_find dispatch]. rewrite Hb, Hfn. cbn [hookval_truthy].
      unfold bind, apply_hook.
      destruct (fn argv (world s)) as [out w] eqn:Hout.
      destruct out as [v|e]; cbn [stops].
      * destruct (truthy v) eqn:Hv; simpl; [by rewrite hook_events_nil_r|].
        rewrite (IH v _ Hrest). simpl.
        destruct (dispatch (hook_fns rest hook) argv w) as [outs w2]. simpl.
        by rewrite default_last_cons, <- app_assoc.
      * simpl. by rewrite hook_events_nil_r.
    + assert (Hp : hook_fn p hook = None) by (unfold hook_fn; by rewrite Hb, Hfn).
      rewrite (exposing_cons_None _ _ _ _ Hp), (hook_fns_cons_None _ _ _ _ Hp).
      cbn [callHooks_find]. rewrite Hb, Hfn. cbn [hookval_truthy].
      rewrite (Hother v eq_refl). by apply IH.
Qed.

Lemma callHooks_fired hook argv s :
  hooks_sound (plugins s) hook → callHooks hook argv s = fired hook argv s.
Proof.
  intros Hs. unfold callHooks, fired, hook_result. rewrite bind_gets.
  by apply callHooks_find_fired.
Qed.

(** The calls of a dispatch: all but the last returned a falsy value; when
    the last did so too, every function was called. *)
Lemma dispatch_outs (fns : list (@HookFn W)) argv w :
  length (dispatch fns argv w).1 ≤ length fns
  ∧ (∀ i out, (dispatch fns argv w).1 !! i = Some out →
       S i < length (dispatch fns argv w).1 → stops out = false)
  ∧ (∀ out, last (dispatch fns argv w).1 = Some out → stops out = false →
       length (dispatch fns argv w).1 = length fns)
  ∧ ((dispatch fns argv w).1 = [] → fns = []).
Proof.
  revert w. induction fns as [|fn fns IH]; intros w; simpl.
  { split; [lia|]. split; [|done].
    intros i out Hi. by rewrite lookup_nil in Hi. }
  destruct (fn argv w) as [r w1] eqn:Hr.
  destruct (stops r) eqn:Hstop; simpl.
  { split; [lia|]. split; [|split; [|done]].
    - intros [|i] out Hi Hlt; simpl in *; lia.
    - intros out [= <-]. congruence. }
  destruct (IH w1) as (Hlen & Hfalsy & Hall & Hnil).
  destruct (dispatch fns argv w1) as [outs w2] eqn:Hd. simpl in *.
  split; [lia|]. split; [|split; [|done]].
  - intros [|i] out Hi Hlt; simpl in Hi.
    + by injection Hi as <-.
    + apply (Hfalsy i out Hi). lia.
  - intros out Hlast Hout. destruct outs as [|o outs].
    + by rewrite (Hnil eq_refl).
    + f_equal. by apply (Hall out).
Qed.

(** C1, amended.  For plugins that each have a [hooks] bundle whose value
    for [hook] is a function or is falsy, [callHooks(hook, argv)] is the
    dispatch that the specification describes, to the plugins whose bundle
    gives a function for [hook] — as a property of its own or as an
    inherited one —, in the order of the plugin map: each function is
    called with [argv], in the plugins' world as the call before left it;
    the calls end with the first that returns a truthy value or throws;
    that value is returned (the exception is thrown); when every call
    returned a falsy value, every such plugin was called and the value of
    the last call is returned, [null] when there was no call. *)
Theorem callHooks_dispatch hook argv s :
  hooks_sound (plugins s) hook →
  let E := exposing (plugins s) hook in
  let fns := hook_fns (plugins s) hook in
  let outs := (dispatch fns argv (world s)).1 in
  Forall2 (λ np fn, hook_fn np.2 hook = Some fn) E fns
  ∧ callHooks hook argv s
    = (hook_result outs,
       set_trace (trace s ++ hook_events hook argv E outs)
         (set_world (dispatch fns argv (world s)).2 s))
  ∧ length outs ≤ length E
  ∧ (∀ i out, outs !! i = Some out → S i < length outs →
       ∃ v, out = Normal v ∧ truthy v = false)
  ∧ match hook_result outs with
    | Normal v =>
        if truthy v then last outs = Some (Normal v)
        else length outs = length E
             ∧ (outs = [] ∧ E = [] ∧ v = VNull ∨ last outs = Some (Normal v))
    | Throw e => last outs = Some (Throw e)
    end.
Proof.
  intros Hs E fns outs.
  pose proof (hook_fns_exposing (plugins s) hook) as HE. fold E fns in HE.
  pose proof (Forall2_length _ _ _ HE) as Hlen.
  destruct (dispatch_outs fns argv (world s)) as (Hle & Hfalsy & Hall & Hnil).
  fold outs in Hle, Hfalsy, Hall, Hnil.
  split; [done|]. split; [by apply callHooks_fired|].
  split; [lia|]. split.
  { intros i out Hi Hlt. specialize (Hfalsy i out Hi Hlt).
    destruct out as [v|e]; [by eauto|done]. }
  unfold hook_result. destruct (last outs) as [r|] eqn:Hlast; simpl.
  - destruct r as [v|e]; [|done].
    destruct (truthy v) eqn:Hv; [done|].
    split; [|by right]. rewrite Hlen. by apply (Hall (Normal v)).
  - apply last_None in Hlast. split; [|left].
    + rewrite Hlast. rewrite (Hnil Hlast) in Hlen. simpl in *. lia.
    + split; [done|]. split; [|done].
      rewrite (Hnil Hlast) in Hlen. by destruct E.
Qed.

(** ** What the operations leave alone

    The lemmas of this section show that an operation keeps a property [I]
    of the state, from the stability of [I] under the updates that the
    operation makes and under the events that it adds to the trace (those
    that [Allowed] admits).  Each lemma needs only the hypotheses for the
    updates and events of its operation. *)

Section Frame.

Variable I : @State W → Prop.
Hypothesis I_nowPlaying : ∀ r s, I s → I (set_nowPlaying r s).
Hypothesis I_adopt :
  ∀ s, I s → ref_truthy (nowPlaying s) = false →
    I (set_nowPlaying (songs_at (queue s) 0) s).
Hypothesis I_play : ∀ b s, I s → I (set_play b s).
Hypothesis I_plugins : ∀ ps s, I s → I (set_plugins ps s).
Hypothesis I_backends : ∀ bs s, I s → I (set_backends bs s).
Hypothesis I_heap : ∀ h s, I s → I (set_heap h s).
Hypothesis I_songsPreparing : ∀ r s, I s → I (set_songsPreparing r s).
Hypothesis I_timers : ∀ t n s, I s → I (set_timers t n s).
Hypothesis I_joins : ∀ js s, I s → I (set_joins js s).
Hypothesis I_loads : ∀ ls s, I s → I (set_loads ls s).
Hypothesis I_world : ∀ w s, I s → I (set_world w s).

Variable Allowed : Event → Prop.
Hypothesis I_emit : ∀ e s, Allowed e → I s → I (set_trace (trace s ++ [e]) s).
Hypothesis A_hook : ∀ plugin hook argv r, Allowed (EvHook plugin hook argv r).
Hypothesis A_callback : ∀ id args, Allowed (EvCallback id args).
Hypothesis A_startPlayback : Allowed (EvEnter MStartPlayback).
Hypothesis A_stopPlayback : Allowed (EvEnter MStopPlayback).
Hypothesis A_changeSong : Allowed (EvEnter MChangeSong).
Hypothesis A_prepareSongs : Allowed (EvEnter MPrepareSongs).
Hypothesis A_prepare_start : ∀ l p, Allowed (EvSongPrepare l (HStartPlayback p)).
Hypothesis A_prepare_song : ∀ l l' cb, Allowed (EvSongPrepare l (HPrepareSong l' cb)).
Hypothesis A_playbackStarted : ∀ l p, Allowed (EvPlaybackStarted l p).
Hypothesis A_cancelPrepare : ∀ l r, Allowed (EvCancelPrepare l r).
Hypothesis A_load : ∀ st, Allowed (EvLoad st).
Hypothesis A_merged : ∀ st, Allowed (EvMerged st).
Hypothesis A_ready : Allowed EvLogReady.
Hypothesis A_search : ∀ b q, Allowed (EvSearch b q).
Hypothesis A_getPlaylists : ∀ b, Allowed (EvGetPlaylists b).
Hypothesis A_join : ∀ id r, Allowed (EvJoinCallback id r).

Ltac allowed :=
  first
    [ apply A_hook | apply A_callback | apply A_startPlayback
    | apply A_stopPlayback | apply A_changeSong | apply A_prepareSongs
    | apply A_prepare_start | apply A_prepare_song | apply A_playbackStarted
    | apply A_cancelPrepare | apply A_load | apply A_merged | apply A_ready
    | apply A_search | apply A_getPlaylists | apply A_join ].

Ltac stable :=
  repeat first
    [ assumption
    | apply I_nowPlaying | apply I_play | apply I_plugins | apply I_backends
    | apply I_heap | apply I_songsPreparing | apply I_timers | apply I_joins
    | apply I_loads
    | apply I_world | apply I_emit; [allowed|] ].

Create HintDb frame discriminated.

Ltac frame := keeps; try solve [stable | eauto with frame].

Lemma frame_apply_hook name hook fn argv : Keeps I (apply_hook name hook fn argv).
Proof.
  intros s Hs. unfold apply_hook. destruct (fn argv (world s)) as [r w0].
  apply (I_emit _ (set_world w0 s)); [allowed|stable].
Qed.
Hint Resolve frame_apply_hook : frame.

Lemma frame_callHooks_find pls hook argv err : Keeps I (callHooks_find pls hook argv err).
Proof. revert err. induction pls as [|[name p] rest IH]; intros err; simpl; frame. Qed.
Hint Resolve frame_callHooks_find : frame.

Lemma frame_callHooks hook argv : Keeps I (callHooks hook argv).
Proof. unfold callHooks. frame. Qed.
Hint Resolve frame_callHooks : frame.

Lemma frame_deref r prop : Keeps I (deref r prop).
Proof. unfold deref. frame. Qed.
Hint Resolve frame_deref : frame.

Lemma frame_update_song l f : Keeps I (update_song l f).
Proof. unfold update_song. frame. Qed.
Hint Resolve frame_update_song : frame.

Lemma frame_findSongIndex a : Keeps I (findSongIndex a).
Proof. unfold findSongIndex. frame. Qed.
Lemma frame_findSong a : Keeps I (findSong a).
Proof. unfold findSong. frame. Qed.
Lemma frame_uuidAtIndex i : Keeps I (uuidAtIndex i).
Proof. unfold uuidAtIndex. frame. Qed.
Lemma frame_getLength : Keeps I getLength.
Proof. unfold getLength. frame. Qed.
Hint Resolve frame_findSongIndex frame_findSong frame_uuidAtIndex frame_getLength : frame.

Lemma frame_playbackStarted l pos : Keeps I (playbackStarted l pos).
Proof. unfold playbackStarted. frame. Qed.
Hint Resolve frame_playbackStarted : frame.

Lemma frame_setTimeout a : Keeps I (setTimeout a).
Proof. intros s Hs. unfold setTimeout. simpl. stable. Qed.
Lemma frame_clearTimeout h : Keeps I (clearTimeout h).
Proof. unfold clearTimeout. frame. Qed.
Hint Resolve frame_setTimeout frame_clearTimeout : frame.

Lemma frame_stopPlayback pause : Keeps I (stopPlayback pause).
Proof. unfold stopPlayback. frame. Qed.
Hint Resolve frame_stopPlayback : frame.

Lemma frame_startPlayback_handler position ev : Keeps I (startPlayback_handler position ev).
Proof. unfold startPlayback_handler. frame. Qed.
Hint Resolve frame_startPlayback_handler : frame.

Lemma frame_song_prepare l sg h run :
  Allowed (EvSongPrepare l h) →
  (∀ ev, Keeps I (run ev)) → Keeps I (song_prepare l sg h run).
Proof.
  intros HA Hrun. unfold song_prepare. keeps; [by apply I_emit|apply Hrun].
Qed.

Lemma frame_adopt_first_song : Keeps I adopt_first_song.
Proof.
  intros s Hs. unfold adopt_first_song. rewrite bind_gets.
  destruct (ref_truthy (nowPlaying s)) eqn:Hnp; [done|].
  rewrite bind_gets, bind_modify.
  destruct (ref_truthy (songs_at (queue s) 0)); by apply I_adopt.
Qed.
Hint Resolve frame_adopt_first_song : frame.

Lemma frame_prepare_nowPlaying position : Keeps I (prepare_nowPlaying position).
Proof.
  unfold prepare_nowPlaying. frame. apply frame_song_prepare; [allowed|frame].
Qed.
Hint Resolve frame_prepare_nowPlaying : frame.

Lemma frame_startPlayback position : Keeps I (startPlayback position).
Proof. unfold startPlayback. frame. Qed.
Hint Resolve frame_startPlayback : frame.

Lemma frame_changeSong u : Keeps I (changeSong u).
Proof. unfold changeSong. frame. Qed.
Hint Resolve frame_changeSong : frame.

Lemma frame_setPrepareTimeout l : Keeps I (setPrepareTimeout l).
Proof. unfold setPrepareTimeout. frame. Qed.
Lemma frame_clearPrepareTimeout l : Keeps I (clearPrepareTimeout l).
Proof. unfold clearPrepareTimeout. frame. Qed.
Hint Resolve frame_setPrepareTimeout frame_clearPrepareTimeout : frame.

Lemma frame_prepareTimeout_fires t : Keeps I (prepareTimeout_fires t).
Proof. unfold prepareTimeout_fires. frame. Qed.

Lemma frame_prepareError l err : Keeps I (prepareError l err).
Proof. unfold prepareError. frame. Qed.
Hint Resolve frame_prepareError : frame.

Lemma frame_prepareProgCallback l b d : Keeps I (prepareProgCallback l b d).
Proof. unfold prepareProgCallback. frame. Qed.
Hint Resolve frame_prepareProgCallback : frame.

Section FrameInvoke.

Variable invoke : Callback → list Val → @M W unit.
Hypothesis frame_invoke : ∀ cb args, Keeps I (invoke cb args).

Lemma frame_prepareErrCallback_with l err cb :
  Keeps I (prepareErrCallback_with invoke l err cb).
Proof. unfold prepareErrCallback_with. frame. Qed.

Lemma frame_prepareSong_handler_with l cb ev :
  Keeps I (prepareSong_handler_with invoke l cb ev).
Proof. unfold prepareSong_handler_with. frame. Qed.

Lemma frame_prepareSong_with song cb : Keeps I (prepareSong_with invoke song cb).
Proof.
  unfold prepareSong_with. frame.
  apply frame_song_prepare; [allowed|].
  intros ev. apply frame_prepareSong_handler_with.
Qed.

End FrameInvoke.

Lemma frame_invoke_last cb args : Keeps I (invoke_last cb args).
Proof. unfold invoke_last. frame. Qed.

Lemma frame_prepareSongs_next cur : Keeps I (prepareSongs_next cur).
Proof.
  unfold prepareSongs_next. frame.
  apply frame_prepareSong_with, frame_invoke_last.
Qed.

Lemma frame_invoke cb args : Keeps I (invoke cb args).
Proof.
  unfold invoke. frame;
    first [apply frame_prepareSongs_next | apply frame_invoke_last].
Qed.

Lemma frame_prepareSong song cb : Keeps I (prepareSong song cb).
Proof. apply frame_prepareSong_with, frame_invoke. Qed.
Hint Resolve frame_prepareSong : frame.

Lemma frame_prepareSongs_first : Keeps I prepareSongs_first.
Proof. unfold prepareSongs_first, getNowPlaying. frame. Qed.
Hint Resolve frame_prepareSongs_first : frame.

Lemma frame_prepareSongs : Keeps I prepareSongs.
Proof. unfold prepareSongs. frame. Qed.
Hint Resolve frame_prepareSongs : frame.

Lemma frame_deliver h ev : Keeps I (deliver h ev).
Proof.
  unfold deliver. frame.
  apply frame_prepareSong_handler_with, frame_invoke.
Qed.

Lemma frame_songEnd : Keeps I songEnd.
Proof. unfold songEnd, getNowPlaying. frame. Qed.

Lemma frame_stage_loaded st results : Keeps I (stage_loaded st results).
Proof. unfold stage_loaded. frame. destruct st, results; stable. Qed.
Hint Resolve frame_stage_loaded : frame.

Lemma frame_series mods cfg sts : Keeps I (series mods cfg sts).
Proof. induction sts as [|st sts IH]; simpl; [frame|]. unfold await. frame. Qed.
Hint Resolve frame_series : frame.

Lemma frame_init mods : Keeps I (init mods).
Proof. unfold init. frame. Qed.

Lemma frame_answer id results : Keeps I (answer id results).
Proof. unfold answer. frame. Qed.

Lemma frame_join_check j : Keeps I (join_check j).
Proof. unfold join_check. frame. Qed.
Lemma frame_update_join j f : Keeps I (update_join j f).
Proof. unfold update_join. frame. Qed.
Lemma frame_new_join cb : Keeps I (new_join cb).
Proof. unfold new_join. frame. Qed.
Hint Resolve frame_join_check frame_update_join frame_new_join : frame.

Lemma frame_playlistsReport j b err results : Keeps I (playlistsReport j b err results).
Proof. unfold playlistsReport. frame. Qed.
Hint Resolve frame_playlistsReport : frame.

Lemma frame_getPlaylists cb : Keeps I (getPlaylists cb).
Proof. unfold getPlaylists, getPlaylists_backend. frame. Qed.

Lemma frame_searchSuccess j b results : Keeps I (searchSuccess j b results).
Proof. unfold searchSuccess. frame. Qed.
Lemma frame_searchError j b err : Keeps I (searchError j b err).
Proof. unfold searchError. frame. Qed.
Hint Resolve frame_searchSuccess frame_searchError : frame.

Lemma frame_searchBackends q cb : Keeps I (searchBackends q cb).
Proof. unfold searchBackends, searchBackends_backend. frame. Qed.

Lemma frame_report j r : Keeps I (report j r).
Proof. unfold report. frame. Qed.

(** Every operation other than [setVolume] keeps [I]. *)
Lemma frame_run_op o :
  (∀ v u, o ≠ OpSetVolume v u) → Keeps I (run_op o).
Proof.
  intros Hne. destruct o; simpl;
    [ apply frame_init
    | frame
    | apply frame_stopPlayback
    | apply frame_startPlayback
    | apply frame_changeSong
    | apply frame_songEnd
    | apply frame_prepareSong
    | apply frame_prepareSongs
    | apply frame_prepareError
    | apply frame_prepareErrCallback_with, frame_invoke
    | frame; apply frame_getPlaylists
    | frame; apply frame_searchBackends
    | by destruct (Hne newVol userID)
    | apply frame_deliver
    | apply frame_prepareTimeout_fires
    | apply frame_report
    | apply frame_answer ].
Qed.

End Frame.

(** [numHooks] counts the plugins for which [plugin[hook]] is truthy. *)
Lemma numHooks_find_count pls hook cnt :
  numHooks_find pls hook cnt
  = cnt + length (filter (λ np, truthy (plugin_get np.2 hook) = true) pls).
Proof.
  revert cnt. induction pls as [|[name p] rest IH]; intros cnt; simpl; [lia|].
  rewrite IH, filter_cons. simpl.
  destruct (truthy (plugin_get p hook)); case_decide; simpl; try done; lia.
Qed.

(** X1.  [numHooks(hook)] visits every plugin and counts those for which
    [plugin[hook]] is truthy: a property of the plugin object itself, its
    own or an inherited one.  What the [hooks] bundles hold is never read:
    the count is the same for plugins that differ in their bundles only.
    And for plugins that are object literals without a [constructor] of
    their own, [numHooks('constructor')] counts every plugin. *)
Theorem numHooks_counts_properties hook s :
  numHooks hook s
  = length (filter (λ np, truthy (plugin_get np.2 hook) = true) (plugins s))
  ∧ (∀ s',
       Forall2 (λ np np', props np.2 hook = props np'.2 hook
                          ∧ (is_Some (hooks np.2) ↔ is_Some (hooks np'.2)))
         (plugins s) (plugins s') →
       numHooks hook s' = numHooks hook s)
  ∧ (Forall (λ np, ∃ own, props np.2 = plain_props (W:=W) own ∧ own !! "constructor" = None)
       (plugins s) →
     numHooks "constructor" s = length (plugins s)).
Proof.
  unfold numHooks. rewrite !numHooks_find_count. split; [done|]. split.
  - intros s' H. rewrite numHooks_find_count. simpl.
    induction H as [|[n p] [n' p'] ps ps' [Hprops Hhooks] _ IH]; [done|].
    rewrite !filter_cons. simpl in *.
    assert (Hget : truthy (plugin_get p' hook) = truthy (plugin_get p hook)).
    { unfold plugin_get. case_decide; [|by rewrite Hprops].
      destruct (hooks p), (hooks p'); try done.
      - by destruct (proj1 Hhooks ltac:(eauto)).
      - by destruct (proj2 Hhooks ltac:(eauto)). }
    rewrite Hget.
    destruct (decide (truthy (plugin_get p hook) = true)); simpl; lia.
  - intros H. simpl. induction H as [|[n p] ps (own & Hprops & Hown) _ IH]; [done|].
    rewrite filter_cons_True; [simpl; by rewrite IH|].
    simpl in *. unfold plugin_get. rewrite decide_False by done.
    rewrite Hprops. unfold plain_props. by rewrite Hown.
Qed.

(** ** Volume *)

Lemma setVolume_volume v u s :
  volume (setVolume v u s).2 = Math_min num_one (Math_max num_zero v).
Proof.
  unfold setVolume, bind, modify.
  set (c := Math_min num_one (Math_max num_zero v)).
  set (s1 := set_volume c s).
  assert (Hk : Keeps (λ s, volume s = c) (callHooks "onVolumeChange" [VNum c; u])).
  { apply frame_callHooks with (Allowed := λ _, True); by intros. }
  specialize (Hk s1 eq_refl).
  by destruct (callHooks "onVolumeChange" [VNum c; u] s1) as [[?|?] s2].
Qed.

Lemma setVolume_unfold v u s :
  setVolume v u s
  = let c := Math_min num_one (Math_max num_zero v) in
    match callHooks_find (plugins s) "onVolumeChange" [VNum c; u] VNull
            (set_volume c s) with
    | (Normal _, s') => (Normal tt, s')
    | (Throw e, s') => (Throw e, s')
    end.
Proof. reflexivity. Qed.

Lemma setVolume_trace v u s :
  ∃ outs,
    trace (setVolume v u s).2
    = trace s ++ hook_events "onVolumeChange"
                   [VNum (Math_min num_one (Math_max num_zero v)); u]
                   (exposing (plugins s) "onVolumeChange") outs.
Proof.
  rewrite setVolume_unfold.
  set (c := Math_min num_one (Math_max num_zero v)). cbv zeta.
  destruct (callHooks_find (plugins s) "onVolumeChange" [VNum c; u] VNull
              (set_volume c s)) as [r s2] eqn:Hrun.
  apply callHooks_find_spec in Hrun as (outs & Htr & _).
  exists outs. by destruct r.
Qed.

Lemma run_op_volume o s :
  (∀ x y, o = OpSetVolume x y → is_nan x = false) →
  in_unit_interval (volume s) = true →
  in_unit_interval (volume (run_op o s).2) = true.
Proof.
  intros Ho Hs.
  destruct (match o with OpSetVolume _ _ => true | _ => false end) eqn:Hkind.
  - destruct o; try done. simpl. rewrite setVolume_volume.
    apply clamp_in_unit_interval. by eapply Ho.
  - assert (Hk : Keeps (λ s', volume s' = volume s) (run_op o)).
    { apply frame_run_op with (Allowed := λ _, True); try by intros.
      intros x y ->. done. }
    by rewrite (Hk s eq_refl).
Qed.

Lemma run_ops_volume os s :
  Forall (λ o, ∀ x y, o = OpSetVolume x y → is_nan x = false) os →
  in_unit_interval (volume s) = true →
  in_unit_interval (volume (run_ops os s)) = true.
Proof.
  intros Hos. revert s. induction Hos as [|o os Ho Hos IH]; intros s Hs; [done|].
  simpl. apply IH. by apply run_op_volume.
Qed.

(** C5, amended.  [setVolume(v, actorId)] with a number [v] other than NaN
    stores [Math.min(1, Math.max(0, v))], which lies in [0, 1] (0 for a
    [v] below 0, 1 for a [v] above 1, a number equal to [v] in between; so
    0, 1 and 0.4 for -1, 2 and 0.4), and then calls
    [callHooks('onVolumeChange', [stored value, actorId])]: the hook
    functions of the plugins that expose [onVolumeChange] are called with
    these two arguments, as the dispatch of the specification has it, and
    [setVolume] returns when the dispatch returns and throws what it
    throws.  No other operation writes the volume.  Hence a player
    constructed with a volume in [0, 1] (the constructor takes a truthy
    [options.volume] as it is, and 1 otherwise) keeps its volume in [0, 1]
    through every sequence of operations whose [setVolume] arguments are
    not NaN. *)
Theorem volume_in_unit_interval (options : @Options W) defaultConfig h now w
    (os : list Op) (v : number) (u : Val) s :
  in_unit_interval (volume_or_default (o_volume options)) = true →
  Forall (λ o, ∀ x y, o = OpSetVolume x y → is_nan x = false) os →
  is_nan v = false →
  volume (constructor options defaultConfig h now w) = volume_or_default (o_volume options)
  ∧ in_unit_interval (volume (run_ops os (constructor options defaultConfig h now w))) = true
  ∧ (∀ o, (∀ x y, o ≠ OpSetVolume x y) → volume (run_op o s).2 = volume s)
  ∧ volume (setVolume v u s).2 = Math_min num_one (Math_max num_zero v)
  ∧ in_unit_interval (volume (setVolume v u s).2) = true
  ∧ (SFltb v num_zero = true → volume (setVolume v u s).2 = num_zero)
  ∧ (SFltb num_one v = true → volume (setVolume v u s).2 = num_one)
  ∧ (in_unit_interval v = true → SFeqb (volume (setVolume v u s).2) v = true)
  ∧ volume (setVolume Examples.num_minus_one u s).2 = num_zero
  ∧ volume (setVolume Examples.num_two u s).2 = num_one
  ∧ volume (setVolume Examples.num_0_4 u s).2 = Examples.num_0_4
  ∧ setVolume v u s
    = bind (callHooks "onVolumeChange" [VNum (Math_min num_one (Math_max num_zero v)); u])
        (λ _, ret tt) (set_volume (Math_min num_one (Math_max num_zero v)) s)
  ∧ (hooks_sound (plugins s) "onVolumeChange" →
       let argv := [VNum (Math_min num_one (Math_max num_zero v)); u] in
       let d := dispatch (hook_fns (plugins s) "onVolumeChange") argv (world s) in
       (setVolume v u s).1
       = match hook_result d.1 with Normal _ => Normal tt | Throw e => Throw e end
       ∧ (setVolume v u s).2
         = set_trace
             (trace s ++ hook_events "onVolumeChange" argv
                           (exposing (plugins s) "onVolumeChange") d.1)
             (set_world d.2 (set_volume (Math_min num_one (Math_max num_zero v)) s))).
Proof.
  intros Hinit Hos Hv. rewrite !setVolume_volume.
  split; [done|]. split; [by apply run_ops_volume|].
  split.
  { intros o Ho.
    assert (Hk : Keeps (λ s', volume s' = volume s) (run_op o)).
    { apply frame_run_op with (Allowed := λ _, True); try by intros. }
    apply (Hk s eq_refl). }
  split; [done|]. split; [by apply clamp_in_unit_interval|].
  split; [apply clamp_below|]. split; [apply clamp_above|].
  split; [apply clamp_inside|].
  split; [done|]. split; [done|]. split; [done|].
  split; [reflexivity|].
  intros Hs argv d.
  change (setVolume v u s)
    with (bind (callHooks "onVolumeChange" argv) (λ _, ret tt)
            (set_volume (Math_min num_one (Math_max num_zero v)) s)).
  unfold bind.
  rewrite (callHooks_fired "onVolumeChange" argv
             (set_volume (Math_min num_one (Math_max num_zero v)) s) Hs).
  unfold fired. simpl. fold d. by destruct (hook_result d.1).
Qed.

(** ** Playback state machine *)

(** With no now-playing song and an empty queue, [startPlayback] throws the
    queue-empty error after it has stored [queue.songs[0]], which is
    [undefined], in [nowPlaying]. *)
Lemma startPlayback_empty_queue position s :
  ref_truthy (nowPlaying s) = false →
  songs (queue s) = [] →
  startPlayback position s
  = (Throw (VError "queue is empty! not starting playback."),
     set_nowPlaying RUndefined (set_trace (trace s ++ [EvEnter MStartPlayback]) s)).
Proof.
  intros Hnp Hq. unfold startPlayback, adopt_first_song. run. simpl.
  rewrite Hnp. run. unfold songs_at. simpl. rewrite Hq. simpl. by run.
Qed.

(** [stopPlayback] reads [np.playback] before it tests [np]: without a
    now-playing song it throws, after it has cleared the song-end timer and
    the [play] flag. *)
Lemma stopPlayback_without_song pause s :
  nowPlaying s = RNull →
  stopPlayback pause s
  = (Throw (VTypeError "Cannot read properties of null (reading 'playback')"),
     set_play false
       (clear_timer (songEndTimeout s)
          (set_trace (trace s ++ [EvEnter MStopPlayback]) s))).
Proof.
  intros Hnp. unfold stopPlayback. run. simpl. by rewrite Hnp.
Qed.

(** C10.  When [uuid] is not found in the queue, [changeSong(uuid)] sets
    [nowPlaying] to [null] and calls [stopPlayback]; there the position
    [np.playback.startPos + ...] is computed from the null [np], ahead of
    the [if (np)] test, which throws a TypeError: [play] has been cleared,
    no song is touched, and [startPlayback] is not reached. *)
Theorem changeSong_missing_song_dereferences_null u s :
  List.find (uuid_is (heap s) u) (songs (queue s)) = None →
  ∃ s',
    changeSong u s
    = (Throw (VTypeError "Cannot read properties of null (reading 'playback')"), s')
    ∧ nowPlaying s' = RNull
    ∧ play s' = false
    ∧ heap s' = heap s
    ∧ trace s' = trace s ++ [EvEnter MChangeSong; EvEnter MStopPlayback].
Proof.
  intros Hfind. unfold changeSong. run.
  rewrite (bind_normal _ _ _ _ _ (findSong_run _ _)). simpl.
  rewrite Hfind. run. cbn [ref_truthy].
  erewrite bind_thrown; [|by apply stopPlayback_without_song].
  eexists. split; [reflexivity|]. simpl. by rewrite <- app_assoc.
Qed.

(** ** Song preparation pipeline *)

Lemma emits_refl (P : Event → Prop) s : Emits P (trace s) s.
Proof. exists []. by rewrite app_nil_r. Qed.

Lemma emits_emit (P : Event → Prop) t0 e s :
  P e → Emits P t0 s → Emits P t0 (set_trace (trace s ++ [e]) s).
Proof.
  intros He (evs & Ht & Hevs). exists (evs ++ [e]). simpl. split.
  - by rewrite Ht, <- app_assoc.
  - apply Forall_app. split; [done|]. by constructor.
Qed.

Lemma deref_song l sg prop s :
  heap s !! l = Some sg → deref (RSong l) prop s = (Normal (l, sg), s).
Proof. intros Hl. unfold deref. run. by rewrite Hl. Qed.

(** On an error report, the handler of [prepareSong] calls the callback
    with the error and does nothing else. *)
Lemma prepareSong_handler_error l id ev s :
  truthy (pe_err ev) = true →
  prepareSong_handler l (CbUser id) ev s
  = (Normal tt, set_trace (trace s ++ [EvCallback id [pe_err ev]]) s).
Proof.
  intros Herr. unfold prepareSong_handler, prepareSong_handler_with.
  by rewrite Herr.
Qed.

Lemma startPlayback_with_song position n np s :
  nowPlaying s = RSong n →
  heap s !! n = Some np →
  startPlayback position s
  = for_each (prepareSync np) (startPlayback_handler (num_or position num_zero))
      (set_trace ((trace s ++ [EvEnter MStartPlayback])
                  ++ [EvSongPrepare n (HStartPlayback (num_or position num_zero))]) s).
Proof.
  intros Hnp Hheap. unfold startPlayback, adopt_first_song, prepare_nowPlaying.
  run. simpl. rewrite Hnp. simpl. run. simpl. rewrite Hnp.
  erewrite bind_normal; [|by apply deref_song].
  unfold song_prepare. by run.
Qed.



(** ** End of a song *)

Lemma callHooks_run hook argv s :
  ∃ outs,
    trace (callHooks hook argv s).2
    = trace s ++ hook_events hook argv (exposing (plugins s) hook) outs
    ∧ plugins (callHooks hook argv s).2 = plugins s
    ∧ backends (callHooks hook argv s).2 = backends s
    ∧ config (callHooks hook argv s).2 = config s.
Proof.
  assert (Hk : Keeps (λ s', plugins s' = plugins s ∧ backends s' = backends s
                            ∧ config s' = config s) (callHooks hook argv)).
  { apply frame_callHooks with (Allowed := λ _, True); by intros. }
  specialize (Hk s (conj eq_refl (conj eq_refl eq_refl))).
  destruct (callHooks hook argv s) as [r s'] eqn:Hrun.
  unfold callHooks in Hrun. rewrite bind_gets in Hrun.
  apply callHooks_find_spec in Hrun as (outs & Htr & _).
  exists outs. by split.
Qed.


Lemma bind_keeps_ext {A B} I (m : M A) (k k' : A → M B) s :
  Keeps I m → I s → (∀ a s1, I s1 → k a s1 = k' a s1) →
  bind m k s = bind m k' s.
Proof.
  intros Hm Hs Hk. unfold bind. specialize (Hm s Hs).
  destruct (m s) as [[a|e] s1]; [by apply Hk|done].
Qed.

Lemma songs_at_length (q : Queue) :
  songs_at q (Z.of_nat (length (songs q)) - 1 + 1) = RUndefined.
Proof.
  unfold songs_at. replace (_ - 1 + 1)%Z with (Z.of_nat (length (songs q))) by lia.
  destruct (Z.ltb_spec (Z.of_nat (length (songs q))) 0); [done|].
  rewrite Nat2Z.id. by rewrite lookup_ge_None_2.
Qed.

Lemma songs_at_first (q : Queue) l0 :
  songs q !! 0 = Some l0 → songs_at q 0 = RSong l0.
Proof.
  intros H.
  change (songs_at q 0)
    with (match songs q !! 0 with Some l => RSong l | None => RUndefined end).
  by rewrite H.
Qed.

Lemma find_first (h : gmap nat Song) (ls : list nat) l0 sg0 :
  ls !! 0 = Some l0 → h !! l0 = Some sg0 →
  List.find (uuid_is h (VStr (uuid sg0))) ls = Some l0.
Proof.
  intros Hls Hl0. destruct ls as [|x ls]; [done|]. simpl in Hls.
  injection Hls as ->. simpl. unfold uuid_is. rewrite Hl0.
  by rewrite String.eqb_refl.
Qed.

Lemma callHooks_same_player hook argv s :
  Keeps (same_player s) (callHooks hook argv).
Proof. apply frame_callHooks with (Allowed := λ _, True); by intros. Qed.

(** After [changeSong] to the uuid of the first queued song, that song is
    the now-playing song. *)
Lemma changeSong_first l0 sg0 s :
  songs (queue s) !! 0 = Some l0 →
  heap s !! l0 = Some sg0 →
  nowPlaying (changeSong (VStr (uuid sg0)) s).2 = RSong l0
  ∧ ∃ evs, trace (changeSong (VStr (uuid sg0)) s).2
           = trace s ++ EvEnter MChangeSong :: evs.
Proof.
  intros Hq Hh. unfold changeSong. run.
  erewrite bind_normal; [|apply findSong_run]. simpl.
  rewrite (find_first _ _ _ _ Hq Hh). run. cbn [ref_truthy]. run.
  erewrite startPlayback_with_song; [|reflexivity|exact Hh].
  change (num_or num_zero num_zero) with num_zero.
  match goal with |- context [for_each _ _ ?s2] =>
    assert (Hk : Keeps (λ s', nowPlaying s' = RSong l0
                              ∧ Emits (λ _, True) (trace s ++ [EvEnter MChangeSong]) s')
                   (for_each (prepareSync sg0) (startPlayback_handler num_zero)));
    [|specialize (Hk s2)]
  end.
  { apply keeps_for_each. intros ev.
    apply frame_startPlayback_handler with (Allowed := λ _, True); try done.
    intros e s0 _ [? ?]. split; [done|by apply emits_emit]. }
  destruct Hk as [Hnp (evs & Htr & _)].
  { split; [done|]. simpl.
    exists [EvEnter MStartPlayback; EvSongPrepare l0 (HStartPlayback num_zero)].
    split; [by rewrite <- !app_assoc|]. by repeat constructor. }
  split; [done|]. exists evs. by rewrite Htr, <- app_assoc.
Qed.

(** C8.  [songEnd()] with the now-playing song at the last index of the
    queue: after the [onSongEnd] hooks, [changeSong] is called if and only
    if [repeat] is set, with the uuid of the first queued song, which
    thereby becomes the now-playing song; [prepareSongs()] follows in
    either case.  Without [repeat] no [changeSong] call is made at all and
    the now-playing song stays.  When [songEnd] returns, the trace shows
    [prepareSongs] entered after the hooks and, with [repeat], after the
    song change. *)
Theorem songEnd_at_end_of_queue l sg l0 sg0 s :
  nowPlaying s = RSong l →
  heap s !! l = Some sg →
  find_index (uuid_is (heap s) (VStr (uuid sg))) (songs (queue s)) 0
  = (Z.of_nat (length (songs (queue s))) - 1)%Z →
  songs (queue s) !! 0 = Some l0 →
  heap s !! l0 = Some sg0 →
  songEnd s
  = bind (callHooks "onSongEnd" [VSong l])
      (λ _, bind (if repeat s then changeSong (VStr (uuid sg0)) else ret tt)
              (λ _, prepareSongs)) s
  ∧ (repeat s = false →
       Emits (λ e, e ≠ EvEnter MChangeSong) (trace s) (songEnd s).2
       ∧ nowPlaying (songEnd s).2 = RSong l)
  ∧ (repeat s = true →
       ∀ v s1, callHooks "onSongEnd" [VSong l] s = (Normal v, s1) →
         nowPlaying (changeSong (VStr (uuid sg0)) s1).2 = RSong l0
         ∧ ∃ evs, trace (changeSong (VStr (uuid sg0)) s1).2
                  = trace s1 ++ EvEnter MChangeSong :: evs)
  ∧ ((songEnd s).1 = Normal tt →
       ∃ before after,
         trace (songEnd s).2 = trace s ++ before ++ EvEnter MPrepareSongs :: after
         ∧ (repeat s = true → EvEnter MChangeSong ∈ before)
         ∧ (repeat s = false →
              Forall (λ e, ∃ p a r, e = EvHook p "onSongEnd" a r) before)).
Proof.
  intros Hnp Hl Hidx Hq Hl0.
  assert (Heq : songEnd s
    = bind (callHooks "onSongEnd" [VSong l])
        (λ _, bind (if repeat s then changeSong (VStr (uuid sg0)) else ret tt)
                (λ _, prepareSongs)) s).
  { unfold songEnd, getNowPlaying. run. rewrite Hnp. cbn [ref_truthy ref_val].
    rewrite bind_assoc. erewrite bind_normal; [|by apply deref_song].
    cbv beta iota. unfold findSongIndex at 1. run. rewrite Hidx.
    erewrite bind_normal; [|by apply deref_song].
    apply (bind_keeps_ext (same_player s));
      [apply callHooks_same_player|done|].
    intros _ s1 (Hq1 & Hh1 & Hr1 & _). run.
    rewrite Hq1, songs_at_length. cbn [ref_truthy]. run. rewrite Hr1.
    destruct (repeat s); [|done].
    rewrite bind_assoc. unfold uuidAtIndex at 1. run.
    rewrite Hq1, (songs_at_first _ _ Hq), Hh1, Hl0. done. }
  split; [exact Heq|]. split.
  - intros Hrep. rewrite Heq, Hrep.
    set (P := λ e, e ≠ EvEnter MChangeSong).
    assert (Hk : Keeps (W:=W) (Emits P (trace s))
              (bind (callHooks "onSongEnd" [VSong l])
                 (λ _, bind (ret tt) (λ _, prepareSongs)))).
    { keeps.
      - apply frame_callHooks with (Allowed := P); try done.
        intros; by apply emits_emit.
      - apply frame_prepareSongs with (Allowed := P); try done.
        intros; by apply emits_emit. }
    assert (Hn : Keeps (W:=W) (λ s', nowPlaying s' = RSong l)
              (bind (callHooks "onSongEnd" [VSong l])
                 (λ _, bind (ret tt) (λ _, prepareSongs)))).
    { keeps.
      - apply frame_callHooks with (Allowed := λ _, True); by intros.
      - apply frame_prepareSongs with (Allowed := λ _, True); try by intros.
        intros s0 Hs0. by rewrite Hs0. }
    split; [apply Hk, emits_refl|by apply Hn].
  - assert (Hchange : ∀ v s1, callHooks "onSongEnd" [VSong l] s = (Normal v, s1) →
              nowPlaying (changeSong (VStr (uuid sg0)) s1).2 = RSong l0
              ∧ ∃ evs, trace (changeSong (VStr (uuid sg0)) s1).2
                       = trace s1 ++ EvEnter MChangeSong :: evs).
    { intros v s1 Hhooks.
      pose proof (callHooks_same_player "onSongEnd" [VSong l] s s) as Hsame.
      rewrite Hhooks in Hsame. destruct Hsame as (Hq1 & Hh1 & _); [done|].
      simpl in Hq1, Hh1.
      apply changeSong_first; [by rewrite Hq1|by rewrite Hh1]. }
    split; [by intros _|].
    rewrite Heq.
    match goal with |- (?m s).1 = _ → _ =>
      destruct (m s) as [r sf] eqn:Hrun
    end.
    simpl. intros ->.
    apply bind_inv in Hrun as [(v & s1 & Hhooks & Hrun)|(? & _ & [=])].
    destruct (callHooks_run "onSongEnd" [VSong l] s) as (outs & Ht1 & _).
    rewrite Hhooks in Ht1. simpl in Ht1.
    apply bind_inv in Hrun as [([] & s2 & Hstep & Hrun)|(? & _ & [=])].
    assert (Hafter : ∃ after, trace sf = (trace s2 ++ [EvEnter MPrepareSongs]) ++ after).
    { unfold prepareSongs in Hrun. rewrite bind_emit in Hrun.
      assert (Hk : Keeps (Emits (λ _, True) (trace s2 ++ [EvEnter MPrepareSongs]))
                     (prepareSongs_first (W:=W))).
      { apply frame_prepareSongs_first with (Allowed := λ _, True); try done.
        intros; by apply emits_emit. }
      specialize (Hk (set_trace (trace s2 ++ [EvEnter MPrepareSongs]) s2)
                    (emits_refl _ _)).
      rewrite Hrun in Hk.
      destruct Hk as (after & Ht & _). by exists after. }
    destruct Hafter as (after & Ht3).
    destruct (repeat s) eqn:Hrep.
    + destruct (Hchange v s1 Hhooks) as (_ & evs & Ht2).
      rewrite Hstep in Ht2. simpl in Ht2.
      exists (hook_events "onSongEnd" [VSong l] (exposing (plugins s) "onSongEnd") outs
              ++ EvEnter MChangeSong :: evs), after.
      split; [|split; [|done]].
      * rewrite Ht3, Ht2, Ht1, <- ?app_assoc. simpl. by rewrite <- ?app_assoc.
      * intros _. apply elem_of_app. right. by left.
    + injection Hstep as <-.
      exists (hook_events "onSongEnd" [VSong l] (exposing (plugins s) "onSongEnd") outs),
        after.
      split; [|split; [done|]].
      * by rewrite Ht3, Ht1, <- ?app_assoc.
      * intros _. apply hook_events_all_hook.
Qed.

(** ** Initialisation pipeline *)


(** ** Search / playlist aggregator *)

Lemma returns_ret {A} (P : @State W → Prop) (a : A) : Returns P (ret a) P.
Proof. intros s Hs. by exists a, s. Qed.

Lemma returns_bind {A B} (P R Q : @State W → Prop) (m : M A) (k : A → M B) :
  Returns P m R → (∀ a, Returns R (k a) Q) → Returns P (bind m k) Q.
Proof.
  intros Hm Hk s Hs. destruct (Hm s Hs) as (a & s1 & Hrun & Hs1).
  destruct (Hk a s1 Hs1) as (b & s2 & Hrun2 & Hs2).
  exists b, s2. by rewrite (bind_normal _ _ _ _ _ Hrun).
Qed.

Lemma returns_for_each {A} (P : nat → @State W → Prop) (f : A → M unit)
    (step : A → nat) (l : list A) k :
  (∀ x i, x ∈ l → Returns (P i) (f x) (P (i + step x))) →
  Returns (P k) (for_each l f) (P (k + sum_list (step <$> l))).
Proof.
  revert k. induction l as [|x l IH]; intros k Hf; simpl.
  - rewrite Nat.add_0_r. apply returns_ret.
  - rewrite Nat.add_assoc. eapply returns_bind.
    + apply Hf. by left.
    + intros _. apply IH. intros y i Hy. apply Hf. by right.
Qed.

Lemma returns_for_each_inv {A} (P : @State W → Prop) (f : A → M unit) (l : list A) :
  (∀ x, Returns P (f x) P) → Returns P (for_each l f) P.
Proof.
  intros Hf. induction l as [|x l IH]; simpl; [apply returns_ret|].
  eapply returns_bind; [apply Hf|]. by intros _.
Qed.

Lemma sum_list_ones {A} (l : list A) : sum_list ((λ _, 1) <$> l) = length l.
Proof. induction l; simpl; [done|]. by f_equal. Qed.

Lemma sum_list_indicator {A} (f : A → bool) (l : list A) :
  sum_list ((λ x, if f x then 1 else 0) <$> l) = length (List.filter f l).
Proof.
  induction l as [|x l IH]; simpl; [done|].
  destruct (f x); simpl; by rewrite <- IH.
Qed.

Lemma calls_due_S n k :
  calls_due n (S k) = calls_due n k + (if decide (n ≤ S k) then 1 else 0).
Proof.
  unfold calls_due. rewrite seq_S, List.filter_app, length_app. simpl.
  case_decide as Hle.
  - apply Nat.leb_le in Hle. by rewrite Hle.
  - apply Nat.leb_nle in Hle. by rewrite Hle.
Qed.

Lemma calls_due_upto n k :
  1 ≤ n → k ≤ n → calls_due n k = if decide (k = n) then 1 else 0.
Proof.
  intros Hn. induction k as [|k IH]; intros Hk.
  - case_decide; [lia|done].
  - rewrite calls_due_S, IH by lia. repeat case_decide; lia.
Qed.

Lemma join_calls_app cb (t1 t2 : list Event) :
  join_calls cb (t1 ++ t2) = join_calls cb t1 + join_calls cb t2.
Proof. unfold join_calls. by rewrite List.filter_app, length_app. Qed.

Lemma hooks_return_cons name (p : @Plugin W) pls hook :
  hooks_return ((name, p) :: pls) hook → hooks_return pls hook.
Proof.
  intros [Hsound Hret]. split.
  - by apply hooks_sound_cons in Hsound as [_ ?].
  - intros n q fn Hin. apply (Hret n q fn). by right.
Qed.

Lemma callHooks_find_returns pls hook argv :
  hooks_return pls hook →
  ∀ err s, ∃ v s', callHooks_find pls hook argv err s = (Normal v, s').
Proof.
  induction pls as [|[name p] rest IH]; intros Hret err s; simpl; [by eauto|].
  pose proof (hooks_return_cons _ _ _ _ Hret) as Hrest.
  destruct Hret as [Hsound Hret].
  destruct (Hsound name p (list_elem_of_here _ _)) as (bundle & Hb & Hother).
  rewrite Hb. destruct (bundle hook) as [fn|v] eqn:Hfn; simpl.
  - assert (Hp : hook_fn p hook = Some fn) by (unfold hook_fn; by rewrite Hb, Hfn).
    destruct (Hret name p fn (list_elem_of_here _ _) Hp argv (world s)) as (v & w & Hv).
    unfold bind, apply_hook. rewrite Hv.
    destruct (truthy v); [by eauto|]. by apply IH.
  - rewrite (Hother v eq_refl). by apply IH.
Qed.

Section Join.

Variables (bs : list (string * Backend)) (pls : list (string * @Plugin W)).
Variables (t0 : list Event) (j cb : nat).

#[local] Abbreviation JS := (JoinState bs pls t0 j cb).
#[local] Abbreviation JA :=
  (λ k, JoinState bs pls t0 j cb k (calls_due (length bs) k)).

Lemma join_emit k c e s :
  is_join_call cb e = false → JS k c s → JS k c (set_trace (trace s ++ [e]) s).
Proof.
  intros He (Hb & Hp & Hj & evs & Ht & Hc). repeat split; try done.
  exists (evs ++ [e]). simpl. split; [by rewrite Ht, <- app_assoc|].
  rewrite join_calls_app, Hc. unfold join_calls. simpl. rewrite He. simpl. lia.
Qed.

Lemma returns_emit k c e :
  is_join_call cb e = false → Returns (JS k c) (emit e) (JS k c).
Proof.
  intros He s Hs. exists tt, (set_trace (trace s ++ [e]) s).
  split; [done|]. by apply join_emit.
Qed.

Lemma returns_callHooks k c hook argv :
  hooks_return pls hook → Returns (JS k c) (callHooks hook argv) (JS k c).
Proof.
  intros Hret s Hs.
  assert (Hk : Keeps (JS k c) (callHooks hook argv)).
  { apply frame_callHooks with (Allowed := λ e, is_join_call cb e = false);
      [done| |done]. intros e s0 He H0. by apply join_emit. }
  specialize (Hk s Hs). destruct Hs as (_ & Hp & _).
  unfold callHooks in *. rewrite bind_gets in *. rewrite Hp in *.
  destruct (callHooks_find_returns pls hook argv Hret VNull s) as (v & s' & Hrun).
  rewrite Hrun in *. by eauto.
Qed.

Lemma returns_update_join k c f k' :
  (∀ jn, resultCnt jn = k → resultCnt (f jn) = k') →
  (∀ jn, j_callback (f jn) = j_callback jn) →
  Returns (JS k c) (update_join j f) (JS k' c).
Proof.
  intros Hcnt Hcb s (Hb & Hp & (jn & Hj & Hk & Hc) & Hev).
  exists tt, (set_joins (alter f j (joins s)) s).
  split; [done|]. repeat split; try done.
  exists (f jn). simpl. rewrite list_lookup_alter_eq, Hj. simpl.
  split; [done|]. split; [by apply Hcnt|by rewrite Hcb].
Qed.

Lemma returns_join_check k c :
  Returns (JS k c) (join_check j)
    (JS k (c + if decide (length bs ≤ k) then 1 else 0)).
Proof.
  intros s (Hb & Hp & (jn & Hj & Hk & Hc) & evs & Ht & Hcalls).
  unfold join_check. run. rewrite Hj, Hb, Hk.
  case_decide.
  - exists tt, (set_trace (trace s ++ [EvJoinCallback (j_callback jn) (allResults jn)]) s).
    split; [done|]. repeat split; try done; [by eauto|].
    exists (evs ++ [EvJoinCallback (j_callback jn) (allResults jn)]). simpl.
    split; [by rewrite Ht, <- app_assoc|].
    rewrite join_calls_app, Hcalls, Hc. unfold join_calls. simpl.
    by rewrite Nat.eqb_refl.
  - exists tt, s. split; [done|]. rewrite Nat.add_0_r.
    repeat split; by eauto.
Qed.

(** Counting a report, and testing for completion. *)
Lemma returns_count k :
  Returns (JA k) (update_join j count_result) (JS (S k) (calls_due (length bs) k)).
Proof. apply returns_update_join; [|done]. by intros jn <-. Qed.

Lemma returns_check k :
  Returns (JS (S k) (calls_due (length bs) k)) (join_check j) (JA (S k)).
Proof. cbv beta. rewrite calls_due_S. apply returns_join_check. Qed.

Lemma returns_report k r :
  hooks_return pls "preAddSearchResult" →
  Returns (JA k) (report j r) (JA (S k)).
Proof.
  intros Hret. destruct r as [b err results|b results|b err]; simpl.
  - unfold playlistsReport.
    eapply returns_bind; [apply returns_count|]. intros _.
    eapply returns_bind; [by apply returns_update_join|]. intros _.
    apply returns_check.
  - unfold searchSuccess.
    eapply returns_bind; [apply returns_count|]. intros _.
    eapply returns_bind; [by apply returns_update_join|]. intros _.
    eapply returns_bind; [|intros _; apply returns_check].
    apply returns_for_each_inv.
    intros ks. eapply returns_bind; [by apply returns_callHooks|].
    intros err. destruct (truthy err); [apply returns_ret|].
    by apply returns_update_join.
  - unfold searchError.
    eapply returns_bind; [apply returns_count|]. intros _.
    apply returns_check.
Qed.

Lemma returns_reports k rs :
  hooks_return pls "preAddSearchResult" →
  Returns (JA k) (for_each rs (report j)) (JA (k + length rs)).
Proof.
  intros Hret.
  pose proof (returns_for_each JA (report j) (λ _, 1) rs k) as Hfe.
  rewrite sum_list_ones in Hfe.
  apply Hfe. intros r i _. rewrite Nat.add_1_r. by apply returns_report.
Qed.

Lemma returns_search_each k q (bs' : list (string * Backend)) :
  hooks_return pls "preAddSearchResult" →
  Returns (JA k) (for_each bs' (λ kb, searchBackends_backend j q kb.2))
    (JA (k + length (List.filter searches_at_once bs'))).
Proof.
  intros Hret.
  pose proof (returns_for_each JA (λ kb, searchBackends_backend j q kb.2)
                (λ kb, if searches_at_once kb then 1 else 0) bs' k) as Hfe.
  rewrite sum_list_indicator in Hfe.
  apply Hfe. intros [name b] i _. unfold searchBackends_backend, searches_at_once.
  simpl. eapply returns_bind; [by apply returns_emit|]. intros _.
  destruct (b_search b) as [results|err|].
  - rewrite Nat.add_1_r. by apply (returns_report i (RepSearchSuccess b results)).
  - rewrite Nat.add_1_r. by apply (returns_report i (RepSearchError b err)).
  - rewrite Nat.add_0_r. apply returns_ret.
Qed.

Lemma returns_playlists_each k (bs' : list (string * Backend)) :
  hooks_return pls "preAddSearchResult" →
  Returns (JA k) (for_each bs' (λ kb, getPlaylists_backend j kb.2))
    (JA (k + length (List.filter lists_at_once bs'))).
Proof.
  intros Hret.
  pose proof (returns_for_each JA (λ kb, getPlaylists_backend j kb.2)
                (λ kb, if lists_at_once kb then 1 else 0) bs' k) as Hfe.
  rewrite sum_list_indicator in Hfe.
  apply Hfe. intros [name b] i _. unfold getPlaylists_backend, lists_at_once.
  simpl. destruct (b_getPlaylists b) as [[err results|]|].
  - eapply returns_bind; [by apply returns_emit|]. intros _.
    rewrite Nat.add_1_r. by apply (returns_report i (RepPlaylists b err results)).
  - eapply returns_bind; [by apply returns_emit|]. intros _.
    rewrite Nat.add_0_r. apply returns_ret.
  - rewrite Nat.add_1_r.
    eapply returns_bind; [apply returns_count|]. intros _.
    apply returns_check.
Qed.

End Join.

Lemma new_join_run cb s :
  new_join cb s = (Normal (length (joins s)),
                   set_joins (joins s ++ [mkJoin 0 [] cb]) s)
  ∧ JoinState (backends s) (plugins s) (trace s) (length (joins s)) cb 0 0
      (set_joins (joins s ++ [mkJoin 0 [] cb]) s).
Proof.
  split; [done|]. repeat split; simpl.
  - exists (mkJoin 0 [] cb). by rewrite list_lookup_middle.
  - exists []. by rewrite app_nil_r.
Qed.

(** X18.  With at least one backend and [preAddSearchResult] hooks that return,
    [searchBackends] followed by the reports [rs] of backends that answer
    later calls the completion callback once when, with [rs], every backend
    has reported, and not at all before. *)
Theorem searchBackends_joins_once q cb (rs : list Report) s :
  backends s ≠ [] →
  hooks_return (plugins s) "preAddSearchResult" →
  length (List.filter searches_at_once (backends s)) + length rs
  ≤ length (backends s) →
  ∃ j s1 s2 evs,
    searchBackends q cb s = (Normal j, s1)
    ∧ for_each rs (report j) s1 = (Normal tt, s2)
    ∧ trace s2 = trace s ++ evs
    ∧ join_calls cb evs
      = if decide (length (List.filter searches_at_once (backends s)) + length rs
                   = length (backends s)) then 1 else 0.
Proof.
  intros Hne Hret Hlen. set (n0 := length (List.filter searches_at_once (backends s))).
  destruct (new_join_run cb s) as [Hnew Hjs].
  unfold searchBackends. rewrite (bind_normal _ _ _ _ _ Hnew). run. simpl.
  destruct (returns_search_each (backends s) (plugins s) (trace s)
              (length (joins s)) cb 0 q (backends s) Hret _ Hjs)
    as ([] & s1 & Hrun & Hs1).
  rewrite (bind_normal _ _ _ _ _ Hrun). run.
  destruct (returns_reports (backends s) (plugins s) (trace s)
              (length (joins s)) cb _ rs Hret _ Hs1)
    as ([] & s2 & Hrun2 & (_ & _ & _ & evs & Ht & Hcalls)).
  exists (length (joins s)), s1, s2, evs. repeat split; try done.
  rewrite Hcalls. simpl. apply calls_due_upto; [|done].
  destruct (backends s); [done|simpl; lia].
Qed.

(** X17.  With at least one backend, [getPlaylists] followed by the reports
    [rs] of backends that answer later calls the completion callback once
    when, with [rs], every backend has reported, and not at all before; a
    backend without [getPlaylists] counts as having reported when the loop
    reaches it. *)
Theorem getPlaylists_joins_once cb (rs : list Report) s :
  backends s ≠ [] →
  hooks_return (plugins s) "preAddSearchResult" →
  length (List.filter lists_at_once (backends s)) + length rs
  ≤ length (backends s) →
  ∃ j s1 s2 evs,
    getPlaylists cb s = (Normal j, s1)
    ∧ for_each rs (report j) s1 = (Normal tt, s2)
    ∧ trace s2 = trace s ++ evs
    ∧ join_calls cb evs
      = if decide (length (List.filter lists_at_once (backends s)) + length rs
                   = length (backends s)) then 1 else 0.
Proof.
  intros Hne Hret Hlen.
  destruct (new_join_run cb s) as [Hnew Hjs].
  unfold getPlaylists. rewrite (bind_normal _ _ _ _ _ Hnew). run. simpl.
  destruct (returns_playlists_each (backends s) (plugins s) (trace s)
              (length (joins s)) cb 0 (backends s) Hret _ Hjs)
    as ([] & s1 & Hrun & Hs1).
  rewrite (bind_normal _ _ _ _ _ Hrun). run.
  destruct (returns_reports (backends s) (plugins s) (trace s)
              (length (joins s)) cb _ rs Hret _ Hs1)
    as ([] & s2 & Hrun2 & (_ & _ & _ & evs & Ht & Hcalls)).
  exists (length (joins s)), s1, s2, evs. repeat split; try done.
  rewrite Hcalls. simpl. apply calls_due_upto; [|done].
  destruct (backends s); [done|simpl; lia].
Qed.

(** ** Volume: saving and restoring *)

Lemma clamp_idempotent (v : number) :
  Math_min num_one (Math_max num_zero (Math_min num_one (Math_max num_zero v)))
  = Math_min num_one (Math_max num_zero v).
Proof.
  destruct v as [[]|[]| |[] m e]; try done.
  rewrite clamp_positive.
  destruct (SFltb (S754_finite false m e) num_one) eqn:Hlt; [|done].
  by rewrite clamp_positive, Hlt.
Qed.

(** X2.  [setVolume] with the volume that a [setVolume] has stored stores that
    volume again. *)
Theorem setVolume_idempotent v u u' s :
  volume (setVolume (volume (setVolume v u s).2) u' (setVolume v u s).2).2
  = volume (setVolume v u s).2.
Proof. by rewrite !setVolume_volume, clamp_idempotent. Qed.

(** X3.  A player constructed with the volume that [setVolume(v)] stored has
    that volume when [v] is above 0, and volume 1 otherwise: a stored 0 (and
    NaN) is falsy, and the constructor then takes its default. *)
Theorem volume_restored (options : @Options W) defaultConfig h now w v u s :
  volume (constructor (with_volume (volume (setVolume v u s).2) options)
            defaultConfig h now w)
  = if SFltb num_zero v then volume (setVolume v u s).2 else num_one.
Proof.
  rewrite setVolume_volume.
  change (volume (constructor _ defaultConfig h now w))
    with (volume_or_default (Some (Math_min num_one (Math_max num_zero v)))).
  destruct v as [[]|[]| |[] m e]; try done.
  rewrite clamp_positive.
  by destruct (SFltb (S754_finite false m e) num_one).
Qed.


(** ** Playback: stop, start, pause and resume *)

Lemma stopPlayback_run pause l sg s :
  nowPlaying s = RSong l →
  heap s !! l = Some sg →
  stopPlayback pause s
  = (Normal tt,
     set_heap
       (alter (set_playback
                 (mkPlayback num_zero
                    (stopped_position pause (clock s) (playback sg))))
          l (heap s))
       (set_play false
          (clear_timer (songEndTimeout s)
             (set_trace (trace s ++ [EvEnter MStopPlayback]) s)))).
Proof.
  intros Hnp Hl. unfold stopPlayback. run. simpl. rewrite Hnp.
  erewrite bind_normal; [|by apply deref_song]. cbv beta iota. by run.
Qed.

(** The callback of [startPlayback] marks the song that is the now-playing
    song when the report arrives. *)
Lemma startPlayback_handler_run position ev l sg s :
  no_error ev →
  nowPlaying s = RSong l →
  heap s !! l = Some sg →
  startPlayback_handler position ev s
  = (Normal tt,
     set_play true
       (set_heap
          (alter (set_playback
                    (mkPlayback (clock s) (start_position position (playback sg))))
             l (heap s))
          (set_trace
             (trace s ++ [EvPlaybackStarted l (start_position position (playback sg))])
             s))).
Proof.
  intros Herr Hnp Hl. unfold startPlayback_handler. rewrite Herr. run.
  rewrite Hnp. erewrite bind_normal; [|by apply deref_song]. cbv beta iota.
  unfold playbackStarted. by run.
Qed.

Lemma start_position_again position c pb :
  start_position position (mkPlayback c (start_position position pb))
  = start_position position pb.
Proof. unfold start_position, num_or. by destruct (truthy (VNum position)). Qed.

Lemma start_position_or_zero position pb :
  start_position (num_or position num_zero) pb = start_position position pb.
Proof. unfold start_position, num_or. by destruct (truthy (VNum position)) eqn:H; rewrite ?H. Qed.

Lemma startPlayback_reports position l c P evs s :
  Forall no_error evs →
  nowPlaying s = RSong l →
  clock s = c →
  (∃ sg, heap s !! l = Some sg ∧ start_position position (playback sg) = P) →
  ∃ s',
    for_each evs (startPlayback_handler position) s = (Normal tt, s')
    ∧ nowPlaying s' = RSong l
    ∧ trace s' = trace s ++ ((λ _, EvPlaybackStarted l P) <$> evs)
    ∧ (evs ≠ [] →
         play s' = true ∧ playback_of s' l = Some (mkPlayback c P)).
Proof.
  intros Hevs. revert s.
  induction Hevs as [|ev evs Hev Hevs IH]; intros s Hnp Hc (sg & Hl & HP).
  - exists s. simpl. by rewrite app_nil_r.
  - cbn [for_each]. erewrite bind_normal; [|by apply startPlayback_handler_run].
    rewrite HP, Hc.
    match goal with |- context [for_each _ _ ?s1] =>
      destruct (IH s1) as (s' & Hrun & Hnp' & Htr & Hplay)
    end; [done|done|..].
    { exists (set_playback (mkPlayback c P) sg). simpl.
      rewrite lookup_alter_eq, Hl. split; [done|].
      by rewrite <- HP, start_position_again. }
    exists s'. split; [done|]. split; [done|]. split.
    { rewrite Htr. simpl. by rewrite <- app_assoc. }
    intros _. destruct evs as [|ev' evs']; [|by apply Hplay].
    injection Hrun as <-. split; [done|].
    unfold playback_of. simpl. by rewrite lookup_alter_eq, Hl.
Qed.

(** X4.  [startPlayback(position)] with a now-playing song whose [prepare]
    reports at once, and without an error: playback is on, the song's
    playback record holds the current time and [position || startPos], and
    the now-playing song stays. *)
Theorem startPlayback_starts position l sg s :
  nowPlaying s = RSong l →
  heap s !! l = Some sg →
  prepareSync sg ≠ [] →
  Forall no_error (prepareSync sg) →
  ∃ s',
    startPlayback position s = (Normal tt, s')
    ∧ play s' = true
    ∧ nowPlaying s' = RSong l
    ∧ playback_of s' l
      = Some (mkPlayback (clock s) (start_position position (playback sg)))
    ∧ trace s'
      = trace s
        ++ [EvEnter MStartPlayback;
            EvSongPrepare l (HStartPlayback (num_or position num_zero))]
        ++ ((λ _, EvPlaybackStarted l (start_position position (playback sg)))
              <$> prepareSync sg).
Proof.
  intros Hnp Hl Hne Hevs.
  rewrite (startPlayback_with_song position l sg s Hnp Hl).
  match goal with |- context [for_each _ _ ?s1] =>
    destruct (startPlayback_reports (num_or position num_zero) l (clock s)
                (start_position position (playback sg)) (prepareSync sg) s1)
      as (s' & Hrun & Hnp' & Htr & Hplay)
  end; try done.
  { exists sg. split; [done|apply start_position_or_zero]. }
  destruct (Hplay Hne) as [Hp Hpb].
  exists s'. repeat split; try done.
  rewrite Htr. simpl. by rewrite <- !app_assoc.
Qed.

(** X5.  Stop, then start.  [stopPlayback(pause)] then, at the time [later],
    [startPlayback()] (the song's [prepare] reporting at once, without an
    error): playback is on again and the song resumes at the position it
    was stopped at, which for a pause is [startPos + (now - startTime)] as
    the code computes it, in binary64 arithmetic, and 0 otherwise. *)
Theorem pause_then_resume pause later l sg s :
  nowPlaying s = RSong l →
  heap s !! l = Some sg →
  prepareSync sg ≠ [] →
  Forall no_error (prepareSync sg) →
  ∃ s1 s2,
    stopPlayback pause s = (Normal tt, s1)
    ∧ play s1 = false
    ∧ startPlayback num_zero (at_time later s1) = (Normal tt, s2)
    ∧ play s2 = true
    ∧ nowPlaying s2 = RSong l
    ∧ playback_of s2 l
      = Some (mkPlayback later (stopped_position pause (clock s) (playback sg))).
Proof.
  intros Hnp Hl Hne Hevs.
  rewrite (stopPlayback_run pause l sg s Hnp Hl).
  set (P := stopped_position pause (clock s) (playback sg)).
  set (s1 := set_heap _ _).
  assert (Hl1 : heap (at_time later s1) !! l
                = Some (set_playback (mkPlayback num_zero P) sg)).
  { subst s1. simpl. by rewrite lookup_alter_eq, Hl. }
  pose proof (startPlayback_with_song num_zero l _ (at_time later s1) Hnp Hl1) as Hstart.
  match type of Hstart with _ = for_each _ _ ?s2 =>
    destruct (startPlayback_reports num_zero l later P (prepareSync sg) s2)
      as (s3 & Hrun & Hnp3 & _ & Hplay)
  end; try done.
  { by exists (set_playback (mkPlayback num_zero P) sg). }
  destruct (Hplay Hne) as [Hp Hpb].
  exists s1, s3. split; [done|]. split; [done|].
  split; [rewrite Hstart; exact Hrun|]. by repeat split.
Qed.

(** X6.  When the first report of the now-playing song's [prepare] is an error,
    [startPlayback] throws an Error that carries it; [play] and the song's
    playback record are left as they were. *)
Theorem startPlayback_prepare_error position l sg ev rest s :
  nowPlaying s = RSong l →
  heap s !! l = Some sg →
  prepareSync sg = ev :: rest →
  truthy (pe_err ev) = true →
  startPlayback position s
  = (Throw (VErrorOf "error while preparing now playing: " (pe_err ev)),
     set_trace (trace s ++ [EvEnter MStartPlayback;
                            EvSongPrepare l (HStartPlayback (num_or position num_zero))])
       s).
Proof.
  intros Hnp Hl Hsync Herr.
  rewrite (startPlayback_with_song position l sg s Hnp Hl), Hsync.
  cbn [for_each]. unfold startPlayback_handler at 1. rewrite Herr.
  rewrite bind_throw. by rewrite <- app_assoc.
Qed.

(** X7.  [startPlayback] keeps a now-playing song and takes the first queued
    song when there is none, whether it then returns or throws; with an
    empty queue [nowPlaying] is left [undefined]. *)
Theorem startPlayback_selects position s :
  nowPlaying (startPlayback position s).2
  = if ref_truthy (nowPlaying s) then nowPlaying s else songs_at (queue s) 0.
Proof.
  set (r := if ref_truthy (nowPlaying s) then nowPlaying s else songs_at (queue s) 0).
  assert (Hk : Keeps (λ s', nowPlaying s' = r)
                 (prepare_nowPlaying (num_or position num_zero))).
  { apply frame_prepare_nowPlaying with (Allowed := λ _, True); by intros. }
  unfold startPlayback, adopt_first_song. run. simpl. subst r.
  destruct (ref_truthy (nowPlaying s)) eqn:Hnp; run.
  - by apply Hk.
  - simpl. destruct (ref_truthy (songs_at (queue s) 0)); run; [by apply Hk|done].
Qed.

(** ** Changing song *)

(** The callback of [startPlayback] writes to the now-playing song
    only. *)
Lemma startPlayback_handler_others l (h : gmap nat Song) position ev :
  Keeps (λ s', nowPlaying s' = RSong l ∧ ∀ l', l' ≠ l → heap s' !! l' = h !! l')
    (startPlayback_handler position ev).
Proof.
  intros s [Hnp Hh]. unfold startPlayback_handler.
  destruct (truthy (pe_err ev)); [done|]. run. rewrite Hnp.
  unfold deref. run. destruct (heap s !! l) as [sg|] eqn:Hl; run; [|done].
  cbv beta iota. unfold playbackStarted. run. simpl. split; [done|].
  intros l' Hl'. rewrite lookup_alter_ne; [by apply Hh|done].
Qed.

Lemma startPlayback_others l (h : gmap nat Song) position :
  Keeps (λ s', nowPlaying s' = RSong l ∧ ∀ l', l' ≠ l → heap s' !! l' = h !! l')
    (startPlayback position).
Proof.
  intros s [Hnp Hh]. unfold startPlayback, adopt_first_song, prepare_nowPlaying.
  run. simpl. rewrite Hnp. cbn [ref_truthy]. run. simpl. rewrite Hnp.
  unfold deref. run. simpl. destruct (heap s !! l) as [sg|] eqn:Hl; run; [|done].
  cbv beta iota. unfold song_prepare. run.
  apply keeps_for_each; [intros ev; apply startPlayback_handler_others|done].
Qed.

Lemma uuid_is_true (h : gmap nat Song) u l :
  uuid_is h u l = true → ∃ sg, h !! l = Some sg ∧ u = VStr (uuid sg).
Proof.
  unfold uuid_is. destruct (h !! l) as [sg|]; [|done].
  destruct u; try done. intros <-%String.eqb_eq. eauto.
Qed.

(** X8.  [changeSong(uuid)] with a uuid that the queue has: the first queued
    song with this uuid becomes the now-playing song; [stopPlayback] is not
    called, so that no other song is written to: the song played before
    keeps its playback record. *)
Theorem changeSong_found u l s :
  List.find (uuid_is (heap s) u) (songs (queue s)) = Some l →
  (∃ sg, heap s !! l = Some sg ∧ u = VStr (uuid sg))
  ∧ nowPlaying (changeSong u s).2 = RSong l
  ∧ Emits (λ e, e ≠ EvEnter MStopPlayback) (trace s) (changeSong u s).2
  ∧ ∀ l', l' ≠ l → heap (changeSong u s).2 !! l' = heap s !! l'.
Proof.
  intros Hfind. split.
  { apply List.find_some in Hfind as [_ Hu]. by apply uuid_is_true. }
  unfold changeSong. run.
  rewrite (bind_normal _ _ _ _ _ (findSong_run _ _)). simpl.
  rewrite Hfind. run. cbn [ref_truthy]. run.
  match goal with |- context [startPlayback num_zero ?s0] => set (s1 := s0) end.
  destruct (startPlayback_others l (heap s) num_zero s1) as [Hnp Hh]; [done|].
  split; [done|]. split; [|done].
  set (P := λ e, e ≠ EvEnter MStopPlayback).
  assert (Hk : Keeps (W:=W) (Emits P (trace s)) (startPlayback num_zero)).
  { apply frame_startPlayback with (Allowed := P); try done.
    intros; by apply emits_emit. }
  apply Hk. exists [EvEnter MChangeSong]. split; [done|]. by constructor.
Qed.

(** ** End of a song, continued *)

(** X9.  [songEnd()] with a song after the now-playing one: after the
    [onSongEnd] hooks, [changeSong] is called with the uuid of that song,
    whatever [repeat] is, and [prepareSongs()] follows.  The index of the
    now-playing song is that of the first queued song with its uuid, and -1
    when the queue has none, in which case the song taken is the first
    queued one. *)
Theorem songEnd_next_song l sg l1 sg1 s :
  nowPlaying s = RSong l →
  heap s !! l = Some sg →
  songs_at (queue s)
    (find_index (uuid_is (heap s) (VStr (uuid sg))) (songs (queue s)) 0 + 1)
  = RSong l1 →
  heap s !! l1 = Some sg1 →
  songEnd s
  = bind (callHooks "onSongEnd" [VSong l])
      (λ _, bind (changeSong (VStr (uuid sg1))) (λ _, prepareSongs)) s.
Proof.
  intros Hnp Hl Hnext Hl1.
  unfold songEnd, getNowPlaying. run. rewrite Hnp. cbn [ref_truthy ref_val].
  rewrite bind_assoc. erewrite bind_normal; [|by apply deref_song].
  cbv beta iota. unfold findSongIndex at 1. run.
  erewrite bind_normal; [|by apply deref_song].
  apply (bind_keeps_ext (same_player s));
    [apply callHooks_same_player|done|].
  intros _ s1 (Hq1 & Hh1 & _). run.
  rewrite Hq1, Hnext. cbn [ref_truthy]. rewrite bind_assoc.
  erewrite bind_normal; [|apply deref_song; by rewrite Hh1]. done.
Qed.

(** X10.  [songEnd()] without a now-playing song reads [np.uuid] for the log
    line and throws a TypeError; no hook runs and nothing changes. *)
Theorem songEnd_without_song s :
  ref_truthy (nowPlaying s) = false →
  ∃ msg, songEnd s = (Throw (VTypeError msg), s).
Proof.
  intros Hnp. unfold songEnd, getNowPlaying. run. rewrite Hnp. run.
  destruct (nowPlaying s); [| |done]; simpl; eauto.
Qed.

(** ** The series of [prepareSongs] *)

Lemma find_index_none {A} (f : A → bool) (ls : list A) i :
  (∀ x, f x = false) → find_index f ls i = (-1)%Z.
Proof.
  intros Hf. revert i. induction ls as [|x ls IH]; intros i; simpl; [done|].
  by rewrite Hf.
Qed.

(** X11.  The second task of [prepareSongs] looks the current song up by
    [findSongIndex(currentSong)], with the Song object where a uuid is
    compared: the index is -1, and the song it prepares is the first queued
    one, whatever the current song is; with an empty queue it ends the
    series. *)
Theorem prepareSongs_next_is_first currentSong s :
  prepareSongs_next currentSong s
  = match songs (queue s) !! 0 with
    | Some l0 => prepareSong_with invoke_last (RSong l0) CbSeries2 s
    | None => (Normal tt, s)
    end.
Proof.
  unfold prepareSongs_next, findSongIndex. run.
  rewrite find_index_none.
  2:{ intros x. unfold uuid_is. destruct (heap s !! x); [|done].
      by destruct currentSong. }
  change (-1 + 1)%Z with 0%Z.
  change (songs_at (queue s) 0)
    with (match songs (queue s) !! 0 with Some l => RSong l | None => RUndefined end).
  by destruct (songs (queue s) !! 0).
Qed.

(** ** The prepare watchdog *)

Lemma bind_setTimeout {B} a (k : nat → M B) s :
  bind (setTimeout a) k s
  = k (nextTimer s)
      (set_timers (<[nextTimer s := a]> (timers s)) (S (nextTimer s)) s).
Proof. reflexivity. Qed.

Lemma setPrepareTimeout_run l sg s :
  heap s !! l = Some sg →
  setPrepareTimeout l s
  = (Normal tt,
     set_heap (alter (set_prepareTimeout (Some (nextTimer s))) l (heap s))
       (set_timers
          (<[nextTimer s := TPrepareTimeout l (songPrepareTimeout (config s))]>
             (timers (clear_timer (prepareTimeout sg) s)))
          (S (nextTimer s)) (clear_timer (prepareTimeout sg) s))).
Proof.
  intros Hl. unfold setPrepareTimeout.
  erewrite bind_normal; [|by apply deref_song]. cbv beta iota. run.
  rewrite bind_setTimeout. reflexivity.
Qed.

Lemma clearPrepareTimeout_run l sg s :
  heap s !! l = Some sg →
  clearPrepareTimeout l s
  = (Normal tt,
     set_heap (alter (set_prepareTimeout None) l (heap s))
       (clear_timer (prepareTimeout sg) s)).
Proof.
  intros Hl. unfold clearPrepareTimeout.
  erewrite bind_normal; [|by apply deref_song]. cbv beta iota. by run.
Qed.

(** [prepareSong] on a song that is not prepared and reports nothing
    before its [prepare] returns: the song is handed to [prepare] and the
    watchdog is armed with [config.songPrepareTimeout], in place of the one
    the song had. *)
Lemma prepareSong_arms l sg cb s :
  heap s !! l = Some sg →
  isPrepared sg = false →
  prepareSync sg = [] →
  prepareSong (RSong l) cb s
  = setPrepareTimeout l
      (set_trace (trace s ++ [EvSongPrepare l (HPrepareSong l cb)]) s).
Proof.
  intros Hl Hprep Hsync. unfold prepareSong, prepareSong_with. cbn [ref_truthy].
  erewrite bind_normal; [|by apply deref_song]. cbv beta iota.
  rewrite Hprep. unfold song_prepare. rewrite Hsync. by run.
Qed.

(** X12.  The watchdog of a song that completes.  [prepareSong(song, done)] on a
    song that is not prepared arms a watchdog; when the song then reports
    completion (without a chunk), the watchdog is cleared and [done()] is
    called, and the timer, were it to expire, does nothing. *)
Theorem watchdog_cleared_on_completion l sg id ev s :
  heap s !! l = Some sg →
  isPrepared sg = false →
  prepareSync sg = [] →
  no_error ev →
  truthy (pe_chunk ev) = false →
  truthy (pe_done ev) = true →
  ∃ s1 s2,
    prepareSong (RSong l) (CbUser id) s = (Normal tt, s1)
    ∧ timers s1 !! nextTimer s
      = Some (TPrepareTimeout l (songPrepareTimeout (config s)))
    ∧ deliver (HPrepareSong l (CbUser id)) ev s1 = (Normal tt, s2)
    ∧ timers s2 !! nextTimer s = None
    ∧ prepareTimeout <$> heap s2 !! l = Some None
    ∧ prepareTimeout_fires (nextTimer s) s2 = (Normal tt, s2)
    ∧ trace s2
      = trace s ++ [EvSongPrepare l (HPrepareSong l (CbUser id)); EvCallback id []].
Proof.
  intros Hl Hprep Hsync Herr Hchunk Hdone.
  rewrite (prepareSong_arms l sg _ s Hl Hprep Hsync).
  rewrite (setPrepareTimeout_run l sg) by done.
  eexists. eexists. split; [reflexivity|]. split.
  { simpl. by rewrite lookup_insert_eq. }
  assert (Hrun : ∀ s1 sg1, heap s1 !! l = Some sg1 →
            deliver (HPrepareSong l (CbUser id)) ev s1
            = (Normal tt,
               set_trace (trace s1 ++ [EvCallback id []])
                 (set_heap (alter (set_prepareTimeout None) l (heap s1))
                    (clear_timer (prepareTimeout sg1) s1)))).
  { intros s1 sg1 Hl1. unfold deliver, prepareSong_handler, prepareSong_handler_with.
    rewrite Herr, Hchunk, Hdone. cbn [when]. run.
    by rewrite (bind_normal _ _ _ _ _ (clearPrepareTimeout_run l sg1 _ Hl1)). }
  split.
  { apply Hrun with (sg1 := set_prepareTimeout (Some (nextTimer s)) sg).
    simpl. by rewrite lookup_alter_eq, Hl. }
  simpl. split; [by rewrite lookup_delete_eq|].
  split; [by rewrite !lookup_alter_eq, Hl|].
  split; [|by rewrite <- app_assoc].
  unfold prepareTimeout_fires. run. simpl. by rewrite lookup_delete_eq.
Qed.

(** X13.  The watchdog of a song that does not complete.  When the timer armed
    by [prepareSong] expires, the song's [cancelPrepare] is called with
    'prepare timeout' and the song forgets the timer; the completion
    callback is not called. *)
Theorem watchdog_cancels_on_timeout l sg cb s :
  heap s !! l = Some sg →
  isPrepared sg = false →
  prepareSync sg = [] →
  cancelPrepare sg = true →
  ∃ s1 s2,
    prepareSong (RSong l) cb s = (Normal tt, s1)
    ∧ prepareTimeout <$> heap s1 !! l = Some (Some (nextTimer s))
    ∧ prepareTimeout_fires (nextTimer s) s1 = (Normal tt, s2)
    ∧ timers s2 !! nextTimer s = None
    ∧ prepareTimeout <$> heap s2 !! l = Some None
    ∧ trace s2
      = trace s ++ [EvSongPrepare l (HPrepareSong l cb);
                    EvCancelPrepare l "prepare timeout"].
Proof.
  intros Hl Hprep Hsync Hcancel.
  rewrite (prepareSong_arms l sg _ s Hl Hprep Hsync).
  rewrite (setPrepareTimeout_run l sg) by done.
  eexists. eexists. split; [reflexivity|]. split.
  { simpl. by rewrite lookup_alter_eq, Hl. }
  unfold prepareTimeout_fires. run. simpl. rewrite lookup_insert_eq. run.
  erewrite bind_normal.
  2:{ apply deref_song. simpl. by rewrite lookup_alter_eq, Hl. }
  cbv beta iota. simpl. rewrite Hcancel. run. unfold update_song.
  split; [reflexivity|]. simpl.
  split; [by rewrite lookup_delete_eq|].
  split; [by rewrite !lookup_alter_eq, Hl|].
  by rewrite <- app_assoc.
Qed.

(** ** The watchdogs of all songs

    [watchdogs_recorded] is kept by every method: a timer is only armed by
    [setPrepareTimeout], which first clears the one that the song
    records. *)

Section Watchdogs.

#[local] Abbreviation WD := (watchdogs_recorded (W:=W)).

Lemma wd_song l (f : Song → Song) s :
  (∀ sg, prepareTimeout (f sg) = prepareTimeout sg) →
  WD s → WD (set_heap (alter f l (heap s)) s).
Proof.
  intros Hf H t l' d Ht. destruct (H t l' d Ht) as (Hlt & sg & Hl' & Hpt).
  split; [done|]. simpl. destruct (decide (l' = l)) as [->|Hne].
  - exists (f sg). by rewrite lookup_alter_eq, Hl', Hf.
  - exists sg. by rewrite lookup_alter_ne.
Qed.

Lemma wd_delete t0 s :
  WD s → WD (set_timers (delete t0 (timers s)) (nextTimer s) s).
Proof.
  intros H t l d Ht. simpl in Ht. apply lookup_delete_Some in Ht as [_ Ht].
  exact (H t l d Ht).
Qed.

Lemma wd_clear handle s : WD s → WD (clear_timer handle s).
Proof. destruct handle as [t0|]; [apply wd_delete|done]. Qed.

(** Once the timer that a song records is gone, no timer is left for the
    song, which may forget it. *)
Lemma wd_forget t0 l sg s :
  WD s →
  heap s !! l = Some sg →
  (∀ t d, timers s !! t = Some (TPrepareTimeout l d) → t = t0) →
  WD (set_heap (alter (set_prepareTimeout None) l (heap s))
        (set_timers (delete t0 (timers s)) (nextTimer s) s)).
Proof.
  intros H Hl Honly t l' d Ht. simpl in Ht.
  apply lookup_delete_Some in Ht as [Hne Ht].
  destruct (H t l' d Ht) as (Hlt & sg' & Hl' & Hpt). split; [done|]. simpl.
  destruct (decide (l' = l)) as [->|Hl'l].
  - by destruct Hne; symmetry; eapply Honly.
  - exists sg'. by rewrite lookup_alter_ne.
Qed.

Lemma wd_recorded_only l sg s :
  WD s → heap s !! l = Some sg →
  ∀ t d, timers s !! t = Some (TPrepareTimeout l d) → prepareTimeout sg = Some t.
Proof.
  intros H Hl t d Ht. destruct (H t l d Ht) as (_ & sg' & Hl' & Hpt). congruence.
Qed.

Lemma wd_clearPrepareTimeout l : Keeps WD (clearPrepareTimeout l).
Proof.
  intros s H. unfold clearPrepareTimeout, deref. run.
  destruct (heap s !! l) as [sg|] eqn:Hl; run; [|done]. cbv beta iota. run.
  unfold update_song, modify. simpl.
  destruct (prepareTimeout sg) as [t0|] eqn:Hpt.
  - apply (wd_forget t0 l sg s H Hl). intros t d Ht.
    pose proof (wd_recorded_only l sg s H Hl t d Ht). congruence.
  - intros t l' d Ht. destruct (H t l' d Ht) as (Hlt & sg' & Hl' & Hrec).
    split; [done|]. simpl. destruct (decide (l' = l)) as [->|Hl'l].
    + congruence.
    + exists sg'. by rewrite lookup_alter_ne.
Qed.

Lemma wd_setPrepareTimeout l : Keeps WD (setPrepareTimeout l).
Proof.
  intros s H. unfold setPrepareTimeout, deref. run.
  destruct (heap s !! l) as [sg|] eqn:Hl; run; [|done]. cbv beta iota. run.
  rewrite bind_setTimeout. unfold update_song, modify.
  intros t l' d Ht. simpl in Ht |- *.
  destruct (decide (t = nextTimer s)) as [->|Hne].
  - rewrite lookup_insert_eq in Ht. injection Ht as <- <-. split; [lia|].
    exists (set_prepareTimeout (Some (nextTimer s)) sg).
    by rewrite lookup_alter_eq, Hl.
  - rewrite lookup_insert_ne in Ht by done.
    assert (Hboth : timers s !! t = Some (TPrepareTimeout l' d)
                    ∧ prepareTimeout sg ≠ Some t).
    { destruct (prepareTimeout sg) as [t0|]; [|done].
      apply lookup_delete_Some in Ht as [? ?]. split; [done|congruence]. }
    destruct Hboth as [Hold Hpt].
    destruct (H t l' d Hold) as (Hlt & sg' & Hl' & Hrec). split; [lia|].
    destruct (decide (l' = l)) as [->|Hl'l].
    + congruence.
    + exists sg'. by rewrite lookup_alter_ne.
Qed.

Lemma wd_prepareTimeout_fires t : Keeps WD (prepareTimeout_fires t).
Proof.
  intros s H. unfold prepareTimeout_fires. run.
  destruct (timers s !! t) as [[l d]|] eqn:Ht; [|done]. run.
  destruct (H t l d Ht) as (Hlt & sg & Hl & Hpt).
  erewrite bind_normal; [|by apply deref_song]. cbv beta iota.
  assert (Hafter : WD (set_heap (alter (set_prepareTimeout None) l (heap s))
                         (set_timers (delete t (timers s)) (nextTimer s) s))).
  { apply (wd_forget t l sg s H Hl). intros t' d' Ht'.
    pose proof (wd_recorded_only l sg s H Hl t' d' Ht'). congruence. }
  destruct (cancelPrepare sg); run; [exact Hafter|by apply wd_delete].
Qed.

Lemma wd_update_song l (f : Song → Song) :
  (∀ sg, prepareTimeout (f sg) = prepareTimeout sg) → Keeps WD (update_song l f).
Proof. intros Hf s. by apply wd_song. Qed.

Lemma wd_clearTimeout handle : Keeps WD (clearTimeout handle).
Proof. intros s. apply wd_clear. Qed.

Lemma wd_callHooks hook argv : Keeps WD (callHooks hook argv).
Proof. apply frame_callHooks with (Allowed := λ _, True); by intros. Qed.

Lemma wd_adopt_first_song : Keeps WD adopt_first_song.
Proof. apply frame_adopt_first_song. by intros. Qed.

Lemma wd_invoke_last cb args : Keeps WD (invoke_last cb args).
Proof. apply frame_invoke_last with (Allowed := λ _, True); by intros. Qed.

Lemma wd_init mods : Keeps WD (init mods).
Proof. apply frame_init with (Allowed := λ _, True); by intros. Qed.

Lemma wd_getPlaylists cb : Keeps WD (getPlaylists cb).
Proof. apply frame_getPlaylists with (Allowed := λ _, True); by intros. Qed.

Lemma wd_searchBackends q cb : Keeps WD (searchBackends q cb).
Proof. apply frame_searchBackends with (Allowed := λ _, True); by intros. Qed.

Lemma wd_report j r : Keeps WD (report j r).
Proof. apply frame_report with (Allowed := λ _, True); by intros. Qed.

Lemma wd_answer id results : Keeps WD (answer id results).
Proof. apply frame_answer with (Allowed := λ _, True); by intros. Qed.

Create HintDb wd discriminated.

#[local] Hint Resolve wd_clearPrepareTimeout wd_setPrepareTimeout
  wd_clearTimeout wd_callHooks wd_adopt_first_song wd_invoke_last
  frame_deref frame_findSongIndex frame_findSong frame_uuidAtIndex
  frame_getLength : wd.

Ltac wd :=
  keeps;
  try solve [ assumption
            | apply wd_update_song; by intros []
            | eauto with wd ].

Lemma wd_playbackStarted l pos : Keeps WD (playbackStarted l pos).
Proof. unfold playbackStarted. wd. Qed.
#[local] Hint Resolve wd_playbackStarted : wd.

Lemma wd_stopPlayback pause : Keeps WD (stopPlayback pause).
Proof. unfold stopPlayback. wd. Qed.

Lemma wd_startPlayback_handler position ev :
  Keeps WD (startPlayback_handler position ev).
Proof. unfold startPlayback_handler. wd. Qed.

Lemma wd_startPlayback position : Keeps WD (startPlayback position).
Proof.
  unfold startPlayback, prepare_nowPlaying, song_prepare. wd.
  apply wd_startPlayback_handler.
Qed.
#[local] Hint Resolve wd_stopPlayback wd_startPlayback : wd.

Lemma wd_changeSong u : Keeps WD (changeSong u).
Proof. unfold changeSong. wd. Qed.
#[local] Hint Resolve wd_changeSong : wd.

Lemma wd_prepareError l err : Keeps WD (prepareError l err).
Proof. unfold prepareError. wd. Qed.

Lemma wd_prepareProgCallback l b d : Keeps WD (prepareProgCallback l b d).
Proof. unfold prepareProgCallback. wd. Qed.
#[local] Hint Resolve wd_prepareError wd_prepareProgCallback : wd.

Section WatchdogsInvoke.

Variable invoke : Callback → list Val → @M W unit.
Hypothesis wd_invoke : ∀ cb args, Keeps WD (invoke cb args).

Lemma wd_prepareErrCallback_with l err cb :
  Keeps WD (prepareErrCallback_with invoke l err cb).
Proof. unfold prepareErrCallback_with. wd. Qed.

Lemma wd_prepareSong_handler_with l cb ev :
  Keeps WD (prepareSong_handler_with invoke l cb ev).
Proof. unfold prepareSong_handler_with. wd. Qed.

Lemma wd_prepareSong_with song cb : Keeps WD (prepareSong_with invoke song cb).
Proof.
  unfold prepareSong_with, song_prepare. wd.
  apply wd_prepareSong_handler_with.
Qed.

End WatchdogsInvoke.

Lemma wd_prepareSongs_next cur : Keeps WD (prepareSongs_next cur).
Proof.
  unfold prepareSongs_next. wd. apply wd_prepareSong_with, wd_invoke_last.
Qed.

Lemma wd_invoke cb args : Keeps WD (invoke cb args).
Proof.
  unfold invoke. wd; first [apply wd_prepareSongs_next | apply wd_invoke_last].
Qed.

Lemma wd_prepareSong song cb : Keeps WD (prepareSong song cb).
Proof. apply wd_prepareSong_with, wd_invoke. Qed.
#[local] Hint Resolve wd_prepareSong : wd.

Lemma wd_prepareSongs : Keeps WD prepareSongs.
Proof. unfold prepareSongs, prepareSongs_first, getNowPlaying. wd. Qed.
#[local] Hint Resolve wd_prepareSongs : wd.

Lemma wd_songEnd : Keeps WD songEnd.
Proof. unfold songEnd, getNowPlaying. wd. Qed.

Lemma wd_setVolume v u : Keeps WD (setVolume v u).
Proof. unfold setVolume. wd. Qed.

Lemma wd_run_op o : Keeps WD (run_op o).
Proof.
  destruct o; simpl;
    [ apply wd_init
    | wd
    | apply wd_stopPlayback
    | apply wd_startPlayback
    | apply wd_changeSong
    | apply wd_songEnd
    | apply wd_prepareSong
    | apply wd_prepareSongs
    | apply wd_prepareError
    | apply wd_prepareErrCallback_with, wd_invoke
    | wd; apply wd_getPlaylists
    | wd; apply wd_searchBackends
    | apply wd_setVolume
    | destruct h; simpl;
        [apply wd_startPlayback_handler
        |apply wd_prepareSong_handler_with, wd_invoke]
    | apply wd_prepareTimeout_fires
    | apply wd_report
    | apply wd_answer ].
Qed.

Lemma wd_run_ops os s : WD s → WD (run_ops os s).
Proof.
  revert s. induction os as [|o os IH]; intros s H; [done|].
  simpl. by apply IH, wd_run_op.
Qed.

End Watchdogs.

(** X14.  A player that was made by the constructor has, after any sequence of
    operations, timer expiries and reports, at most one pending watchdog
    per song, which is the one that the song records in [prepareTimeout];
    handles of pending timers are not handed out again. *)
Theorem one_watchdog_per_song (options : @Options W) defaultConfig h now w os :
  let s := run_ops os (constructor options defaultConfig h now w) in
  watchdogs_recorded s
  ∧ ∀ t t' l d d',
      timers s !! t = Some (TPrepareTimeout l d) →
      timers s !! t' = Some (TPrepareTimeout l d') →
      t = t'.
Proof.
  intros s.
  assert (H : watchdogs_recorded s).
  { apply wd_run_ops. intros t l d Ht. simpl in Ht. by rewrite lookup_empty in Ht. }
  split; [done|]. intros t t' l d d' Ht Ht'.
  destruct (H t l d Ht) as (_ & sg & Hl & Hpt).
  destruct (H t' l d' Ht') as (_ & sg' & Hl' & Hpt'). congruence.
Qed.

(** ** What no operation writes *)

Lemma settings_run_op s0 o :
  Keeps (λ s, queue s = queue s0 ∧ repeat s = repeat s0 ∧ config s = config s0
              ∧ songEndTimeout s = songEndTimeout s0) (run_op o).
Proof.
  destruct (match o with OpSetVolume _ _ => true | _ => false end) eqn:Hkind.
  - destruct o; try done. simpl. unfold setVolume. keeps; [done|].
    apply frame_callHooks with (Allowed := λ _, True); by intros.
  - apply frame_run_op with (Allowed := λ _, True); try by intros.
    by intros v u ->.
Qed.

(** X15.  No method assigns the queue, [repeat], the configuration or
    [songEndTimeout]: they are what the constructor was given, after any
    sequence of operations, timer expiries and reports.  In particular the
    song-end timer that [stopPlayback] and [changeSong] clear is never set
    by the player. *)
Theorem settings_never_written os s :
  queue (run_ops os s) = queue s
  ∧ repeat (run_ops os s) = repeat s
  ∧ config (run_ops os s) = config s
  ∧ songEndTimeout (run_ops os s) = songEndTimeout s.
Proof.
  assert (H : ∀ s', queue s' = queue s ∧ repeat s' = repeat s
                    ∧ config s' = config s
                    ∧ songEndTimeout s' = songEndTimeout s →
              queue (run_ops os s') = queue s ∧ repeat (run_ops os s') = repeat s
              ∧ config (run_ops os s') = config s
              ∧ songEndTimeout (run_ops os s') = songEndTimeout s).
  { induction os as [|o os IH]; intros s' Hs'; [done|].
    simpl. apply IH. by apply settings_run_op. }
  by apply H.
Qed.

(** ** Playlists of backends without [getPlaylists] *)

Lemma getPlaylists_lacking_loop (bs0 bs : list (string * Backend)) cb j :
  Forall (λ kb, b_getPlaylists kb.2 = None) bs →
  ∀ k s,
    backends s = bs0 →
    joins s !! j = Some (mkJoin k [] cb) →
    k + length bs = length bs0 →
    ∃ s',
      for_each bs (λ kb, getPlaylists_backend j kb.2) s = (Normal tt, s')
      ∧ trace s'
        = trace s ++ (if decide (bs = []) then [] else [EvJoinCallback cb []]).
Proof.
  induction 1 as [|[name b] bs Hb Hbs IH]; intros k s Hback Hj Hlen.
  - exists s. simpl. by rewrite app_nil_r.
  - cbn [for_each]. simpl in Hb. unfold getPlaylists_backend at 1. cbn [snd].
    rewrite Hb. unfold update_join, join_check. run. simpl.
    rewrite list_lookup_alter_eq, Hj, Hback. simpl.
    destruct (decide (length bs0 ≤ S k)) as [Hle|Hgt]; run.
    + assert (bs = []) as -> by (destruct bs; [done|simpl in Hlen; lia]).
      eexists. split; [reflexivity|]. done.
    + match goal with |- context [for_each _ _ ?s1] =>
        destruct (IH (S k) s1) as (s' & Hrun & Htr)
      end; [done|by simpl; rewrite list_lookup_alter_eq, Hj|simpl in Hlen; lia|].
      exists s'. split; [done|]. rewrite Htr. simpl.
      destruct (decide (bs = [])) as [->|_]; [simpl in Hlen; lia|done].
Qed.

(** X16.  [getPlaylists(callback)] when no backend has a [getPlaylists]
    capability (and there is a backend): no backend is asked, and the
    callback is called once, with an empty result, before [getPlaylists]
    returns. *)
Theorem getPlaylists_without_capability cb s :
  backends s ≠ [] →
  Forall (λ kb, b_getPlaylists kb.2 = None) (backends s) →
  ∃ j s',
    getPlaylists cb s = (Normal j, s')
    ∧ trace s' = trace s ++ [EvJoinCallback cb []].
Proof.
  intros Hne Hnone. destruct (new_join_run cb s) as [Hnew _].
  unfold getPlaylists. rewrite (bind_normal _ _ _ _ _ Hnew). run. simpl.
  match goal with |- context [bind _ _ ?s1] =>
    destruct (getPlaylists_lacking_loop (backends s) (backends s) cb
                (length (joins s)) Hnone 0 s1) as (s' & Hrun & Htr)
  end; [done|by simpl; rewrite list_lookup_middle|done|].
  rewrite (bind_normal _ _ _ _ _ Hrun). run.
  exists (length (joins s)), s'. split; [done|].
  rewrite Htr. simpl. by destruct (decide (backends s = [])).
Qed.

(** ** Progress reports *)

(** A dispatch to hooks that return is the dispatch of the specification:
    it changes the plugins' world and the trace, and nothing else. *)
Lemma callHooks_returns hook argv s :
  hooks_return (plugins s) hook →
  ∃ v, callHooks hook argv s = (Normal v, (fired hook argv s).2).
Proof.
  intros Hret.
  destruct (callHooks_find_returns (plugins s) hook argv Hret VNull s)
    as (v & s' & Hrun).
  exists v. rewrite (callHooks_fired hook argv s (proj1 Hret)).
  pose proof (callHooks_fired hook argv s (proj1 Hret)) as Hf.
  unfold callHooks in Hf. rewrite bind_gets, Hrun in Hf.
  destruct (fired hook argv s) as [r sf]. by injection Hf as <- <-.
Qed.

(** X20.  A report with a chunk that is not the last: [onPrepareProgress]
    is dispatched with the song, the chunk and [done] to the plugins that
    expose it — each hook function is called, in order, up to the first
    that returns a truthy value —, and the watchdog is armed afresh in
    place of the one the song had; the completion callback is not
    called. *)
Theorem progress_rearms_watchdog l sg cb ev s :
  heap s !! l = Some sg →
  no_error ev →
  truthy (pe_chunk ev) = true →
  truthy (pe_done ev) = false →
  playback_pending sg s = false →
  hooks_return (plugins s) "onPrepareProgress" →
  let argv := [VSong l; pe_chunk ev; pe_done ev] in
  let d := dispatch (hook_fns (plugins s) "onPrepareProgress") argv (world s) in
  ∃ s',
    deliver (HPrepareSong l cb) ev s = (Normal tt, s')
    ∧ trace s'
      = trace s ++ hook_events "onPrepareProgress" argv
                     (exposing (plugins s) "onPrepareProgress") d.1
    ∧ world s' = d.2
    ∧ timers s'
      = <[nextTimer s := TPrepareTimeout l (songPrepareTimeout (config s))]>
          (timers (clear_timer (prepareTimeout sg) s))
    ∧ prepareTimeout <$> heap s' !! l = Some (Some (nextTimer s)).
Proof.
  intros Hl Herr Hchunk Hdone Hpend Hret argv d.
  unfold deliver, prepareSong_handler, prepareSong_handler_with.
  rewrite Herr, Hchunk, Hdone. cbn [when]. unfold prepareProgCallback. run.
  erewrite bind_normal; [|by apply deref_song]. cbv beta iota. run.
  rewrite Hpend. cbn [andb when]. run.
  destruct (callHooks_returns "onPrepareProgress" argv s Hret) as (v & Hrun).
  fold argv. rewrite (bind_normal _ _ _ _ _ Hrun). rewrite Hdone.
  erewrite bind_normal; [|by apply (setPrepareTimeout_run l sg)].
  eexists. split; [reflexivity|]. simpl.
  split; [done|]. split; [done|]. split; [done|]. by rewrite lookup_alter_eq, Hl.
Qed.

(** X21.  The last report, with a chunk: [onPrepareProgress], then
    [onSongPrepared] are dispatched to the plugins that expose them, each
    hook function being called in order, up to the first that returns a
    truthy value, the second dispatch in the plugins' world that the first
    left; the song loses [cancelPrepare], its entry in the backend's
    registry is removed, the watchdog is cleared, and the completion
    callback is called, last. *)
Theorem final_chunk_completes l sg id ev s :
  heap s !! l = Some sg →
  no_error ev →
  truthy (pe_chunk ev) = true →
  truthy (pe_done ev) = true →
  playback_pending sg s = false →
  is_Some (songsPreparing s !! (backendName sg, songId sg)) →
  hooks_return (plugins s) "onPrepareProgress" →
  hooks_return (plugins s) "onSongPrepared" →
  let argv := [VSong l; pe_chunk ev; pe_done ev] in
  let d1 := dispatch (hook_fns (plugins s) "onPrepareProgress") argv (world s) in
  let d2 := dispatch (hook_fns (plugins s) "onSongPrepared") [VSong l] d1.2 in
  ∃ s',
    deliver (HPrepareSong l (CbUser id)) ev s = (Normal tt, s')
    ∧ trace s'
      = trace s
        ++ hook_events "onPrepareProgress" argv
             (exposing (plugins s) "onPrepareProgress") d1.1
        ++ hook_events "onSongPrepared" [VSong l]
             (exposing (plugins s) "onSongPrepared") d2.1
        ++ [EvCallback id []]
    ∧ world s' = d2.2
    ∧ songsPreparing s' !! (backendName sg, songId sg) = None
    ∧ heap s' !! l = Some (set_prepareTimeout None (set_cancelPrepare false sg))
    ∧ timers s' = timers (clear_timer (prepareTimeout sg) s).
Proof.
  intros Hl Herr Hchunk Hdone Hpend [b Hreg] Hret1 Hret2 argv d1 d2.
  unfold deliver, prepareSong_handler, prepareSong_handler_with.
  rewrite Herr, Hchunk, Hdone. cbn [when]. unfold prepareProgCallback. run.
  erewrite bind_normal; [|by apply deref_song]. cbv beta iota. run.
  rewrite Hpend. cbn [andb when]. run.
  destruct (callHooks_returns "onPrepareProgress" argv s Hret1) as (v1 & Hrun1).
  fold argv. rewrite (bind_normal _ _ _ _ _ Hrun1). rewrite Hdone. run.
  destruct (callHooks_returns "onSongPrepared" [VSong l]
              (fired "onPrepareProgress" argv s).2 Hret2) as (v2 & Hrun2).
  rewrite (bind_normal _ _ _ _ _ Hrun2). unfold update_song at 1. run.
  simpl. rewrite Hreg. run.
  erewrite bind_normal.
  2:{ apply (clearPrepareTimeout_run l (set_cancelPrepare false sg)).
      simpl. by rewrite lookup_alter_eq, Hl. }
  erewrite bind_normal.
  2:{ apply (clearPrepareTimeout_run l
               (set_prepareTimeout None (set_cancelPrepare false sg))).
      simpl. by rewrite !lookup_alter_eq, Hl. }
  eexists. split; [reflexivity|]. simpl.
  split; [by rewrite <- !app_assoc|]. split; [done|].
  split; [by rewrite lookup_delete_eq|].
  split; [by rewrite !lookup_alter_eq, Hl|done].
Qed.

(** X22.  The last report, with a chunk, for a song that the backend's
    registry does not have: [onPrepareProgress], then [onSongPrepared] are
    dispatched as above, and then clearing the registry entry's [songData]
    throws a TypeError; the watchdog stays armed and the completion
    callback is not called. *)
Theorem final_chunk_without_registry_entry l sg cb ev s :
  heap s !! l = Some sg →
  no_error ev →
  truthy (pe_chunk ev) = true →
  truthy (pe_done ev) = true →
  playback_pending sg s = false →
  songsPreparing s !! (backendName sg, songId sg) = None →
  hooks_return (plugins s) "onPrepareProgress" →
  hooks_return (plugins s) "onSongPrepared" →
  let argv := [VSong l; pe_chunk ev; pe_done ev] in
  let d1 := dispatch (hook_fns (plugins s) "onPrepareProgress") argv (world s) in
  let d2 := dispatch (hook_fns (plugins s) "onSongPrepared") [VSong l] d1.2 in
  ∃ s',
    deliver (HPrepareSong l cb) ev s
    = (Throw (VTypeError "Cannot set properties of undefined (setting 'songData')"),
       s')
    ∧ trace s'
      = trace s
        ++ hook_events "onPrepareProgress" argv
             (exposing (plugins s) "onPrepareProgress") d1.1
        ++ hook_events "onSongPrepared" [VSong l]
             (exposing (plugins s) "onSongPrepared") d2.1
    ∧ world s' = d2.2
    ∧ timers s' = timers s
    ∧ prepareTimeout <$> heap s' !! l = Some (prepareTimeout sg).
Proof.
  intros Hl Herr Hchunk Hdone Hpend Hreg Hret1 Hret2 argv d1 d2.
  unfold deliver, prepareSong_handler, prepareSong_handler_with.
  rewrite Herr, Hchunk, Hdone. cbn [when]. unfold prepareProgCallback. run.
  erewrite bind_normal; [|by apply deref_song]. cbv beta iota. run.
  rewrite Hpend. cbn [andb when]. run.
  destruct (callHooks_returns "onPrepareProgress" argv s Hret1) as (v1 & Hrun1).
  fold argv. rewrite (bind_normal _ _ _ _ _ Hrun1). rewrite Hdone. run.
  destruct (callHooks_returns "onSongPrepared" [VSong l]
              (fired "onPrepareProgress" argv s).2 Hret2) as (v2 & Hrun2).
  rewrite (bind_normal _ _ _ _ _ Hrun2). unfold update_song at 1. run.
  simpl. rewrite Hreg. run.
  eexists. split; [reflexivity|]. simpl.
  split; [by rewrite <- !app_assoc|]. split; [done|]. split; [done|].
  by rewrite lookup_alter_eq, Hl.
Qed.

(** ** Search results and the [preAddSearchResult] hooks *)

Lemma find_replace_key {A} name (c : A) (l : list (string * A)) :
  has_key name l = true →
  List.find (λ kc, String.eqb kc.1 name) (replace_key name c l) = Some (name, c).
Proof.
  induction l as [|[k v] l IH]; simpl; [done|].
  destruct (decide (name = k)) as [->|Hne]; simpl.
  - by rewrite String.eqb_refl.
  - destruct (String.eqb_spec k name) as [->|_]; [done|]. simpl. apply IH.
Qed.

Lemma find_insert_key {A} name (c : A) (l : list (string * A)) :
  has_key name l = false →
  List.find (λ kc, String.eqb kc.1 name) (insert_key name c l) = Some (name, c).
Proof.
  induction l as [|[k v] l IH]; simpl.
  - by rewrite String.eqb_refl.
  - intros [Hk Hl]%orb_false_iff.
    destruct (enumerated_before name k); simpl.
    + by rewrite String.eqb_refl.
    + rewrite Hk. by apply IH.
Qed.

Lemma find_assign_key {A} name (c : A) (l : list (string * A)) :
  List.find (λ kc, String.eqb kc.1 name) (assign_key name c l) = Some (name, c).
Proof.
  unfold assign_key. destruct (has_key name l) eqn:Hk.
  - by apply find_replace_key.
  - by apply find_insert_key.
Qed.

Lemma result_songs_set name sgs jn :
  result_songs (set_result name (CSearch sgs) jn) name = sgs.
Proof. unfold result_songs, set_result. simpl. by rewrite find_assign_key. Qed.

Lemma searchSuccess_loop j name veto s0 sgs :
  hooks_veto s0 veto →
  ∀ s jn,
    plugins s = plugins s0 →
    joins s !! j = Some jn →
    ∃ s' jn',
      for_each sgs (λ ks,
        bind (callHooks "preAddSearchResult" [VResult ks.2]) (λ err,
          if truthy err then ret tt
          else update_join j (λ jn,
                 set_result name
                   (CSearch (assign_key ks.2 (VResult ks.2) (result_songs jn name)))
                   jn))) s
      = (Normal tt, s')
      ∧ plugins s' = plugins s0
      ∧ backends s' = backends s
      ∧ joins s' !! j = Some jn'
      ∧ resultCnt jn' = resultCnt jn
      ∧ result_songs jn' name = accepted_songs veto (result_songs jn name) sgs.
Proof.
  intros Hveto. induction sgs as [|[k id] sgs IH]; intros s jn Hpl Hj.
  - exists s, jn. by repeat split.
  - cbn [for_each]. rewrite bind_assoc. cbn [snd].
    destruct (Hveto id s Hpl) as (v & s2 & Hrun & Hv).
    assert (Hk : Keeps (λ s', plugins s' = plugins s ∧ backends s' = backends s
                              ∧ joins s' = joins s)
                   (callHooks "preAddSearchResult" [VResult id])).
    { apply frame_callHooks with (Allowed := λ _, True); by intros. }
    specialize (Hk s (conj eq_refl (conj eq_refl eq_refl))).
    rewrite Hrun in Hk. destruct Hk as (Hpl2 & Hb2 & Hj2). simpl in Hpl2, Hb2, Hj2.
    rewrite (bind_normal _ _ _ _ _ Hrun). rewrite Hv.
    unfold accepted_songs. cbn [foldl snd]. fold (accepted_songs veto).
    destruct (veto id).
    + run. destruct (IH s2 jn) as (s' & jn' & Hrun' & ? & ? & ? & ? & ?);
        [congruence|congruence|].
      exists s', jn'. repeat split; try done. congruence.
    + unfold update_join at 1. run.
      match goal with |- context [for_each _ _ ?s3] =>
        destruct (IH s3
                    (set_result name
                       (CSearch (assign_key id (VResult id) (result_songs jn name)))
                       jn))
          as (s' & jn' & Hrun' & ? & ? & ? & ? & Hres)
      end; [simpl; congruence|by simpl; rewrite list_lookup_alter_eq, Hj2, Hj|].
      exists s', jn'. repeat split; try done; [simpl in *; congruence|].
      by rewrite Hres, result_songs_set.
Qed.

(** X19.  The success callback of a search: the report is counted, and the
    result of the backend holds the songs that no [preAddSearchResult]
    hook rejected, each under its [songId], a later song replacing an
    earlier one with the same [songId]; the rejected ones are left out. *)
Theorem searchSuccess_keeps_accepted j jn b results veto s :
  joins s !! j = Some jn →
  hooks_veto s veto →
  ∃ s' jn',
    searchSuccess j b results s = (Normal tt, s')
    ∧ joins s' !! j = Some jn'
    ∧ resultCnt jn' = S (resultCnt jn)
    ∧ result_songs jn' (b_name b) = accepted_songs veto [] (r_songs results).
Proof.
  intros Hj Hveto. unfold searchSuccess, update_join at 1 2. run.
  match goal with |- context [bind (for_each _ _) _ ?s1] =>
    destruct (searchSuccess_loop j (b_name b) veto s (r_songs results) Hveto s1
                (set_result (b_name b) (CSearch []) (count_result jn)))
      as (s' & jn' & Hrun & Hpl & Hb & Hj' & Hcnt & Hres)
  end; [done|by simpl; rewrite !list_lookup_alter_eq, Hj|].
  rewrite (bind_normal _ _ _ _ _ Hrun). rewrite result_songs_set in Hres.
  unfold join_check. run. rewrite Hj'.
  destruct (decide (length (backends s') ≤ resultCnt jn')); run;
    eexists; exists jn'; (split; [reflexivity|]); by repeat split.
Qed.

(** ** A start report that arrives late *)

(** X23.  The callback that [startPlayback(position)] gives to [prepare] reads
    [player.nowPlaying] when it is called.  When the song changes to
    another one before the first song's [prepare] reports, the report
    starts the other song, at the position asked for the first one (when
    it is not 0), and leaves the first song as it was. *)
Theorem start_report_after_changeSong position u ev la sga lb sgb s :
  nowPlaying s = RSong la →
  heap s !! la = Some sga →
  prepareSync sga = [] →
  List.find (uuid_is (heap s) u) (songs (queue s)) = Some lb →
  heap s !! lb = Some sgb →
  prepareSync sgb = [] →
  la ≠ lb →
  no_error ev →
  ∃ s1 s2 s3,
    startPlayback position s = (Normal tt, s1)
    ∧ changeSong u s1 = (Normal tt, s2)
    ∧ nowPlaying s2 = RSong lb
    ∧ deliver (HStartPlayback (num_or position num_zero)) ev s2 = (Normal tt, s3)
    ∧ play s3 = true
    ∧ playback_of s3 lb
      = Some (mkPlayback (clock s) (start_position position (playback sgb)))
    ∧ playback_of s3 la = Some (playback sga).
Proof.
  intros Hnp Hla Hsa Hfind Hlb Hsb Hne Herr.
  rewrite (startPlayback_with_song position la sga s Hnp Hla), Hsa. cbn [for_each].
  eexists. eexists. eexists. split; [reflexivity|].
  unfold changeSong. run.
  rewrite (bind_normal _ _ _ _ _ (findSong_run _ _)). cbn [heap queue set_trace clear_timer set_timers].
  rewrite Hfind. run. cbn [ref_truthy]. run.
  erewrite startPlayback_with_song; [|reflexivity|exact Hlb].
  rewrite Hsb. cbn [for_each]. split; [reflexivity|]. split; [reflexivity|].
  cbn [deliver]. erewrite startPlayback_handler_run; [|exact Herr|reflexivity|exact Hlb].
  split; [reflexivity|]. split; [reflexivity|]. unfold playback_of. simpl.
  rewrite lookup_alter_eq, Hlb, start_position_or_zero. split; [done|].
  by rewrite lookup_alter_ne, Hla.
Qed.

(** ** Initialisation *)

(** The callbacks that the loaders hold are not in what a dispatch reads
    or writes. *)
Lemma callHooks_find_set_loads ls pls hook argv err s :
  callHooks_find pls hook argv err (set_loads ls s)
  = ((callHooks_find pls hook argv err s).1,
     set_loads ls (callHooks_find pls hook argv err s).2).
Proof.
  revert err s. induction pls as [|[name p] pls IH]; intros err s; [done|].
  cbn [callHooks_find]. destruct (hooks p) as [bundle|]; [|done].
  destruct (hookval_truthy (bundle hook)); [|by apply IH].
  destruct (bundle hook) as [fn|v]; [|done].
  unfold bind, apply_hook. simpl.
  destruct (fn argv (world s)) as [[v|e] w]; [|done].
  destruct (truthy v); [done|].
  exact (IH v (set_trace (trace s ++ [EvHook name hook argv (Normal v)]) (set_world w s))).
Qed.

Lemma fire_set_loads ls hook s :
  bind (callHooks hook []) (λ _, ret tt) (set_loads ls s)
  = ((bind (callHooks hook []) (λ _, ret tt) s).1,
     set_loads ls (bind (callHooks hook []) (λ _, ret tt) s).2).
Proof.
  unfold callHooks. rewrite !bind_assoc, !bind_gets.
  change (plugins (set_loads ls s)) with (plugins s).
  unfold bind. rewrite callHooks_find_set_loads.
  by destruct (callHooks_find (plugins s) hook [] VNull s) as [[v|e] s2].
Qed.

Lemma stage_loaded_set_loads ls st results s :
  stage_loaded st results (set_loads ls s)
  = ((stage_loaded st results s).1, set_loads ls (stage_loaded st results s).2).
Proof.
  unfold stage_loaded. rewrite !bind_modify, !bind_emit.
  assert (Hstore : store st results (set_loads ls s) = set_loads ls (store st results s))
    by (by destruct st, results).
  rewrite Hstore. set (s1 := store st results s).
  change (set_trace (trace (set_loads ls s1) ++ [EvMerged st]) (set_loads ls s1))
    with (set_loads ls (set_trace (trace s1 ++ [EvMerged st]) s1)).
  apply fire_set_loads.
Qed.

Lemma ready_set_loads ls mods cfg s :
  series mods cfg [] (set_loads ls s)
  = ((series mods cfg [] s).1, set_loads ls (series mods cfg [] s).2).
Proof.
  cbn [series]. rewrite !bind_emit.
  change (set_trace (trace (set_loads ls s) ++ [EvLogReady]) (set_loads ls s))
    with (set_loads ls (set_trace (trace s ++ [EvLogReady]) s)).
  apply fire_set_loads.
Qed.

(** An answer to a callback that was never handed out does nothing. *)
Lemma answers_beyond (ops : list (@Op W)) s :
  Forall (λ o, ∃ id results, o = OpAnswer id results ∧ length (loads s) ≤ id) ops →
  run_ops ops s = s.
Proof.
  induction 1 as [|o ops (id & results & -> & Hid) _ IH]; [done|].
  unfold run_ops in *. simpl. unfold answer at 1. rewrite bind_gets.
  rewrite (proj2 (lookup_ge_None (loads s) id) Hid). exact IH.
Qed.

Lemma late_answers_ids mods cfg late sts id (n : nat) :
  n ≤ id →
  Forall (λ o : @Op W, ∃ id' results, o = OpAnswer id' results ∧ n ≤ id')
    (late_answers mods cfg late sts id).
Proof.
  revert id. induction sts as [|st rest IH]; intros id Hn; simpl; [done|].
  destruct (call_loader mods cfg st); [by apply IH|].
  destruct (late st) as [results|]; [|done].
  constructor; [by eauto|]. apply IH. lia.
Qed.

Lemma init_in_order_stage res st rest results s :
  res st = Some results →
  init_in_order res (st :: rest) s
  = bind (stage_loaded st results) (λ _, init_in_order res rest)
      (set_trace (trace s ++ [EvLoad st]) s).
Proof.
  intros Hres. cbn [init_in_order]. rewrite Hres. unfold stage_loaded. by run.
Qed.

Lemma forget_loads ls s : set_loads [] (set_loads ls s) = set_loads [] s.
Proof. done. Qed.

(** The series with loaders that answer later, and the answers as they
    come, is the series of the stages in order. *)
Lemma series_in_order mods cfg late :
  well_kinded late →
  ∀ sts s ls,
    set_loads []
      (run_ops (late_answers mods cfg late sts (length ls))
         (series mods cfg sts (set_loads ls s)).2)
    = set_loads [] (init_in_order (answer_of mods cfg late) sts s).2.
Proof.
  intros Hkind.
  assert (Hstage : ∀ st rest results s ls,
    (∀ s ls,
       set_loads []
         (run_ops (late_answers mods cfg late rest (length ls))
            (series mods cfg rest (set_loads ls s)).2)
       = set_loads [] (init_in_order (answer_of mods cfg late) rest s).2) →
    set_loads []
      (run_ops (late_answers mods cfg late rest (length ls))
         (bind (stage_loaded st results) (λ _, series mods cfg rest) (set_loads ls s)).2)
    = set_loads []
        (bind (stage_loaded st results)
           (λ _, init_in_order (answer_of mods cfg late) rest) s).2).
  { intros st rest results s ls IH. unfold bind.
    rewrite stage_loaded_set_loads.
    destruct (stage_loaded st results s) as [[[]|e] s1]; simpl; [by apply IH|].
    rewrite answers_beyond; [done|]. by apply late_answers_ids. }
  induction sts as [|st rest IH]; intros s ls.
  { rewrite ready_set_loads. done. }
  cbn [series late_answers]. rewrite bind_emit.
  change (set_trace (trace (set_loads ls s) ++ [EvLoad st]) (set_loads ls s))
    with (set_loads ls (set_trace (trace s ++ [EvLoad st]) s)).
  destruct (call_loader mods cfg st) as [results|] eqn:Hload.
  - rewrite (init_in_order_stage _ st rest results)
      by (unfold answer_of; by rewrite Hload).
    by apply Hstage.
  - destruct (late st) as [results|] eqn:Hlate.
    + rewrite (init_in_order_stage _ st rest results)
        by (unfold answer_of; by rewrite Hload).
      unfold await at 1. unfold modify at 1. cbn [snd].
      change (loads (set_loads ls (set_trace (trace s ++ [EvLoad st]) s))) with ls.
      unfold run_ops. cbn [foldl run_op]. fold (run_ops (W:=W)).
      unfold answer at 1. rewrite bind_gets. simpl.
      rewrite list_lookup_middle by done. simpl.
      rewrite (Hkind st results Hlate). rewrite bind_modify.
      assert (Hins : <[length ls := None]> (ls ++ [Some (mkPending mods cfg st rest)])
                     = ls ++ [None]).
      { rewrite insert_app_r_alt by lia. by rewrite Nat.sub_diag. }
      rewrite Hins.
      replace (S (length ls)) with (length (ls ++ [None]))
        by (rewrite length_app; simpl; lia).
      exact (Hstage st rest results (set_trace (trace s ++ [EvLoad st]) s)
               (ls ++ [None]) IH).
    + cbn [init_in_order]. unfold answer_of. rewrite Hload, Hlate. by run.
Qed.

Lemma stage_returns res st rest results s :
  res st = Some results →
  hooks_return (plugins (store st results s)) (stage_hook st) →
  init_in_order res (st :: rest) s
  = init_in_order res rest
      (fired (stage_hook st) []
         (set_trace (trace s ++ [EvLoad st; EvMerged st]) (store st results s))).2.
Proof.
  intros Hres Hret. cbn [init_in_order]. rewrite Hres. run.
  assert (Hstore :
    set_trace (trace (store st results (set_trace (trace s ++ [EvLoad st]) s))
               ++ [EvMerged st])
      (store st results (set_trace (trace s ++ [EvLoad st]) s))
    = set_trace (trace s ++ [EvLoad st; EvMerged st]) (store st results s)).
  { destruct st, results; simpl; by rewrite <- app_assoc. }
  rewrite Hstore.
  destruct (callHooks_returns (stage_hook st) []
              (set_trace (trace s ++ [EvLoad st; EvMerged st]) (store st results s)))
    as (v & Hrun); [exact Hret|].
  by rewrite (bind_normal _ _ _ _ _ Hrun).
Qed.

Lemma ready_returns res s :
  hooks_return (plugins s) "onReady" →
  init_in_order res [] s
  = (Normal tt, (fired "onReady" [] (set_trace (trace s ++ [EvLogReady]) s)).2).
Proof.
  intros Hret. cbn [init_in_order]. run.
  destruct (callHooks_returns "onReady" [] (set_trace (trace s ++ [EvLogReady]) s))
    as (v & Hrun); [exact Hret|].
  by rewrite (bind_normal _ _ _ _ _ Hrun).
Qed.

(** C9.  [init()] with loaders that answer at once or later — a later
    answer is the loader's call of the callback it was handed —, followed
    by the answers as they come: the player ends as the four stages run
    strictly in order leave it, each stage loading, storing its results
    and dispatching its hook before the next stage loads, up to a stage
    whose loader never answers or a hook that throws, and the readiness
    log and [onReady] after the fourth.  When every stage gets its results
    and the hook functions return, the trace is the one of the four stages
    and the readiness, each hook dispatched to the plugins stored by then
    (the builtin plugins for the first, all plugins afterwards), in the
    plugins' world as the dispatch before left it. *)
Theorem init_order mods s late :
  well_kinded late →
  let res := answer_of mods (config s) late in
  let final :=
    run_ops (OpInit mods :: late_answers mods (config s) late stages (length (loads s))) s in
  set_loads [] final = set_loads [] (init_in_order res stages s).2
  ∧ ∀ p1 p2 b1 b2,
      res BuiltinPlugins = Some (LPlugins p1) →
      res ExternalPlugins = Some (LPlugins p2) →
      res BuiltinBackends = Some (LBackends b1) →
      res ExternalBackends = Some (LBackends b2) →
      let P1 := p1 in
      let P2 := extend p1 p2 in
      hooks_return P1 "onBuiltinPluginsInitialized" →
      hooks_return P2 "onPluginsInitialized" →
      hooks_return P2 "onBuiltinBackendsInitialized" →
      hooks_return P2 "onBackendsInitialized" →
      hooks_return P2 "onReady" →
      let d1 := dispatch (hook_fns P1 "onBuiltinPluginsInitialized") [] (world s) in
      let d2 := dispatch (hook_fns P2 "onPluginsInitialized") [] d1.2 in
      let d3 := dispatch (hook_fns P2 "onBuiltinBackendsInitialized") [] d2.2 in
      let d4 := dispatch (hook_fns P2 "onBackendsInitialized") [] d3.2 in
      let d5 := dispatch (hook_fns P2 "onReady") [] d4.2 in
      trace final
      = trace s ++ stage_events BuiltinPlugins P1 d1.1
                ++ stage_events ExternalPlugins P2 d2.1
                ++ stage_events BuiltinBackends P2 d3.1
                ++ stage_events ExternalBackends P2 d4.1
                ++ ready_events P2 d5.1
      ∧ plugins final = P2
      ∧ backends final = extend b1 b2
      ∧ world final = d5.2.
Proof.
  intros Hkind res final.
  assert (Hfinal : set_loads [] final = set_loads [] (init_in_order res stages s).2).
  { subst final. unfold run_ops. cbn [foldl run_op]. fold (run_ops (W:=W)).
    unfold init at 1. rewrite bind_gets.
    exact (series_in_order mods (config s) late Hkind stages s (loads s)). }
  split; [exact Hfinal|].
  intros p1 p2 b1 b2 H1 H2 H3 H4 P1 P2 R1 R2 R3 R4 R5 d1 d2 d3 d4 d5.
  assert (Hrun : init_in_order res stages s
                 = (Normal tt,
                    set_trace
                      (trace s ++ stage_events BuiltinPlugins P1 d1.1
                               ++ stage_events ExternalPlugins P2 d2.1
                               ++ stage_events BuiltinBackends P2 d3.1
                               ++ stage_events ExternalBackends P2 d4.1
                               ++ ready_events P2 d5.1)
                      (set_world d5.2
                         (set_backends (extend b1 b2) (set_plugins P2 s))))).
  { unfold stages.
    rewrite (stage_returns res _ _ _ s H1) by exact R1.
    rewrite (stage_returns res _ _ _ _ H2) by exact R2.
    rewrite (stage_returns res _ _ _ _ H3) by exact R3.
    rewrite (stage_returns res _ _ _ _ H4) by exact R4.
    rewrite ready_returns by exact R5.
    f_equal. subst d1 d2 d3 d4 d5 P1 P2.
    unfold fired, stage_events, ready_events. simpl.
    rewrite <- !app_assoc. simpl. reflexivity. }
  rewrite Hrun in Hfinal.
  pose proof (f_equal trace Hfinal) as Ht.
  pose proof (f_equal plugins Hfinal) as Hp.
  pose proof (f_equal backends Hfinal) as Hb.
  pose proof (f_equal world Hfinal) as Hw.
  done.
Qed.
End Proofs.


(** C3.  An unprepared song is given to [prepareSong] and its fetch then
    reports an error: the handler calls [done(error)] and returns.  The
    watchdog armed by [prepareSong] is still pending, the song still has
    its [cancelPrepare] and its buffered data, and the
    [onSongPrepareError] hook of the plugin was not called. *)
Theorem prepare_error_only_calls_done :
  let s1 := (prepareSong (RSong 0) (CbUser 7) Examples.unprepared).2 in
  let s2 := (deliver (HPrepareSong 0 (CbUser 7)) Examples.fetch_error s1).2 in
  length (exposing (plugins Examples.unprepared) "onSongPrepareError") = 1
  ∧ trace s1 = [EvSongPrepare 0 (HPrepareSong 0 (CbUser 7))]
  ∧ trace s2 = trace s1 ++ [EvCallback 7 [VStr "boom"]]
  ∧ (prepareTimeout <$> heap s2 !! 0) = Some (Some 0)
  ∧ timers s2 !! 0 = Some (TPrepareTimeout 0 10000)
  ∧ (cancelPrepare <$> heap s2 !! 0) = Some true
  ∧ (songData <$> heap s2 !! 0) = Some true.
Proof. by vm_compute. Qed.

(** C6.  On a player without backends, [searchBackends] and [getPlaylists]
    return without having called anything: no backend is asked, so no
    report will come, and the completion callback is never called. *)
Theorem join_without_backends_never_completes :
  backends Examples.no_backends = []
  ∧ trace (searchBackends (VStr "abba") 7 Examples.no_backends).2 = []
  ∧ trace (getPlaylists 7 Examples.no_backends).2 = []
  ∧ join_calls 7 (trace (searchBackends (VStr "abba") 7 Examples.no_backends).2) = 0
  ∧ join_calls 7 (trace (getPlaylists 7 Examples.no_backends).2) = 0.
Proof. by vm_compute. Qed.

(** [prepareErrCallback], which nothing calls, is where that cleanup is
    written: run on the same error it drops [cancelPrepare], clears the
    watchdog, calls the callback with [true], fires [onSongPrepareError] and
    drops the buffered data, then fails on [this.songsPreparing]. *)
Example prepareErrCallback_cleans_up :
  let s1 := (prepareSong (RSong 0) (CbUser 7) Examples.unprepared).2 in
  let r := prepareErrCallback 0 (VStr "boom") (CbUser 7) s1 in
  trace r.2 = trace s1 ++ [EvCallback 7 [VBool true];
                           EvHook "rest" "onSongPrepareError" [VSong 0; VStr "boom"]
                             (Normal VUndefined)]
  ∧ timers r.2 !! 0 = None
  ∧ (prepareTimeout <$> heap r.2 !! 0) = Some None
  ∧ (cancelPrepare <$> heap r.2 !! 0) = Some false
  ∧ (songData <$> heap r.2 !! 0) = Some false
  ∧ r.1 = Throw (VTypeError "Cannot read properties of undefined (reading 'gmusic')").
Proof. by vm_compute. Qed.

(** Two backends, one answering at once and one later: the callback is
    called at the second report, with the contributions of both (here every
    song is vetoed by the second plugin). *)
Example search_two_backends :
  let r1 := searchBackends (VStr "abba") 7 Examples.two_backends in
  let s2 := (report 0 Examples.files_found r1.2).2 in
  r1.1 = Normal 0
  ∧ join_calls 7 (trace r1.2) = 0
  ∧ join_calls 7 (trace s2) = 1
  ∧ last (trace s2)
    = Some (EvJoinCallback 7 [("gmusic", CSearch []); ("files", CSearch [])]).
Proof. by vm_compute. Qed.

(** [getPlaylists] with a backend that has no [getPlaylists] ("gmusic")
    and one that answers later ("files"): the first is counted in the loop
    and contributes no entry. *)
Example playlists_two_backends :
  let r1 := getPlaylists 7 Examples.two_backends in
  let s2 := (report 0 Examples.files_playlists r1.2).2 in
  r1.1 = Normal 0
  ∧ trace r1.2 = [EvGetPlaylists "files"]
  ∧ trace s2 = trace r1.2 ++ [EvJoinCallback 7 [("files", CPlaylists (VObj 1))]].
Proof. by vm_compute. Qed.

(** C4.  On a new player (no now-playing song, empty queue)
    [startPlayback()] throws the queue-empty error; [play], the queue and
    the songs are as before, but [nowPlaying], [null] before the call, is
    [undefined] after it. *)
Theorem startPlayback_empty_queue_writes_nowPlaying :
  nowPlaying Examples.fresh = RNull
  ∧ songs (queue Examples.fresh) = []
  ∧ ∃ s',
      startPlayback num_zero Examples.fresh
      = (Throw (VError "queue is empty! not starting playback."), s')
      ∧ nowPlaying s' = RUndefined
      ∧ play s' = play Examples.fresh
      ∧ queue s' = queue Examples.fresh
      ∧ heap s' = heap Examples.fresh.
Proof.
  split; [done|]. split; [done|].
  rewrite startPlayback_empty_queue by done. eauto 10.
Qed.

(** C1, as stated, fails for the hook names that every object literal has
    a property for.  The only plugin of the player has the [hooks] bundle
    [{onReady: fn}].  For ['__proto__'] the bundle gives its prototype,
    which is truthy and no function: [callHooks] throws, with no hook
    function to call.  For ['toString'] it gives the inherited function,
    which [callHooks] calls: the player returns ["[object Null]"] from a
    plugin that has no hook of this name. *)
Theorem callHooks_inherited_names :
  hook_fns (plugins Examples.one_hook) "__proto__" = []
  ∧ callHooks "__proto__" [] Examples.one_hook
    = (Throw (VTypeError "fun.apply is not a function"), Examples.one_hook)
  ∧ callHooks "toString" [] Examples.one_hook
    = (Normal (VStr "[object Null]"),
       set_trace [EvHook "rest" "toString" [] (Normal (VStr "[object Null]"))]
         Examples.one_hook).
Proof. by vm_compute. Qed.

(** C5, as stated, fails at construction, and for NaN:
    [new Player({volume: 5})] has volume 5, and [setVolume(NaN)] stores
    NaN. *)
Lemma volume_outside_unit_interval :
  ¬ in_unit_interval
      (volume (constructor Examples.loud_options Examples.cfg ∅ num_zero tt)) = true
  ∧ ¬ in_unit_interval (volume (setVolume S754_nan VNull Examples.fresh).2) = true.
Proof. split; vm_compute; discriminate. Qed.

(** C2.  With a plugin whose [hooks] bundle has [onReady], [callHooks]
    calls one hook function for [onReady] and [numHooks] counts none:
    [numHooks] looks for a property of the plugin itself. *)
Theorem numHooks_misses_hooks_bundle :
  length (exposing (plugins Examples.one_hook) "onReady") = 1
  ∧ trace (callHooks "onReady" [] Examples.one_hook).2
    = [EvHook "rest" "onReady" [] (Normal VUndefined)]
  ∧ numHooks "onReady" Examples.one_hook = 0.
Proof. by vm_compute. Qed.

(** * The theorems at concrete players *)

(** [hooks_return] for a concrete list of plugins, by computation. *)
Ltac hooks_return_by_cases :=
  split;
  [ intros name p Hin; apply list_elem_of_In in Hin; simpl in Hin;
    repeat (destruct Hin as [[= <- <-]|Hin]); try done;
    (eexists; split; [reflexivity|]; intros v Hv; vm_compute in Hv;
     first [discriminate Hv | by injection Hv as <-])
  | intros name p fn Hin Hfn argv w; apply list_elem_of_In in Hin; simpl in Hin;
    repeat (destruct Hin as [[= <- <-]|Hin]); try done;
    vm_compute in Hfn; first [discriminate Hfn | injection Hfn as <-; eauto] ].

Lemma callHooks_dispatch_witness :
  let s := Examples.two_plugins "preAddSearchResult" VUndefined (VStr "no") in
  hooks_sound (plugins s) "preAddSearchResult"
  ∧ callHooks "preAddSearchResult" [VResult "s1"] s
    = (Normal (VStr "no"),
       set_trace [EvHook "rest" "preAddSearchResult" [VResult "s1"] (Normal VUndefined);
                  EvHook "web" "preAddSearchResult" [VResult "s1"] (Normal (VStr "no"))] s).
Proof.
  assert (Hs : hooks_return
                 (plugins (Examples.two_plugins "preAddSearchResult" VUndefined (VStr "no")))
                 "preAddSearchResult") by hooks_return_by_cases.
  split; [exact (proj1 Hs)|].
  destruct (callHooks_dispatch "preAddSearchResult" [VResult "s1"]
              (Examples.two_plugins "preAddSearchResult" VUndefined (VStr "no"))
              (proj1 Hs)) as (_ & Hrun & _).
  exact (eq_trans Hrun eq_refl).
Defined.

Lemma init_order_witness :
  let ops := [OpInit Examples.slow_mods;
              OpAnswer 0 (LPlugins Examples.late_plugins);
              OpAnswer 1 (LBackends Examples.late_backends)] in
  well_kinded Examples.late_modules
  ∧ trace (run_ops ops Examples.fresh)
    = [EvLoad BuiltinPlugins; EvMerged BuiltinPlugins;
       EvHook "rest" "onBuiltinPluginsInitialized" [] (Normal (VStr "up"));
       EvLoad ExternalPlugins; EvMerged ExternalPlugins;
       EvLoad BuiltinBackends; EvMerged BuiltinBackends;
       EvLoad ExternalBackends; EvMerged ExternalBackends;
       EvLogReady; EvHook "web" "onReady" [] (Normal VUndefined)]
  ∧ map fst (backends (run_ops ops Examples.fresh)) = ["files"; "gmusic"].
Proof.
  assert (Hkind : well_kinded Examples.late_modules).
  { intros st results H. destruct st; simpl in H; try discriminate H;
      by injection H as <-. }
  split; [exact Hkind|].
  destruct (init_order Examples.slow_mods Examples.fresh Examples.late_modules Hkind)
    as [_ H].
  assert (HP : extend (A:=@Plugin unit)
                 [("rest", Examples.plugin_with "onBuiltinPluginsInitialized"
                             (Examples.returning (VStr "up")))]
                 Examples.late_plugins
               = [("rest", Examples.plugin_with "onBuiltinPluginsInitialized"
                             (Examples.returning (VStr "up")));
                  ("web", Examples.plugin_with "onReady" (Examples.returning VUndefined))])
    by reflexivity.
  specialize (H _ _ _ _ eq_refl eq_refl eq_refl eq_refl).
  cbv zeta in H. rewrite HP in H.
  destruct H as (Ht & _ & Hb & _); try hooks_return_by_cases.
  split; [exact (eq_trans Ht eq_refl)|].
  exact (eq_trans (f_equal (map fst) Hb) eq_refl).
Defined.

Lemma changeSong_missing_song_witness :
  let s := Examples.with_songs [Examples.track "a" true []] RNull false false in
  List.find (uuid_is (heap s) (VStr "zzz")) (songs (queue s)) = None
  ∧ ∃ s',
      changeSong (VStr "zzz") s
      = (Throw (VTypeError "Cannot read properties of null (reading 'playback')"), s')
      ∧ nowPlaying s' = RNull
      ∧ play s' = false
      ∧ heap s' = heap s
      ∧ trace s' = trace s ++ [EvEnter MChangeSong; EvEnter MStopPlayback].
Proof.
  split; [reflexivity|].
  apply (changeSong_missing_song_dereferences_null (VStr "zzz")
           (Examples.with_songs [Examples.track "a" true []] RNull false false)).
  reflexivity.
Defined.

Lemma volume_in_unit_interval_witness :
  let os := [OpSetVolume Examples.num_two VNull; OpStartPlayback num_zero;
             OpSetVolume Examples.num_minus_one (VStr "web")] in
  let s := Examples.two_plugins "onVolumeChange" VUndefined VUndefined in
  in_unit_interval (volume_or_default (o_volume Examples.no_options)) = true
  ∧ Forall (λ o, ∀ x y, o = OpSetVolume x y → is_nan x = false) os
  ∧ is_nan Examples.num_0_4 = false
  ∧ in_unit_interval
      (volume (run_ops os (constructor Examples.no_options Examples.cfg ∅ num_zero tt))) = true
  ∧ volume (setVolume Examples.num_0_4 (VStr "web") s).2 = Examples.num_0_4.
Proof.
  assert (Hos : Forall (λ o, ∀ x y, o = OpSetVolume x y → is_nan x = false)
                  [OpSetVolume (W:=unit) Examples.num_two VNull; OpStartPlayback num_zero;
                   OpSetVolume Examples.num_minus_one (VStr "web")]).
  { repeat constructor; intros x y Heq; inversion Heq; reflexivity. }
  split; [reflexivity|]. split; [exact Hos|]. split; [reflexivity|].
  pose proof (volume_in_unit_interval Examples.no_options Examples.cfg ∅ num_zero tt _
                Examples.num_0_4 (VStr "web")
                (Examples.two_plugins "onVolumeChange" VUndefined VUndefined)
                eq_refl Hos eq_refl) as H.
  destruct H as (_ & H2 & _ & H4 & _).
  split; [exact H2|]. exact (eq_trans H4 eq_refl).
Defined.


Lemma songEnd_at_end_of_queue_witness :
  let s := Examples.at_last_song true in
  nowPlaying s = RSong 1
  ∧ heap s !! 1 = Some Examples.track_b
  ∧ find_index (uuid_is (heap s) (VStr (uuid Examples.track_b))) (songs (queue s)) 0
    = (Z.of_nat (length (songs (queue s))) - 1)%Z
  ∧ songs (queue s) !! 0 = Some 0
  ∧ heap s !! 0 = Some Examples.track_a
  ∧ songEnd s
    = bind (callHooks "onSongEnd" [VSong 1])
        (λ _, bind (if repeat s then changeSong (VStr (uuid Examples.track_a)) else ret tt)
                (λ _, prepareSongs)) s.
Proof.
  assert (H1 : heap (Examples.at_last_song true) !! 1 = Some Examples.track_b)
    by (vm_compute; reflexivity).
  assert (H2 : find_index (uuid_is (heap (Examples.at_last_song true))
                             (VStr (uuid Examples.track_b)))
                 (songs (queue (Examples.at_last_song true))) 0
               = (Z.of_nat (length (songs (queue (Examples.at_last_song true)))) - 1)%Z)
    by (vm_compute; reflexivity).
  assert (H3 : heap (Examples.at_last_song true) !! 0 = Some Examples.track_a)
    by (vm_compute; reflexivity).
  split; [reflexivity|]. split; [exact H1|]. split; [exact H2|].
  split; [reflexivity|]. split; [exact H3|].
  exact (proj1 (songEnd_at_end_of_queue 1 Examples.track_b 0 Examples.track_a
                  (Examples.at_last_song true) eq_refl H1 H2 eq_refl H3)).
Defined.

Lemma two_backends_hooks_return :
  hooks_return (plugins Examples.two_backends) "preAddSearchResult".
Proof. hooks_return_by_cases. Qed.

Lemma searchBackends_joins_once_witness :
  ∃ j s1 s2 evs,
    searchBackends (VStr "abba") 7 Examples.two_backends = (Normal j, s1)
    ∧ for_each [Examples.files_found] (report j) s1 = (Normal tt, s2)
    ∧ trace s2 = trace Examples.two_backends ++ evs
    ∧ join_calls 7 evs = 1.
Proof.
  apply (searchBackends_joins_once (VStr "abba") 7 [Examples.files_found]
           Examples.two_backends).
  - discriminate.
  - exact two_backends_hooks_return.
  - vm_compute. lia.
Defined.

Lemma startPlayback_starts_witness :
  ∃ s',
    startPlayback (num_of_Z 30) Examples.playing_prepared = (Normal tt, s')
    ∧ play s' = true
    ∧ playback_of s' 0 = Some (mkPlayback (num_of_Z 5000) (num_of_Z 30)).
Proof.
  destruct (startPlayback_starts (num_of_Z 30) 0 Examples.track_a
              Examples.playing_prepared)
    as (s' & Hrun & Hplay & _ & Hpb & _).
  - reflexivity.
  - vm_compute. reflexivity.
  - discriminate.
  - repeat constructor.
  - exists s'. split; [exact Hrun|]. split; [exact Hplay|exact Hpb].
Defined.

Lemma pause_then_resume_witness :
  ∃ s1 s2,
    stopPlayback true Examples.long_playing = (Normal tt, s1)
    ∧ play s1 = false
    ∧ startPlayback num_zero (at_time (num_of_Z 9000) s1) = (Normal tt, s2)
    ∧ play s2 = true
    ∧ nowPlaying s2 = RSong 0
    ∧ playback_of s2 0
      = Some (mkPlayback (num_of_Z 9000) (num_of_Z 9007199254745992)).
Proof.
  apply (pause_then_resume true (num_of_Z 9000) 0 Examples.long_track
           Examples.long_playing).
  - reflexivity.
  - vm_compute. reflexivity.
  - discriminate.
  - repeat constructor.
Defined.

Lemma startPlayback_prepare_error_witness :
  ∃ s',
    startPlayback num_zero Examples.failing
    = (Throw (VErrorOf "error while preparing now playing: " (VStr "boom")), s')
    ∧ play s' = false.
Proof.
  eexists. split.
  - apply (startPlayback_prepare_error num_zero 0
             (Examples.track "a" false [Examples.fetch_error])
             Examples.fetch_error [] Examples.failing).
    + reflexivity.
    + vm_compute. reflexivity.
    + reflexivity.
    + reflexivity.
  - reflexivity.
Defined.

Lemma changeSong_found_witness :
  nowPlaying (changeSong (VStr "a") (Examples.at_last_song false)).2 = RSong 0
  ∧ heap (changeSong (VStr "a") (Examples.at_last_song false)).2 !! 1
    = Some Examples.track_b.
Proof.
  destruct (changeSong_found (VStr "a") 0 (Examples.at_last_song false))
    as (_ & Hnp & _ & Hothers).
  - vm_compute. reflexivity.
  - split; [exact Hnp|]. rewrite (Hothers 1); [|discriminate].
    vm_compute. reflexivity.
Defined.

Lemma songEnd_next_song_witness :
  songEnd Examples.at_first_song
  = bind (callHooks "onSongEnd" [VSong 0])
      (λ _, bind (changeSong (VStr "b")) (λ _, prepareSongs))
      Examples.at_first_song.
Proof.
  apply (songEnd_next_song 0 Examples.track_a 1 Examples.track_b
           Examples.at_first_song).
  - reflexivity.
  - vm_compute. reflexivity.
  - vm_compute. reflexivity.
  - vm_compute. reflexivity.
Defined.

Lemma songEnd_without_song_witness :
  ∃ msg, songEnd Examples.unprepared = (Throw (VTypeError msg), Examples.unprepared).
Proof. apply (songEnd_without_song Examples.unprepared). reflexivity. Defined.

Lemma watchdog_cleared_on_completion_witness :
  ∃ s1 s2,
    prepareSong (RSong 0) (CbUser 7) Examples.unprepared = (Normal tt, s1)
    ∧ timers s1 !! 0 = Some (TPrepareTimeout 0 10000)
    ∧ deliver (HPrepareSong 0 (CbUser 7)) Examples.completion s1 = (Normal tt, s2)
    ∧ timers s2 !! 0 = None
    ∧ prepareTimeout_fires 0 s2 = (Normal tt, s2).
Proof.
  destruct (watchdog_cleared_on_completion 0 (Examples.track "a" false []) 7
              Examples.completion Examples.unprepared)
    as (s1 & s2 & H1 & H2 & H3 & H4 & _ & H5 & _).
  - vm_compute. reflexivity.
  - reflexivity.
  - reflexivity.
  - reflexivity.
  - reflexivity.
  - reflexivity.
  - exists s1, s2. repeat split; assumption.
Defined.

Lemma watchdog_cancels_on_timeout_witness :
  ∃ s1 s2,
    prepareSong (RSong 0) (CbUser 7) Examples.unprepared = (Normal tt, s1)
    ∧ prepareTimeout_fires 0 s1 = (Normal tt, s2)
    ∧ trace s2 = [EvSongPrepare 0 (HPrepareSong 0 (CbUser 7));
                  EvCancelPrepare 0 "prepare timeout"].
Proof.
  destruct (watchdog_cancels_on_timeout 0 (Examples.track "a" false []) (CbUser 7)
              Examples.unprepared)
    as (s1 & s2 & H1 & _ & H2 & _ & _ & H3).
  - vm_compute. reflexivity.
  - reflexivity.
  - reflexivity.
  - reflexivity.
  - exists s1, s2. repeat split; assumption.
Defined.

Lemma getPlaylists_without_capability_witness :
  ∃ j s',
    getPlaylists 7 Examples.only_gmusic = (Normal j, s')
    ∧ trace s' = [EvJoinCallback 7 []].
Proof.
  apply (getPlaylists_without_capability 7 Examples.only_gmusic).
  - discriminate.
  - repeat constructor.
Defined.

Lemma getPlaylists_joins_once_witness :
  ∃ j s1 s2 evs,
    getPlaylists 7 Examples.two_backends = (Normal j, s1)
    ∧ for_each [Examples.files_playlists] (report j) s1 = (Normal tt, s2)
    ∧ trace s2 = trace Examples.two_backends ++ evs
    ∧ join_calls 7 evs = 1.
Proof.
  apply (getPlaylists_joins_once 7 [Examples.files_playlists] Examples.two_backends).
  - discriminate.
  - exact two_backends_hooks_return.
  - vm_compute. lia.
Defined.

Lemma listening_onPrepareProgress :
  hooks_return (plugins Examples.listening) "onPrepareProgress".
Proof. hooks_return_by_cases. Qed.

Lemma listening_onSongPrepared :
  hooks_return (plugins Examples.listening) "onSongPrepared".
Proof. hooks_return_by_cases. Qed.

Lemma progress_rearms_watchdog_witness :
  ∃ s',
    deliver (HPrepareSong 0 (CbUser 7)) Examples.chunk Examples.listening
    = (Normal tt, s')
    ∧ trace s'
      = [EvHook "web" "onPrepareProgress"
           [VSong 0; VNum Examples.num_five; VBool false] (Normal VUndefined)]
    ∧ timers s' = {[ 0 := TPrepareTimeout 0 10000 ]}
    ∧ prepareTimeout <$> heap s' !! 0 = Some (Some 0).
Proof.
  destruct (progress_rearms_watchdog 0 (Examples.track "a" false []) (CbUser 7)
              Examples.chunk Examples.listening)
    as (s' & Hrun & Htr & _ & Htimers & Hpt).
  - vm_compute. reflexivity.
  - reflexivity.
  - reflexivity.
  - reflexivity.
  - reflexivity.
  - exact listening_onPrepareProgress.
  - exists s'. split; [exact Hrun|]. split; [exact Htr|].
    split; [exact Htimers|exact Hpt].
Defined.

Lemma final_chunk_completes_witness :
  ∃ s',
    deliver (HPrepareSong 0 (CbUser 7)) Examples.last_chunk
      Examples.listening_registered
    = (Normal tt, s')
    ∧ trace s'
      = [EvHook "web" "onPrepareProgress"
           [VSong 0; VNum Examples.num_five; VBool true] (Normal VUndefined);
         EvHook "web" "onSongPrepared" [VSong 0] (Normal VUndefined);
         EvCallback 7 []]
    ∧ songsPreparing s' !! ("gmusic", "id-a") = None.
Proof.
  destruct (final_chunk_completes 0 (Examples.track "a" false []) 7
              Examples.last_chunk Examples.listening_registered)
    as (s' & Hrun & Htr & _ & Hreg & _).
  - vm_compute. reflexivity.
  - reflexivity.
  - reflexivity.
  - reflexivity.
  - reflexivity.
  - exists true. vm_compute. reflexivity.
  - exact listening_onPrepareProgress.
  - exact listening_onSongPrepared.
  - exists s'. split; [exact Hrun|]. split; [exact Htr|exact Hreg].
Defined.

Lemma final_chunk_without_registry_entry_witness :
  ∃ s',
    deliver (HPrepareSong 0 (CbUser 7)) Examples.last_chunk Examples.listening
    = (Throw (VTypeError "Cannot set properties of undefined (setting 'songData')"),
       s')
    ∧ trace s'
      = [EvHook "web" "onPrepareProgress"
           [VSong 0; VNum Examples.num_five; VBool true] (Normal VUndefined);
         EvHook "web" "onSongPrepared" [VSong 0] (Normal VUndefined)]
    ∧ timers s' = timers Examples.listening.
Proof.
  destruct (final_chunk_without_registry_entry 0 (Examples.track "a" false [])
              (CbUser 7) Examples.last_chunk Examples.listening)
    as (s' & Hrun & Htr & _ & Htimers & _).
  - vm_compute. reflexivity.
  - reflexivity.
  - reflexivity.
  - reflexivity.
  - reflexivity.
  - reflexivity.
  - exact listening_onPrepareProgress.
  - exact listening_onSongPrepared.
  - exists s'. split; [exact Hrun|]. split; [exact Htr|exact Htimers].
Defined.

Lemma choosy_hooks_veto : hooks_veto Examples.choosy (λ id, String.eqb id "s2").
Proof.
  intros id s1 Hpl. unfold callHooks. rewrite bind_gets, Hpl.
  change (plugins Examples.choosy)
    with [("filter", Examples.plugin_with "preAddSearchResult" (Examples.rejecting "s2"))].
  cbn [callHooks_find hooks Examples.plugin_with].
  assert (Hb : plain_bundle (W:=unit)
                 {[ "preAddSearchResult" := HFun (Examples.rejecting "s2") ]}
                 "preAddSearchResult" = HFun (Examples.rejecting "s2"))
    by (unfold plain_bundle; by rewrite lookup_singleton_eq).
  rewrite Hb. cbn [hookval_truthy]. unfold bind, apply_hook, Examples.rejecting.
  destruct (String.eqb id "s2"); simpl; eauto.
Qed.

Lemma searchSuccess_keeps_accepted_witness :
  ∃ s' jn',
    searchSuccess 0 (mkBackend "files" SearchLater None) Examples.three_found
      Examples.choosy
    = (Normal tt, s')
    ∧ joins s' !! 0 = Some jn'
    ∧ resultCnt jn' = 1
    ∧ result_songs jn' "files" = [("s1", VResult "s1"); ("s3", VResult "s3")].
Proof.
  apply (searchSuccess_keeps_accepted 0 (mkJoin 0 [] 7)
           (mkBackend "files" SearchLater None) Examples.three_found
           (λ id, String.eqb id "s2") Examples.choosy).
  - reflexivity.
  - exact choosy_hooks_veto.
Defined.

Lemma start_report_after_changeSong_witness :
  ∃ s1 s2 s3,
    startPlayback (num_of_Z 30) Examples.two_silent = (Normal tt, s1)
    ∧ changeSong (VStr "b") s1 = (Normal tt, s2)
    ∧ nowPlaying s2 = RSong 1
    ∧ deliver (HStartPlayback (num_of_Z 30)) Examples.completion s2 = (Normal tt, s3)
    ∧ play s3 = true
    ∧ playback_of s3 1 = Some (mkPlayback (num_of_Z 5000) (num_of_Z 30))
    ∧ playback_of s3 0 = Some (mkPlayback num_zero num_zero).
Proof.
  apply (start_report_after_changeSong (num_of_Z 30) (VStr "b") Examples.completion
           0 (Examples.track "a" true []) 1 (Examples.track "b" true [])
           Examples.two_silent).
  - reflexivity.
  - vm_compute. reflexivity.
  - reflexivity.
  - vm_compute. reflexivity.
  - vm_compute. reflexivity.
  - reflexivity.
  - discriminate.
  - reflexivity.
Defined.
